(** * Agreezy: the chunk-aware document pipeline

    A shallow embedding of [lib/chunker.js], of the local fallback merge of
    [lib/features/key-points.js], and of the entry points of
    [lib/features/translator.js] and [lib/features/qa.js], with the
    properties the specification states about them.

    JavaScript strings are sequences of UTF-16 code units; [length], [trim],
    [slice] and [split] all count code units, so a string is a [list N].
    Numbers that the code computes on strings and arrays are integers and are
    kept in [Z] (a chunk offset can become negative). *)

From Stdlib Require Import ZArith Lia Ascii String DecimalString Sorted.
From stdpp Require Import base list gmap.

Local Open Scope Z_scope.

(** ** JavaScript strings and the built-ins the code calls *)

Module JS.

Definition jsstring : Type := list N.

(** A source literal (ASCII only in the modelled files). *)
Definition lit (s : string) : jsstring :=
  map N_of_ascii (list_ascii_of_string s).

(** [s.length] *)
Definition len (s : jsstring) : Z := Z.of_nat (length s).

(** The code units of [WhiteSpace] and [LineTerminator]: what
    [String.prototype.trim] strips and what [\s] matches. *)
Definition isWhiteSpace (c : N) : bool :=
  ((9 <=? c) && (c <=? 13) || (c =? 32) || (c =? 160) || (c =? 5760)
   || (8192 <=? c) && (c <=? 8202) || (c =? 8232) || (c =? 8233)
   || (c =? 8239) || (c =? 8287) || (c =? 12288) || (c =? 65279))%N.

Fixpoint trimStart (s : jsstring) : jsstring :=
  match s with
  | c :: s' => if isWhiteSpace c then trimStart s' else s
  | [] => []
  end.

Definition trimEnd (s : jsstring) : jsstring :=
  reverse (trimStart (reverse s)).

(** [s.trim()] *)
Definition trim (s : jsstring) : jsstring := trimEnd (trimStart s).

(** [a.length] for an array. *)
Definition arrayLength {A : Type} (a : list A) : Z := Z.of_nat (length a).

(** [s.slice(-n)] for a positive [n]: the last [n] code units, the whole
    string when it is shorter. *)
Definition sliceLast (n : nat) (s : jsstring) : jsstring :=
  drop (length s - n)%nat s.

(** [s.substring(0, n)] *)
Definition substring0 (n : nat) (s : jsstring) : jsstring := take n s.

(** [String(z)] / a template-literal hole for an integer. *)
Definition numberToString (z : Z) : jsstring :=
  lit (NilZero.string_of_int (Z.to_int z)).

(** [parts.join(sep)] *)
Fixpoint join (sep : jsstring) (parts : list jsstring) : jsstring :=
  match parts with
  | [] => []
  | [p] => p
  | p :: rest => p ++ sep ++ join sep rest
  end.

(** The length of the longest run of code units in the class [p] at the head
    of [s]: what a greedy [p+] or [p*] consumes. *)
Fixpoint runLength (p : N -> bool) (s : jsstring) : nat :=
  match s with
  | d :: s' => if p d then S (runLength p s') else O
  | [] => O
  end.

(** [RegExp.prototype[Symbol.split]] for a pattern without capture groups
    that never matches the empty string.  [matchAt s] is the length of the
    match that starts at the head of [s], if there is one.  The scan keeps the
    piece read so far (reversed) and the number of code units of the current
    match still to be skipped. *)
Fixpoint splitScan (matchAt : jsstring -> option nat)
    (skip : nat) (piece : jsstring) (s : jsstring) : list jsstring :=
  match s with
  | [] => [reverse piece]
  | c :: s' =>
      match skip with
      | S k => splitScan matchAt k piece s'
      | O =>
          match matchAt s with
          | Some (S k) => reverse piece :: splitScan matchAt k [] s'
          | _ => splitScan matchAt O (c :: piece) s'
          end
      end
  end.

Definition split (matchAt : jsstring -> option nat) (s : jsstring)
  : list jsstring :=
  splitScan matchAt O [] s.

(** [s.includes(t)] *)
Fixpoint startsWith (t s : jsstring) : bool :=
  match t, s with
  | [], _ => true
  | a :: t', b :: s' => (a =? b)%N && startsWith t' s'
  | _ :: _, [] => false
  end.

Fixpoint includes (s t : jsstring) : bool :=
  startsWith t s ||
  match s with
  | [] => false
  | _ :: s' => includes s' t
  end.

(** The line feed and the double quote, written by code unit. *)
Definition LF : jsstring := [10%N].
Definition DQ : jsstring := [34%N].

(** [Array.prototype.sort(comparefn)].  ECMAScript requires the result to be
    the stable sorted permutation whenever [comparefn] is a consistent
    comparator and leaves the algorithm open; the model is the stable
    insertion sort.  [cmp a b] is the number the comparator returns, with a
    [NaN] result already read as [+0] as [SortCompare] does. *)
Section Sort.
Context {A : Type} (cmp : A -> A -> Z).

Fixpoint insertSorted (x : A) (l : list A) : list A :=
  match l with
  | [] => [x]
  | y :: l' => if cmp x y <=? 0 then x :: l else y :: insertSorted x l'
  end.

Definition sort (l : list A) : list A := foldr insertSorted [] l.
End Sort.

End JS.

Import JS.

(** ** lib/chunker.js *)

Module Chunker.

Definition MAX_CHUNK_SIZE : Z := 3500.
Definition CHUNK_OVERLAP : Z := 200.
Definition MAX_DOCUMENT_SIZE : Z := 50000.

Record chunk : Type := Chunk {
  text : jsstring;
  index : Z;
  total : Z;
  start : Z;
  end_ : Z
}.

(** What a call produces: a returned value or a thrown [Error] with its
    message. *)
Inductive completion (A : Type) : Type :=
| Returned (a : A)
| Thrown (message : jsstring).
Arguments Returned {A} a.
Arguments Thrown {A} message.

(** The pattern [/\n\n+|\r\n\r\n+/] tried at the head of [s]: two line feeds
    and every line feed that follows, else CR LF CR and one or more line
    feeds. *)
Definition paragraphBreak (s : jsstring) : option nat :=
  match s with
  | 10%N :: 10%N :: s' => Some (2 + runLength (N.eqb 10) s')%nat
  | 13%N :: 10%N :: 13%N :: 10%N :: s' => Some (4 + runLength (N.eqb 10) s')%nat
  | _ => None
  end.

Definition splitIntoParagraphs (text : jsstring) : list jsstring :=
  List.filter (fun p => 0 <? len p)
    (map trim (split paragraphBreak text)).

(** The separator ['\n\n'] the chunks are built with. *)
Definition blankLine : jsstring := [10%N; 10%N].

(** The variables the [for] loop of [chunkContent] updates. *)
Record loopState : Type := LoopState {
  chunks : list chunk;
  currentChunk : jsstring;
  chunkStartIndex : Z
}.

(** One iteration of the loop, for the paragraph [para]. *)
Definition step (st : loopState) (para : jsstring) : loopState :=
  let potentialChunk :=
    match currentChunk st with
    | [] => para
    | _ :: _ => currentChunk st ++ blankLine ++ para
    end in
  if (MAX_CHUNK_SIZE <? len potentialChunk) && (0 <? len (currentChunk st))
  then
    let overlapText := sliceLast (Z.to_nat CHUNK_OVERLAP) (currentChunk st) in
    {| chunks := chunks st ++
         [ {| text := currentChunk st;
              index := arrayLength (chunks st);
              total := 0;
              start := chunkStartIndex st;
              end_ := chunkStartIndex st + len (currentChunk st) |} ];
       currentChunk :=
         overlapText ++ blankLine ++ para;
       chunkStartIndex :=
         chunkStartIndex st + (len (currentChunk st) - CHUNK_OVERLAP) |}
  else
    {| chunks := chunks st;
       currentChunk := potentialChunk;
       chunkStartIndex := chunkStartIndex st |}.

(** The chunk pushed after the loop when text remains. *)
Definition finalChunk (st : loopState) : list chunk :=
  if 0 <? len (currentChunk st)
  then [ {| text := currentChunk st;
            index := arrayLength (chunks st);
            total := 0;
            start := chunkStartIndex st;
            end_ := chunkStartIndex st + len (currentChunk st) |} ]
  else [].

(** [chunks.forEach(chunk => { chunk.total = totalChunks; })] *)
Definition setTotal (totalChunks : Z) (c : chunk) : chunk :=
  {| text := text c; index := index c; total := totalChunks;
     start := start c; end_ := end_ c |}.

Definition initialState : loopState :=
  {| chunks := []; currentChunk := []; chunkStartIndex := 0 |}.

Definition documentTooLong (n : Z) : jsstring :=
  lit "Document too long (" ++ numberToString n
  ++ lit " chars). Maximum supported: " ++ numberToString MAX_DOCUMENT_SIZE
  ++ lit " chars.".

Definition chunkContent (content : jsstring) : completion (list chunk) :=
  if (len content =? 0) || (len (trim content) =? 0) then Returned []
  else
    let trimmedContent := trim content in
    if MAX_DOCUMENT_SIZE <? len trimmedContent
    then Thrown (documentTooLong (len trimmedContent))
    else if len trimmedContent <=? MAX_CHUNK_SIZE
    then Returned [ {| text := trimmedContent; index := 0; total := 1;
                       start := 0; end_ := len trimmedContent |} ]
    else
      let paragraphs := splitIntoParagraphs trimmedContent in
      let st := fold_left step paragraphs initialState in
      let chunks := chunks st ++ finalChunk st in
      let totalChunks := arrayLength chunks in
      Returned (map (setTotal totalChunks) chunks).

(** [getChunkContext(chunk)] *)
Definition getChunkContext (c : chunk) : jsstring :=
  if total c =? 1 then []
  else lit "This is part " ++ numberToString (index c + 1) ++ lit " of "
       ++ numberToString (total c) ++ lit " of the document.".

(** The object [validateContentLength] returns; an absent property is
    [None]. *)
Record validation : Type := Validation {
  valid : bool;
  error : option jsstring;
  length_ : option Z
}.

Definition contentTooLong (n : Z) : jsstring :=
  lit "Content too long (" ++ numberToString n
  ++ lit " chars). Maximum: " ++ numberToString MAX_DOCUMENT_SIZE
  ++ lit " chars.".

Definition validateContentLength (content : jsstring) : validation :=
  if (len content =? 0) || (len (trim content) =? 0)
  then {| valid := false; error := Some (lit "No content to process");
          length_ := None |}
  else
    let length := len (trim content) in
    if MAX_DOCUMENT_SIZE <? length
    then {| valid := false; error := Some (contentTooLong length);
            length_ := Some length |}
    else {| valid := true; error := None; length_ := Some length |}.

End Chunker.

Import Chunker.

(** ** lib/features/key-points.js: the local fallback merge *)

Module KeyPoints.

Record keyPoint : Type := KeyPoint {
  point : jsstring;
  importance : jsstring;
  category : jsstring;
  chunkIndex : Z
}.

(** [importanceOrder[name]] for [{ high: 0, medium: 1, low: 2 }]; [None] is a
    value that is not a number ([undefined], or an inherited member such as
    [constructor]). *)
Definition importanceOrder (name : jsstring) : option Z :=
  if decide (name = lit "high") then Some 0
  else if decide (name = lit "medium") then Some 1
  else if decide (name = lit "low") then Some 2
  else None.

(** [(a, b) => importanceOrder[a.importance] - importanceOrder[b.importance]];
    a difference with a non-number operand is [NaN], which the sort reads as
    [+0]. *)
Definition compareImportance (a b : keyPoint) : Z :=
  match importanceOrder (importance a), importanceOrder (importance b) with
  | Some x, Some y => x - y
  | _, _ => 0
  end.

Section Fallback.
(** [String.prototype.toLowerCase], the host's Unicode lower-casing. *)
Variable toLowerCase : jsstring -> jsstring.

(** [kp.point.toLowerCase().trim()] *)
Definition normalized (kp : keyPoint) : jsstring :=
  trim (toLowerCase (point kp)).

(** The two collections the [for ... of] loop fills. *)
Record dedupState : Type := DedupState {
  uniquePoints : list keyPoint;
  seen : gset jsstring
}.

Definition visit (st : dedupState) (kp : keyPoint) : dedupState :=
  if decide (normalized kp ∈ seen st) then st
  else {| uniquePoints := uniquePoints st ++ [kp];
          seen := {[ normalized kp ]} ∪ seen st |}.

Definition deduplicateSimple (keyPoints : list keyPoint) : list keyPoint :=
  let st := fold_left visit keyPoints
              {| uniquePoints := []; seen := ∅ |} in
  take 10 (sort compareImportance (uniquePoints st)).

(** *** The merge as the specification words it *)

(** Keep the first occurrence per key. *)
Fixpoint keepFirstPerKey (l : list keyPoint) : list keyPoint :=
  match l with
  | [] => []
  | kp :: rest =>
      kp :: List.filter
              (fun other =>
                 negb (bool_decide (normalized other = normalized kp)))
              (keepFirstPerKey rest)
  end.

Definition hasImportance (name : string) (kp : keyPoint) : bool :=
  bool_decide (importance kp = lit name).

(** Stable sort by importance rank: the points of rank 0, then those of
    rank 1, then those of rank 2, each group in its original order. *)
Definition stableSortByRank (l : list keyPoint) : list keyPoint :=
  List.filter (hasImportance "high") l
  ++ List.filter (hasImportance "medium") l
  ++ List.filter (hasImportance "low") l.

Definition fallbackMergeSpec (keyPoints : list keyPoint) : list keyPoint :=
  take 10 (stableSortByRank (keepFirstPerKey keyPoints)).
End Fallback.

(** The importance values of the data model. *)
Definition validImportance (kp : keyPoint) : Prop :=
  importance kp = lit "high" \/ importance kp = lit "medium"
  \/ importance kp = lit "low".

(** ASCII lower-casing, the restriction of [toLowerCase] to ASCII text; used
    to run the merge on concrete lists. *)
Definition asciiLowerCase (s : jsstring) : jsstring :=
  map (fun c => if (65 <=? c)%N && (c <=? 90)%N then (c + 32)%N else c) s.

End KeyPoints.

(** ** Calls to the engines *)

Module Async.

(** The operations of [lib/ai-apis.js] the features await. *)
Inductive engineCall : Type :=
| DetectLanguage (text : jsstring)
| TranslateText (text targetLanguage sourceLanguage : jsstring)
| PromptAPI (userPrompt systemPrompt : jsstring)
| FastPromptAPI (userPrompt systemPrompt : jsstring).

(** How the promise of a call settles. *)
Inductive settled : Type :=
| Fulfilled (value : jsstring)
| Rejected (message : jsstring).

(** An [async] function body: it returns, throws an [Error] with a message,
    or awaits an engine call and goes on with what the call settles to. *)
Inductive async (A : Type) : Type :=
| Return (a : A)
| Throw (message : jsstring)
| Await (call : engineCall) (k : settled -> async A).
Arguments Return {A} a.
Arguments Throw {A} message.
Arguments Await {A} call k.

Fixpoint bind {A B : Type} (m : async A) (f : A -> async B) : async B :=
  match m with
  | Return a => f a
  | Throw e => Throw e
  | Await c k => Await c (fun r => bind (k r) f)
  end.

(** [try { m } catch (error) { handler(error.message) }] *)
Fixpoint tryCatch {A : Type} (m : async A) (handler : jsstring -> async A)
  : async A :=
  match m with
  | Return a => Return a
  | Throw e => handler e
  | Await c k => Await c (fun r => tryCatch (k r) handler)
  end.

(** [await call] *)
Definition await (call : engineCall) : async jsstring :=
  Await call (fun r =>
    match r with
    | Fulfilled v => Return v
    | Rejected e => Throw e
    end).

(** A synchronous call that may throw. *)
Definition liftCompletion {A : Type} (c : completion A) : async A :=
  match c with
  | Returned a => Return a
  | Thrown e => Throw e
  end.

Fixpoint mapAsync {A B : Type} (f : A -> async B) (l : list A)
  : async (list B) :=
  match l with
  | [] => Return []
  | a :: l' =>
      bind (f a) (fun b =>
        bind (mapAsync f l') (fun bs => Return (b :: bs)))
  end.

(** Running a body against an engine that answers the [n]-th call with
    [engine n call]: the outcome and the calls made, in order. *)
Fixpoint run {A : Type} (engine : nat -> engineCall -> settled)
    (n : nat) (m : async A) : completion A * list engineCall :=
  match m with
  | Return a => (Returned a, [])
  | Throw e => (Thrown e, [])
  | Await c k =>
      let (r, calls) := run engine (S n) (k (engine n c)) in
      (r, c :: calls)
  end.

End Async.

Import Async.

#[global] Instance async_ret : MRet async := fun A a => Return a.
#[global] Instance async_bind : MBind async := fun A B f m => bind m f.

(** ** lib/features/translator.js *)

Module Translator.

Record translationResult : Type := TranslationResult {
  translatedText : jsstring;
  sourceLanguage : jsstring;
  targetLanguage : jsstring;
  note : option jsstring;
  chunksProcessed : option Z
}.

(** An element of [translatedChunks]. *)
Record translatedChunk : Type := TranslatedChunk {
  tcIndex : Z;
  tcText : jsstring
}.

(** The [for ... of] loop: one awaited [translateText] per chunk, in order. *)
Definition translateChunks (target source : jsstring) (chunks : list chunk)
  : async (list translatedChunk) :=
  mapAsync (fun c =>
      translated ← await (TranslateText (text c) target source);
      mret {| tcIndex := index c; tcText := translated |})
    chunks.

(** [translateContent(content, targetLanguage, sourceLanguage)]; the source
    language is [None] when it is [null] or left out. *)
Definition translateContent (content target : jsstring)
    (source : option jsstring) : async translationResult :=
  let validation := validateContentLength content in
  if negb (valid validation) then Throw (default [] (error validation))
  else
    tryCatch
      (source ← match source with
                | Some (c :: l) => mret (c :: l)
                | _ => await (DetectLanguage content)
                end;
       if decide (source = target) then
         mret {| translatedText := content;
                 sourceLanguage := source;
                 targetLanguage := target;
                 note := Some (lit "Content is already in the target language");
                 chunksProcessed := None |}
       else
         chunks ← liftCompletion (chunkContent content);
         translatedChunks ← translateChunks target source chunks;
         let fullTranslation :=
           join blankLine
             (map tcText
                (sort (fun a b => tcIndex a - tcIndex b) translatedChunks)) in
         mret {| translatedText := fullTranslation;
                 sourceLanguage := source;
                 targetLanguage := target;
                 note := None;
                 chunksProcessed := Some (arrayLength chunks) |})
      (fun message => Throw (lit "Translation failed: " ++ message)).

End Translator.

(** ** lib/features/qa.js *)

Module QA.

(** What [assessChunkRelevance] returns. *)
Record relevance : Type := Relevance {
  score : Z;
  reasoning : jsstring
}.

(** An element of [chunkRelevance]. *)
Record scoredChunk : Type := ScoredChunk {
  scChunk : chunk;
  scScore : Z;
  scReasoning : jsstring
}.

(** [createJSONSystemPrompt()] and [createJSONInstructionFooter()] of
    [lib/utils.js]. *)
Definition createJSONSystemPrompt : jsstring :=
  lit "You are a JSON generator. You MUST respond ONLY with valid JSON. Do not include any conversational text, explanations, or markdown formatting.".

Definition createJSONInstructionFooter : jsstring :=
  LF ++ LF ++ lit "Return ONLY the JSON (no other text), nothing else.".

(** The pattern [/\s+/] tried at the head of [s]. *)
Definition whiteSpaceRun (s : jsstring) : option nat :=
  match runLength isWhiteSpace s with
  | O => None
  | n => Some n
  end.

Section Feature.
(** [String.prototype.toLowerCase]. *)
Variable toLowerCase : jsstring -> jsstring.
(** [parseJSONResponse(response, 'object')] followed by the reads
    [result.score || 0] and [result.reasoning || '']: [None] when
    [JSON.parse] or a read throws; the score is the integer the prompt asks
    for. *)
Variable parseRelevance : jsstring -> option relevance.

Definition answerSystemPrompt : jsstring :=
  lit "You are analyzing a terms of service or privacy policy document. Answer the user's question based ONLY on the provided document content."
  ++ LF ++ LF ++ lit "Rules:"
  ++ LF ++ lit "- If the answer is in the document, provide a clear, concise answer"
  ++ LF ++ lit "- Quote relevant sections when helpful"
  ++ LF ++ lit "- If the information is not in the document, say " ++ DQ
  ++ lit "This information is not found in the document" ++ DQ
  ++ LF ++ lit "- Be honest if you're uncertain"
  ++ LF ++ lit "- Keep answers focused and relevant"
  ++ LF ++ LF ++ lit "Answer the question clearly and helpfully.".

Definition answerFromChunk (text question : jsstring) : async jsstring :=
  let userPrompt :=
    lit "Document:" ++ LF ++ LF ++ text ++ LF ++ LF ++ lit "---" ++ LF ++ LF
    ++ lit "Question: " ++ question in
  await (PromptAPI userPrompt answerSystemPrompt).

Definition keywordMatchScore (question text : jsstring) : relevance :=
  let keywords :=
    List.filter (fun w => 3 <? len w)
      (split whiteSpaceRun (toLowerCase question)) in
  let matches :=
    arrayLength
      (List.filter (fun kw => includes (toLowerCase text) kw) keywords) in
  {| score := Z.min 10 (matches * 2);
     reasoning := lit "Keyword matching fallback" |}.

Definition assessChunkRelevance (c : chunk) (question : jsstring)
  : async relevance :=
  let userPrompt :=
    lit "Rate relevance (0-10) of this chunk for answering the question."
    ++ LF ++ LF ++ lit "Return JSON: {" ++ DQ ++ lit "score" ++ DQ
    ++ lit ": 7, " ++ DQ ++ lit "reasoning" ++ DQ ++ lit ": " ++ DQ
    ++ lit "brief explanation" ++ DQ ++ lit "}"
    ++ LF ++ LF
    ++ lit "Score: 0-3: Not relevant, 4-6: Somewhat relevant, 7-10: Highly relevant"
    ++ createJSONInstructionFooter
    ++ LF ++ LF ++ lit "Question: " ++ question
    ++ LF ++ LF ++ lit "Chunk (Part " ++ numberToString (index c + 1)
    ++ lit " of " ++ numberToString (total c) ++ lit "):"
    ++ LF ++ substring0 1000 (text c) ++ lit "..." in
  tryCatch
    (response ← await (FastPromptAPI userPrompt createJSONSystemPrompt);
     match parseRelevance response with
     | Some result => mret result
     | None => Throw (lit "Unexpected token")
     end)
    (fun _ => mret (keywordMatchScore question (text c))).

(** The relevance calls are issued in chunk order and [Promise.all] hands
    their results back in that order. *)
Definition findRelevantChunks (chunks : list chunk) (question : jsstring)
  : async (list chunk) :=
  chunkRelevance ←
    mapAsync (fun c =>
        relevance ← assessChunkRelevance c question;
        mret {| scChunk := c; scScore := score relevance;
                scReasoning := reasoning relevance |})
      chunks;
  let sorted := sort (fun a b => scScore b - scScore a) chunkRelevance in
  let topChunks := List.filter (fun cr => 0 <? scScore cr) (take 3 sorted) in
  mret (map scChunk topChunks).

Definition answerFromMultipleChunks (chunks : list chunk)
    (question : jsstring) : async jsstring :=
  relevantChunks ← findRelevantChunks chunks question;
  if arrayLength relevantChunks =? 0 then
    mret (lit "I couldn't find relevant information in the document to answer this question.")
  else
    let combinedContext :=
      join (LF ++ LF ++ lit "---" ++ LF ++ LF)
        (map (fun rc => lit "[Part " ++ numberToString (index rc + 1)
                        ++ lit "]" ++ LF ++ text rc)
             relevantChunks) in
    answerFromChunk combinedContext question.

Definition answerQuestion (content question : jsstring) : async jsstring :=
  if (len question =? 0) || (len (trim question) =? 0)
  then Throw (lit "Please provide a question")
  else
    let validation := validateContentLength content in
    if negb (valid validation) then Throw (default [] (error validation))
    else
      tryCatch
        (chunks ← liftCompletion (chunkContent content);
         match chunks with
         | [c] => answerFromChunk (text c) question
         | _ => answerFromMultipleChunks chunks question
         end)
        (fun message => Throw (lit "Q&A failed: " ++ message)).
End Feature.

End QA.

Import KeyPoints Translator QA.

(** ** Vocabulary of the statements *)

(** The indices of the chunks pushed so far count up from 0. *)
Definition indexed (cs : list chunk) : Prop :=
  map index cs = map Z.of_nat (seq 0 (length cs)).

(** While every paragraph fits, the running chunk holds at most an overlap,
    a separator and one paragraph, and at most a full chunk while nothing
    has been pushed. *)
Definition sizeInvariant (st : loopState) : Prop :=
  Forall (fun c => len (text c) <= MAX_CHUNK_SIZE + CHUNK_OVERLAP + 2)
    (chunks st)
  /\ len (currentChunk st) <= MAX_CHUNK_SIZE + CHUNK_OVERLAP + 2
  /\ (chunks st = [] -> len (currentChunk st) <= MAX_CHUNK_SIZE)
  /\ (forall c, head (chunks st) = Some c -> len (text c) <= MAX_CHUNK_SIZE).

(** The chunk object both [push] calls of [chunkContent] build from the loop
    variables. *)
Definition pending (st : loopState) : chunk :=
  {| text := currentChunk st;
     index := arrayLength (chunks st);
     total := 0;
     start := chunkStartIndex st;
     end_ := chunkStartIndex st + len (currentChunk st) |}.

(** How a chunk sits after the one before it: it starts one overlap before
    the other ends, it ends later, and it has a full overlap of text when the
    other has. *)
Definition follows (c c' : chunk) : Prop :=
  start c' = end_ c - CHUNK_OVERLAP
  /\ end_ c < end_ c'
  /\ (CHUNK_OVERLAP <= len (text c) -> CHUNK_OVERLAP <= len (text c')).

Fixpoint linked (cs : list chunk) : Prop :=
  match cs with
  | [] => True
  | c :: rest =>
      match rest with
      | [] => True
      | c' :: _ => follows c c'
      end /\ linked rest
  end.

(** [end - start] is the length of the text. *)
Definition spansText (c : chunk) : Prop := end_ c - start c = len (text c).

(** Every offset of [0, n) lies in the range of some chunk. *)
Definition covers (cs : list chunk) (n : Z) : Prop :=
  forall x, 0 <= x < n -> exists c, In c cs /\ start c <= x < end_ c.

Definition startsNonDecreasing (cs : list chunk) : Prop :=
  forall (i j : nat) ci cj,
    (i <= j)%nat -> cs !! i = Some ci -> cs !! j = Some cj ->
    start ci <= start cj.

Definition rangeInvariant (st : loopState) : Prop :=
  linked (chunks st ++ [pending st])
  /\ Forall spansText (chunks st ++ [pending st])
  /\ (forall c, head (chunks st ++ [pending st]) = Some c -> start c = 0).

(** The length of the paragraphs with a two-unit separator after each. *)
Fixpoint paddedLength (ps : list jsstring) : Z :=
  match ps with
  | [] => 0
  | p :: ps' => len p + 2 + paddedLength ps'
  end.

(** No two points of the list have the same normalized text. *)
Fixpoint distinctKeys (key : keyPoint -> jsstring) (l : list keyPoint)
  : Prop :=
  match l with
  | [] => True
  | kp :: rest =>
      Forall (fun other => key other <> key kp) rest /\ distinctKeys key rest
  end.

(** Each element compares at or below its successor. *)
Definition ascending {A : Type} (cmp : A -> A -> Z) (l : list A) : Prop :=
  Sorted (fun a b => cmp a b <= 0) l.

(** ** Sample inputs *)

(** [n] copies of the code unit [c]. *)
Definition repeated (c : N) (n : positive) : jsstring := Pos.iter (cons c) [] n.

(** A document of 50,001 letters. *)
Definition oversizedDocument : jsstring := repeated 97 50001.

(** Two paragraphs of 3,000 and 3,500 letters with one blank line between
    them. *)
Definition twoParagraphs : jsstring :=
  repeated 97 3000 ++ blankLine ++ repeated 98 3500.

(** Two paragraphs of 3,000 letters with three blank lines between them. *)
Definition spacedParagraphs : jsstring :=
  repeated 97 3000 ++ blankLine ++ blankLine ++ repeated 98 3000.

(** A paragraph of 10 letters, then one of 3,500. *)
Definition shortFirstParagraph : jsstring :=
  repeated 97 10 ++ blankLine ++ repeated 98 3500.

(** Two paragraphs of 3,000 letters with one blank line between them. *)
Definition forcedSplit : jsstring :=
  repeated 97 3000 ++ blankLine ++ repeated 98 3000.

(** An engine that answers every call with the text [ok]. *)
Definition agreeableEngine (n : nat) (call : engineCall) : settled :=
  Fulfilled (lit "ok").

(** The summary of a chunk: text length, index, total, start, end. *)
Definition summary (c : chunk) : Z * Z * Z * Z * Z :=
  (len (text c), index c, total c, start c, end_ c).

Definition summaries (r : completion (list chunk))
  : list (Z * Z * Z * Z * Z) :=
  match r with
  | Returned cs => map summary cs
  | Thrown _ => []
  end.

(** Five key points: a repeated text (up to case and blanks) and the three
    importance values out of order. *)
Definition sampleKeyPoints : list keyPoint :=
  [ {| point := lit "Data is sold"; importance := lit "low";
       category := lit "data"; chunkIndex := 0 |};
    {| point := lit "No refunds"; importance := lit "high";
       category := lit "financial"; chunkIndex := 0 |};
    {| point := lit "  DATA IS SOLD "; importance := lit "high";
       category := lit "privacy"; chunkIndex := 1 |};
    {| point := lit "Arbitration"; importance := lit "medium";
       category := lit "legal"; chunkIndex := 1 |};
    {| point := lit "Auto renewal"; importance := lit "high";
       category := lit "financial"; chunkIndex := 2 |} ].

(** ** lib/features/summarizer.js: merging the chunk summaries *)

Module Summarizer.

(** The options [summarizeContent] passes on. *)
Record summaryOptions : Type := SummaryOptions {
  type : jsstring;
  format : jsstring;
  length_ : jsstring
}.

(** An element of [chunkSummaries]. *)
Record chunkSummary : Type := ChunkSummary {
  index : Z;
  summary : jsstring
}.

Definition mergeSystemPrompt (options : summaryOptions) : jsstring :=
  lit "You are summarizing a terms of service or privacy policy document. You will receive summaries from different parts of the document. Your task is to merge them into one coherent, well-organized "
  ++ length_ options ++ lit " summary in " ++ format options
  ++ lit " format."
  ++ LF ++ LF ++ lit "Rules:"
  ++ LF ++ lit "- Remove duplicate information"
  ++ LF ++ lit "- Organize logically (don't just concatenate)"
  ++ LF ++ lit "- Maintain the most important points from all parts"
  ++ LF ++ lit "- Use " ++ format options ++ lit " formatting"
  ++ LF ++ lit "- Keep the " ++ length_ options ++ lit " length constraint"
  ++ LF ++ LF
  ++ lit "Respond **ONLY** with the merged summary, nothing else.".

Definition combinedSummaries (chunkSummaries : list chunkSummary)
  : jsstring :=
  join (LF ++ LF ++ lit "---" ++ LF ++ LF)
    (map (fun cs => lit "Part " ++ numberToString (index cs + 1)
                    ++ lit ":" ++ LF ++ summary cs)
       chunkSummaries).

(** [mergeSummaries(chunkSummaries, options)] *)
Definition mergeSummaries (chunkSummaries : list chunkSummary)
    (options : summaryOptions) : async jsstring :=
  tryCatch
    (await (PromptAPI (combinedSummaries chunkSummaries)
              (mergeSystemPrompt options)))
    (fun _ => mret (join (LF ++ LF) (map summary chunkSummaries))).

End Summarizer.

(** ** lib/features/qa.js: the suggested questions *)

Module Suggestions.

Section Decoder.
(** A parsed JSON value, and [parseJSONResponse(response, 'array')]: the
    value it returns, [None] when it throws. *)
Variable json : Type.
Variable parseJSONResponse : jsstring -> option json.

(** What [getSuggestedQuestions] returns: the parsed answer of the model or
    the fixed list. *)
Inductive suggestions : Type :=
| FromModel (value : json)
| Fallback (questions : list jsstring).

Definition fallbackQuestions : list jsstring :=
  [ lit "What personal data is collected?";
    lit "How is my data shared with third parties?";
    lit "Can I delete my account and data?";
    lit "What are my privacy rights?";
    lit "Are there any important restrictions I should know about?" ].

Definition suggestionPrompt (content : jsstring) : jsstring :=
  let preview := substring0 2000 content in
  lit "Generate 5 helpful questions users commonly want to know about this terms/privacy document."
  ++ LF ++ LF
  ++ lit "Focus on: data collection, data usage, account deletion, privacy rights, concerning clauses."
  ++ LF ++ LF
  ++ lit "Return JSON array: [" ++ DQ ++ lit "Question 1?" ++ DQ ++ lit ", "
  ++ DQ ++ lit "Question 2?" ++ DQ ++ lit ", "
  ++ DQ ++ lit "Question 3?" ++ DQ ++ lit ", "
  ++ DQ ++ lit "Question 4?" ++ DQ ++ lit ", "
  ++ DQ ++ lit "Question 5?" ++ DQ ++ lit "]"
  ++ createJSONInstructionFooter
  ++ LF ++ LF ++ lit "Document preview:" ++ LF ++ preview.

(** [getSuggestedQuestions(content)] *)
Definition getSuggestedQuestions (content : jsstring) : async suggestions :=
  tryCatch
    (response ← await (FastPromptAPI (suggestionPrompt content)
                         createJSONSystemPrompt);
     match parseJSONResponse response with
     | Some value => mret (FromModel value)
     | None => Throw (lit "Unexpected token")
     end)
    (fun _ => mret (Fallback fallbackQuestions)).
End Decoder.

End Suggestions.

(** ** lib/features/key-points.js: the merge of the key points *)

Module KeyPointsMerge.

Section Decoder.
Variable toLowerCase : jsstring -> jsstring.
(** A parsed JSON value, and [parseJSONResponse(response, 'array')]: the
    value it returns, [None] when it throws. *)
Variable json : Type.
Variable parseJSONResponse : jsstring -> option json.

(** What [deduplicateAndRankKeyPoints] returns: the parsed answer of the
    model, or a list of the key points it was given. *)
Inductive merged : Type :=
| FromModel (value : json)
| Points (keyPoints : list keyPoint).

(** One line of [pointsText]. *)
Definition pointLine (idx : nat) (kp : keyPoint) : jsstring :=
  numberToString (Z.of_nat idx + 1) ++ lit ". [" ++ importance kp
  ++ lit "] [" ++ category kp ++ lit "] " ++ point kp.

Definition mergePrompt (keyPoints : list keyPoint) : jsstring :=
  let pointsText := join LF (imap pointLine keyPoints) in
  lit "Deduplicate, merge related points, and keep TOP 10 most important."
  ++ LF ++ LF ++ lit "Return JSON array:"
  ++ LF ++ lit "[{" ++ DQ ++ lit "point" ++ DQ ++ lit ": " ++ DQ
  ++ lit "description" ++ DQ ++ lit ", " ++ DQ ++ lit "importance" ++ DQ
  ++ lit ": " ++ DQ ++ lit "high" ++ DQ ++ lit ", " ++ DQ ++ lit "category"
  ++ DQ ++ lit ": " ++ DQ ++ lit "privacy" ++ DQ ++ lit "}]"
  ++ LF ++ LF ++ lit "Valid importance: " ++ DQ ++ lit "high" ++ DQ
  ++ lit ", " ++ DQ ++ lit "medium" ++ DQ ++ lit ", " ++ DQ ++ lit "low" ++ DQ
  ++ LF ++ lit "Valid category: " ++ DQ ++ lit "privacy" ++ DQ ++ lit ", "
  ++ DQ ++ lit "data" ++ DQ ++ lit ", " ++ DQ ++ lit "rights" ++ DQ
  ++ lit ", " ++ DQ ++ lit "legal" ++ DQ ++ lit ", " ++ DQ
  ++ lit "financial" ++ DQ ++ lit ", " ++ DQ ++ lit "other" ++ DQ
  ++ createJSONInstructionFooter
  ++ LF ++ LF ++ lit "Points:" ++ LF ++ pointsText.

(** [deduplicateAndRankKeyPoints(keyPoints)], on key points that are objects
    whose [point], [importance] and [category] are strings, as the [keyPoint]
    record has them.  The source takes the array as the model's answer gave
    it: an element whose [point] is no string makes the fallback in its
    [catch] block throw, and an importance besides high, medium and low
    leaves the order of its [sort] to the engine.  Both lie outside this
    definition and outside what is proved of it. *)
Definition deduplicateAndRankKeyPoints (keyPoints : list keyPoint)
  : async merged :=
  if arrayLength keyPoints =? 0 then mret (Points [])
  else
    tryCatch
      (response ← await (FastPromptAPI (mergePrompt keyPoints)
                           createJSONSystemPrompt);
       match parseJSONResponse response with
       | Some value => mret (FromModel value)
       | None => Throw (lit "Unexpected token")
       end)
      (fun _ => mret (Points (deduplicateSimple toLowerCase keyPoints))).
End Decoder.

End KeyPointsMerge.

(** ** Vocabulary of the further properties *)

(** No paragraph break starts anywhere inside [p]. *)
Definition noBreakInside (p : jsstring) : Prop :=
  forall i : nat, paragraphBreak (drop i p) = None.

(** A string with no white space at either end. *)
Definition trimmed (s : jsstring) : Prop :=
  (forall c, head s = Some c -> isWhiteSpace c = false)
  /\ (forall c, last s = Some c -> isWhiteSpace c = false).

(** The text of [c'] opens with the overlap taken from [c] and the
    separator. *)
Definition overlapsPrevious (c c' : chunk) : Prop :=
  exists rest,
    text c' =
      sliceLast (Z.to_nat CHUNK_OVERLAP) (text c) ++ blankLine ++ rest.

(** [p] occurs in [s]. *)
Definition occursIn (p s : jsstring) : Prop :=
  exists before after, s = before ++ p ++ after.

(** The chunks pushed so far and the running chunk, as the batch they would
    make. *)
Definition batchSoFar (st : loopState) : list chunk :=
  chunks st ++ [pending st].

(** What the text of a first chunk can be: at most a full chunk, or one
    paragraph as it stands. *)
Definition oneParagraph (paragraphs : list jsstring) (c : chunk) : Prop :=
  len (text c) <= MAX_CHUNK_SIZE \/ In (text c) paragraphs.

(** What the text of a chunk [c'] that comes after [c] can be: at most a full
    chunk, or the overlap taken from [c], the separator and one paragraph. *)
Definition oneParagraphAfter (paragraphs : list jsstring) (c c' : chunk)
  : Prop :=
  len (text c') <= MAX_CHUNK_SIZE
  \/ exists p,
       In p paragraphs
       /\ text c' =
            sliceLast (Z.to_nat CHUNK_OVERLAP) (text c) ++ blankLine ++ p.

(** The loop keeps every chunk, the running one included, in one of these
    shapes; the running chunk is empty only before the first paragraph. *)
Definition shapeInvariant (paragraphs : list jsstring) (st : loopState)
  : Prop :=
  Sorted (oneParagraphAfter paragraphs) (batchSoFar st)
  /\ (forall c, head (batchSoFar st) = Some c -> oneParagraph paragraphs c)
  /\ (currentChunk st = [] -> chunks st = []).

(** A chunk that comes after another holds at least an overlap and a
    separator. *)
Definition laterChunk (c c' : chunk) : Prop :=
  CHUNK_OVERLAP + len blankLine <= len (text c').

(** The first chunk hands a full overlap of 200 code units to the chunk after
    it, when there is one. *)
Definition fullOverlap (cs : list chunk) : Prop :=
  forall c c',
    cs !! 0%nat = Some c -> cs !! 1%nat = Some c' ->
    CHUNK_OVERLAP <= len (text c).

(** After the paragraphs [processed]: the running chunk is empty only before
    the first of them, every later chunk has its overlap and separator, and,
    when the first pushed chunk had a full overlap to give, the running chunk
    ends at the length of [processed] joined by blank lines. *)
Definition endInvariant (processed : list jsstring) (st : loopState) : Prop :=
  ((processed = [] /\ st = initialState)
   \/ (processed <> [] /\ currentChunk st <> []))
  /\ Sorted laterChunk (batchSoFar st)
  /\ ((forall c, head (chunks st) = Some c -> CHUNK_OVERLAP <= len (text c))
      -> end_ (pending st) = len (join blankLine processed)).

(** A document of 4,000 letters in one paragraph. *)
Definition longParagraph : jsstring := repeated 97 4000.

(** The step of [translateContent] that settles the source language: the
    argument when it is a non-empty string, else the detector's answer. *)
Definition sourceStep (content : jsstring) (source : option jsstring)
  : async jsstring :=
  match source with
  | Some (c :: l) => mret (c :: l)
  | _ => await (DetectLanguage content)
  end.

(** What [translateContent] returns after translating [chunks] with the
    translations [translations], in chunk order. *)
Definition translated (target source : jsstring) (chunks : list chunk)
    (translations : list jsstring) : translationResult :=
  {| translatedText := join blankLine translations;
     sourceLanguage := source;
     targetLanguage := target;
     note := None;
     chunksProcessed := Some (arrayLength chunks) |}.

(** What [translateContent] returns when nothing has to be translated. *)
Definition untranslated (content language : jsstring) : translationResult :=
  {| translatedText := content;
     sourceLanguage := language;
     targetLanguage := language;
     note := Some (lit "Content is already in the target language");
     chunksProcessed := None |}.

(** An engine whose second call fails and whose other calls answer [ok]. *)
Definition secondCallFails (n : nat) (call : engineCall) : settled :=
  match n with
  | 1%nat => Rejected (lit "quota")
  | _ => Fulfilled (lit "ok")
  end.

(** An engine that detects French and answers every other call with
    [ok]. *)
Definition frenchDetector (n : nat) (call : engineCall) : settled :=
  match call with
  | DetectLanguage _ => Fulfilled (lit "fr")
  | _ => Fulfilled (lit "ok")
  end.

(** The user prompt [answerFromChunk] builds. *)
Definition answerUserPrompt (text question : jsstring) : jsstring :=
  lit "Document:" ++ LF ++ LF ++ text ++ LF ++ LF ++ lit "---" ++ LF ++ LF
  ++ lit "Question: " ++ question.

(** The words of a question that [keywordMatchScore] looks for. *)
Definition keywords (toLowerCase : jsstring -> jsstring)
    (question : jsstring) : list jsstring :=
  List.filter (fun w => 3 <? len w)
    (split whiteSpaceRun (toLowerCase question)).

(** The user prompt [assessChunkRelevance] builds. *)
Definition relevancePrompt (c : chunk) (question : jsstring) : jsstring :=
  lit "Rate relevance (0-10) of this chunk for answering the question."
  ++ LF ++ LF ++ lit "Return JSON: {" ++ DQ ++ lit "score" ++ DQ
  ++ lit ": 7, " ++ DQ ++ lit "reasoning" ++ DQ ++ lit ": " ++ DQ
  ++ lit "brief explanation" ++ DQ ++ lit "}"
  ++ LF ++ LF
  ++ lit "Score: 0-3: Not relevant, 4-6: Somewhat relevant, 7-10: Highly relevant"
  ++ createJSONInstructionFooter
  ++ LF ++ LF ++ lit "Question: " ++ question
  ++ LF ++ LF ++ lit "Chunk (Part " ++ numberToString (index c + 1)
  ++ lit " of " ++ numberToString (total c) ++ lit "):"
  ++ LF ++ substring0 1000 (text c) ++ lit "...".

(** The relevance [assessChunkRelevance] settles on, given how the call
    settled. *)
Definition assessed (toLowerCase : jsstring -> jsstring)
    (parseRelevance : jsstring -> option relevance)
    (c : chunk) (question : jsstring) (outcome : settled) : relevance :=
  match outcome with
  | Fulfilled response =>
      match parseRelevance response with
      | Some result => result
      | None => keywordMatchScore toLowerCase question (text c)
      end
  | Rejected _ => keywordMatchScore toLowerCase question (text c)
  end.


(** An engine on which every call fails. *)
Definition brokenEngine (n : nat) (call : engineCall) : settled :=
  Rejected (lit "unavailable").

(** * Properties *)

(** ** Strings *)

Lemma len_nonneg (s : jsstring) : 0 <= len s.
Proof. unfold len. lia. Qed.

Lemma len_app (s t : jsstring) : len (s ++ t) = len s + len t.
Proof. unfold len. rewrite length_app. lia. Qed.

Lemma len_zero_nil (s : jsstring) : len s = 0 -> s = [].
Proof. destruct s; [reflexivity | unfold len; simpl; lia]. Qed.

Lemma trimStart_whitespace (s : jsstring) :
  Forall (fun c => isWhiteSpace c = true) s -> trimStart s = [].
Proof.
  induction 1 as [| c s Hc _ IH]; simpl; [reflexivity |].
  rewrite Hc. exact IH.
Qed.

Lemma trim_whitespace (s : jsstring) :
  Forall (fun c => isWhiteSpace c = true) s -> trim s = [].
Proof.
  intros H. unfold trim. rewrite (trimStart_whitespace s H). reflexivity.
Qed.

Lemma trimStart_length (s : jsstring) : (length (trimStart s) <= length s)%nat.
Proof.
  induction s as [| c s IH]; simpl; [lia |].
  destruct (isWhiteSpace c); simpl; lia.
Qed.

Lemma trim_length (s : jsstring) : len (trim s) <= len s.
Proof.
  unfold trim, trimEnd, len. rewrite length_reverse.
  pose proof (trimStart_length (reverse (trimStart s))) as H1.
  rewrite length_reverse in H1.
  pose proof (trimStart_length s). lia.
Qed.

(** ** The chunker: guards and the single-chunk path *)

Lemma blank_guard (content : jsstring) :
  (len content =? 0) || (len (trim content) =? 0) = (len (trim content) =? 0).
Proof.
  destruct (len content =? 0) eqn:E; [| reflexivity].
  apply Z.eqb_eq, len_zero_nil in E. subst content. reflexivity.
Qed.

(** C1 (as amended).  A document whose trimmed length is between 1 and 3,500
    code units comes back as exactly one chunk: its text is the trimmed
    document, [index = 0], [total = 1], [start = 0] and [end] is the trimmed
    length. *)
Theorem chunkContent_single_chunk (D : jsstring) :
  0 < len (trim D) <= MAX_CHUNK_SIZE ->
  chunkContent D =
    Returned [ {| text := trim D; index := 0; total := 1;
                  start := 0; end_ := len (trim D) |} ].
Proof.
  intros [Hpos Hmax]. unfold chunkContent. rewrite blank_guard.
  destruct (len (trim D) =? 0) eqn:E0; [apply Z.eqb_eq in E0; lia |].
  unfold MAX_CHUNK_SIZE, MAX_DOCUMENT_SIZE in *.
  destruct (50000 <? len (trim D)) eqn:E1; [apply Z.ltb_lt in E1; lia |].
  destruct (len (trim D) <=? 3500) eqn:E2; [reflexivity |].
  apply Z.leb_gt in E2. lia.
Qed.

Lemma chunkContent_single_chunk_witness :
  chunkContent (lit "  We may share your data.  ") =
    Returned [ {| text := lit "We may share your data."; index := 0;
                  total := 1; start := 0; end_ := 23 |} ].
Proof.
  apply (chunkContent_single_chunk (lit "  We may share your data.  ")).
  vm_compute. split; [reflexivity | discriminate].
Defined.

(** C1 as stated fails on a document of blanks: its trimmed length, 0, is at
    most 3,500, and the chunker returns no chunk at all. *)
Lemma chunkContent_single_chunk_counterexample :
  ~ (len (trim (lit "   ")) <= 3500 ->
     chunkContent (lit "   ") =
       Returned [ {| text := trim (lit "   "); index := 0; total := 1;
                     start := 0; end_ := len (trim (lit "   ")) |} ]).
Proof.
  intros H.
  assert (Hle : len (trim (lit "   ")) <= 3500) by (vm_compute; discriminate).
  specialize (H Hle). vm_compute in H. discriminate H.
Qed.

(** C2.  A document whose trimmed length exceeds 50,000 is refused by both
    entry points: [chunkContent] throws and [validateContentLength] answers
    [valid: false], and both messages carry the measured trimmed length and
    the limit 50000 (the validation result carries the length as a field
    too). *)
Theorem oversized_rejected (D : jsstring) :
  MAX_DOCUMENT_SIZE < len (trim D) ->
  chunkContent D =
    Thrown (lit "Document too long (" ++ numberToString (len (trim D))
            ++ lit " chars). Maximum supported: " ++ lit "50000"
            ++ lit " chars.")
  /\ validateContentLength D =
       {| valid := false;
          error := Some (lit "Content too long ("
                         ++ numberToString (len (trim D))
                         ++ lit " chars). Maximum: " ++ lit "50000"
                         ++ lit " chars.");
          length_ := Some (len (trim D)) |}.
Proof.
  intros Hbig. unfold chunkContent, validateContentLength.
  rewrite blank_guard. unfold MAX_DOCUMENT_SIZE in *.
  destruct (len (trim D) =? 0) eqn:E0; [apply Z.eqb_eq in E0; lia |].
  destruct (50000 <? len (trim D)) eqn:E1; [| apply Z.ltb_ge in E1; lia].
  split; reflexivity.
Qed.

Lemma oversized_rejected_witness :
  MAX_DOCUMENT_SIZE < len (trim oversizedDocument)
  /\ chunkContent oversizedDocument =
       Thrown (lit "Document too long ("
               ++ numberToString (len (trim oversizedDocument))
               ++ lit " chars). Maximum supported: " ++ lit "50000"
               ++ lit " chars.")
  /\ valid (validateContentLength oversizedDocument) = false.
Proof.
  assert (H : MAX_DOCUMENT_SIZE < len (trim oversizedDocument))
    by (vm_compute; reflexivity).
  destruct (oversized_rejected oversizedDocument H) as [Hc Hv].
  split; [exact H |]. split; [exact Hc |]. rewrite Hv. reflexivity.
Defined.

(** C10.  An input that is empty, or blank after trimming, yields the empty
    sequence of chunks (no exception, no single chunk), and the validation
    reports it invalid with the message [No content to process]. *)
Theorem blank_input (D : jsstring) :
  D = [] \/ len (trim D) = 0 ->
  chunkContent D = Returned []
  /\ validateContentLength D =
       {| valid := false; error := Some (lit "No content to process");
          length_ := None |}.
Proof.
  intros H.
  assert (E : (len (trim D) =? 0) = true).
  { apply Z.eqb_eq. destruct H as [-> | H]; [reflexivity | exact H]. }
  unfold chunkContent, validateContentLength.
  rewrite blank_guard, E. split; reflexivity.
Qed.

Lemma blank_input_witness :
  chunkContent (LF ++ lit "   " ++ LF) = Returned []
  /\ validateContentLength (LF ++ lit "   " ++ LF) =
       {| valid := false; error := Some (lit "No content to process");
          length_ := None |}.
Proof.
  apply (blank_input (LF ++ lit "   " ++ LF)).
  right. vm_compute. reflexivity.
Defined.

(** ** Entry guards of the features *)

(** C9.  For a question that is empty or made of white space only,
    [answerQuestion] throws its input error at once, whatever the document
    is: the body is the bare [Throw], so no validation result or chunk is
    consulted and no engine call is awaited. *)
Theorem answerQuestion_blank_question
    (toLowerCase : jsstring -> jsstring)
    (parseRelevance : jsstring -> option relevance)
    (document question : jsstring) :
  question = [] \/ Forall (fun c => isWhiteSpace c = true) question ->
  answerQuestion toLowerCase parseRelevance document question =
    Throw (lit "Please provide a question")
  /\ forall engine n,
       run engine n
         (answerQuestion toLowerCase parseRelevance document question) =
       (Thrown (lit "Please provide a question"), []).
Proof.
  intros H.
  assert (E : trim question = []).
  { destruct H as [-> | H]; [reflexivity | apply trim_whitespace, H]. }
  assert (Eq : answerQuestion toLowerCase parseRelevance document question =
               Throw (lit "Please provide a question")).
  { unfold answerQuestion. rewrite blank_guard, E. reflexivity. }
  split; [exact Eq |]. intros engine n. rewrite Eq. reflexivity.
Qed.

Lemma answerQuestion_blank_question_witness :
  answerQuestion asciiLowerCase (fun _ => None) oversizedDocument
    (lit "  " ++ LF) =
    Throw (lit "Please provide a question").
Proof.
  apply (answerQuestion_blank_question asciiLowerCase (fun _ => None)
           oversizedDocument (lit "  " ++ LF)).
  right. repeat constructor.
Defined.

(** *** Runs of an [async] body *)

Lemma run_bind {A B : Type} (engine : nat -> engineCall -> settled)
    (m : async A) (f : A -> async B) :
  forall n,
    run engine n (bind m f) =
      match run engine n m with
      | (Returned a, calls) =>
          let (r, calls') := run engine (n + length calls) (f a) in
          (r, calls ++ calls')
      | (Thrown e, calls) => (Thrown e, calls)
      end.
Proof.
  induction m as [a | e | c k IH]; intros n; cbn [bind run].
  - cbn [length app]. rewrite Nat.add_0_r.
    destruct (run engine n (f a)); reflexivity.
  - reflexivity.
  - rewrite IH.
    destruct (run engine (S n) (k (engine n c))) as [[a | e] calls];
      [| reflexivity].
    cbn [length]. replace (n + S (length calls))%nat
      with (S n + length calls)%nat by lia.
    destruct (run engine (S n + length calls) (f a)); reflexivity.
Qed.

Lemma run_bind_returned {A B : Type} (engine : nat -> engineCall -> settled)
    (m : async A) (f : A -> async B) (n : nat) (b : B)
    (calls : list engineCall) :
  run engine n (bind m f) = (Returned b, calls) ->
  exists a calls1 calls2,
    run engine n m = (Returned a, calls1)
    /\ run engine (n + length calls1) (f a) = (Returned b, calls2)
    /\ calls = calls1 ++ calls2.
Proof.
  rewrite run_bind.
  destruct (run engine n m) as [[a | e] calls1]; [| discriminate].
  destruct (run engine (n + length calls1) (f a)) as [r calls2] eqn:E.
  intros H. injection H as -> <-. exists a, calls1, calls2. auto.
Qed.

(** A handler that rethrows lets through only what the body returned. *)
Lemma run_tryCatch_rethrow {A : Type} (engine : nat -> engineCall -> settled)
    (m : async A) (wrap : jsstring -> jsstring) (a : A) :
  forall n calls,
    run engine n (tryCatch m (fun e => Throw (wrap e))) = (Returned a, calls) ->
    run engine n m = (Returned a, calls).
Proof.
  induction m as [a' | e | c k IH]; intros n calls; cbn [tryCatch run].
  - auto.
  - discriminate.
  - specialize (IH (engine n c) (S n)).
    destruct (run engine (S n) (tryCatch (k (engine n c)) _)) as [r calls'].
    intros H. injection H as -> <-.
    rewrite (IH calls' eq_refl). reflexivity.
Qed.

Lemma run_translateChunks (engine : nat -> engineCall -> settled)
    (target source : jsstring) (chunks : list chunk) :
  forall n translated calls,
    run engine n (translateChunks target source chunks)
      = (Returned translated, calls) ->
    calls = map (fun c => TranslateText (text c) target source) chunks
    /\ map tcIndex translated = map index chunks.
Proof.
  induction chunks as [| c chunks IH]; intros n translated calls H.
  - cbn in H. injection H as <- <-. auto.
  - unfold translateChunks in H. cbn [mapAsync] in H.
    apply run_bind_returned in H.
    destruct H as (tc & calls1 & calls2 & Hhead & Hrest & ->).
    unfold mbind, async_bind, mret, async_ret, await in Hhead.
    cbn [bind run] in Hhead.
    destruct (engine n (TranslateText (text c) target source)) as [v | e];
      cbn [run] in Hhead; [| discriminate].
    injection Hhead as <- <-.
    apply run_bind_returned in Hrest.
    destruct Hrest as (tcs & calls3 & calls4 & Htail & Hret & ->).
    cbn [run] in Hret. injection Hret as <- <-.
    apply IH in Htail. destruct Htail as [-> Hidx].
    rewrite app_nil_r. cbn. rewrite Hidx. auto.
Qed.

(** Whenever a run of [translateContent] returns a result that has
    [chunksProcessed], the run went through the chunk loop: the field counts
    the chunks of the document, one [translateText] call was made per chunk,
    in order, after at most the detection call, and the result has no
    note. *)
Lemma chunksProcessed_after_translation
    (engine : nat -> engineCall -> settled) (n : nat)
    (document target : jsstring) (source : option jsstring)
    (result : translationResult) (calls : list engineCall) (k : Z) :
  run engine n (translateContent document target source)
    = (Returned result, calls) ->
  chunksProcessed result = Some k ->
  note result = None
  /\ exists chunks detection,
       chunkContent document = Returned chunks
       /\ k = arrayLength chunks
       /\ (detection = [] \/ detection = [DetectLanguage document])
       /\ calls = detection
                  ++ map (fun c => TranslateText (text c) target
                                     (sourceLanguage result)) chunks.
Proof.
  unfold translateContent. intros Hrun Hk.
  destruct (negb (valid (validateContentLength document)));
    [discriminate Hrun |].
  apply run_tryCatch_rethrow in Hrun.
  unfold mbind, async_bind, mret, async_ret in Hrun.
  apply run_bind_returned in Hrun.
  destruct Hrun as (src & detection & calls2 & Hsrc & Hbody & ->).
  assert (Hdet : detection = [] \/ detection = [DetectLanguage document]).
  { destruct source as [[| c l] |]; cbn [run await] in Hsrc.
    - destruct (engine n (DetectLanguage document)); cbn [run] in Hsrc;
        injection Hsrc as _ <-; auto.
    - injection Hsrc as _ <-. auto.
    - destruct (engine n (DetectLanguage document)); cbn [run] in Hsrc;
        injection Hsrc as _ <-; auto. }
  destruct (decide (src = target)) as [-> | Hne].
  - cbn [run] in Hbody. injection Hbody as <- _. discriminate Hk.
  - apply run_bind_returned in Hbody.
    destruct Hbody as (chunks & calls3 & calls4 & Hchunks & Hloop & ->).
    destruct (chunkContent document) as [chunks' | e];
      cbn [liftCompletion run] in Hchunks; [| discriminate].
    injection Hchunks as -> <-.
    apply run_bind_returned in Hloop.
    destruct Hloop as (tcs & calls5 & calls6 & Htr & Hret & ->).
    cbn [run] in Hret. injection Hret as <- <-.
    apply run_translateChunks in Htr. destruct Htr as [-> _].
    cbn in Hk. injection Hk as <-. split; [reflexivity |].
    exists chunks, detection. cbn [sourceLanguage app].
    rewrite app_nil_r. auto.
Qed.

(** C8.  For a document that is non-empty after trimming and within the size
    limit, and a language code [L] (a non-empty string),
    [translateContent(document, L, L)] returns the document itself as
    [translatedText], with both languages [L] and a non-empty note, and has
    no [chunksProcessed]; the body is the bare [Return], so neither the
    detector nor the translator is called.  And in any run of
    [translateContent] on the document, for any languages, a result carries
    [chunksProcessed] only if the chunks were translated: one translator
    call per chunk was made and the field is their number. *)
Theorem translateContent_same_language (document L : jsstring) :
  0 < len (trim document) <= MAX_DOCUMENT_SIZE ->
  L <> [] ->
  (exists result,
      translateContent document L (Some L) = Return result
      /\ (forall engine n,
            run engine n (translateContent document L (Some L)) =
            (Returned result, []))
      /\ translatedText result = document
      /\ sourceLanguage result = L
      /\ targetLanguage result = L
      /\ (exists text, note result = Some text /\ 0 < len text)
      /\ chunksProcessed result = None)
  /\ (forall engine n target source result calls k,
        run engine n (translateContent document target source)
          = (Returned result, calls) ->
        chunksProcessed result = Some k ->
        exists chunks detection,
          chunkContent document = Returned chunks
          /\ k = arrayLength chunks
          /\ calls = detection
                     ++ map (fun c => TranslateText (text c) target
                                        (sourceLanguage result)) chunks).
Proof.
  intros [Hpos Hmax] HL. split.
  - exists {| translatedText := document; sourceLanguage := L;
              targetLanguage := L;
              note := Some (lit "Content is already in the target language");
              chunksProcessed := None |}.
    assert (Eq : translateContent document L (Some L) =
      Return {| translatedText := document; sourceLanguage := L;
                targetLanguage := L;
                note := Some (lit "Content is already in the target language");
                chunksProcessed := None |}).
    { unfold translateContent, validateContentLength.
      rewrite blank_guard. unfold MAX_DOCUMENT_SIZE in *.
      destruct (len (trim document) =? 0) eqn:E0;
        [apply Z.eqb_eq in E0; lia |].
      destruct (50000 <? len (trim document)) eqn:E1;
        [apply Z.ltb_lt in E1; lia |].
      destruct L as [| c L]; [congruence |].
      cbn [valid negb]. unfold mbind, async_bind, mret, async_ret.
      cbn [bind]. rewrite decide_True by reflexivity. reflexivity. }
    split; [exact Eq |].
    split; [intros engine n; rewrite Eq; reflexivity |].
    repeat split; simpl.
    exists (lit "Content is already in the target language").
    split; [reflexivity | vm_compute; reflexivity].
  - intros engine n target source result calls k Hrun Hk.
    destruct (chunksProcessed_after_translation
                engine n document target source result calls k Hrun Hk)
      as (_ & chunks & detection & Hc & Hn & _ & Hcalls).
    exists chunks, detection. auto.
Qed.

Lemma translateContent_same_language_witness :
  exists result,
    translateContent (lit "Bonjour") (lit "fr") (Some (lit "fr"))
      = Return result
    /\ translatedText result = lit "Bonjour".
Proof.
  destruct (translateContent_same_language (lit "Bonjour") (lit "fr"))
    as ((result & Eq & _ & Ht & _) & _).
  - vm_compute. split; [reflexivity | discriminate].
  - discriminate.
  - exists result. split; [exact Eq | exact Ht].
Defined.

(** ** The chunker: the paragraph loop *)

Lemma fold_left_invariant {S A : Type} (I : S -> Prop) (P : A -> Prop)
    (f : S -> A -> S) (l : list A) (s : S) :
  (forall s a, I s -> P a -> I (f s a)) ->
  Forall P l -> I s -> I (fold_left f l s).
Proof.
  intros Hstep Hl. revert s.
  induction Hl as [| a l Ha _ IH]; intros s Hs; simpl; [exact Hs |].
  apply IH, Hstep; assumption.
Qed.

Lemma Forall_True {A : Type} (l : list A) : Forall (fun _ => True) l.
Proof. induction l; constructor; auto. Qed.

(** The two ways [chunkContent] returns chunks. *)
Lemma chunkContent_returned (D : jsstring) (cs : list chunk) :
  chunkContent D = Returned cs ->
  cs = []
  \/ (len (trim D) <= MAX_CHUNK_SIZE
      /\ cs = [ {| text := trim D; index := 0; total := 1; start := 0;
                   end_ := len (trim D) |} ])
  \/ (MAX_CHUNK_SIZE < len (trim D)
      /\ exists st,
           st = fold_left step (splitIntoParagraphs (trim D)) initialState
           /\ cs = map (setTotal (arrayLength (chunks st ++ finalChunk st)))
                    (chunks st ++ finalChunk st)).
Proof.
  unfold chunkContent. intros H.
  destruct ((len D =? 0) || (len (trim D) =? 0));
    [left; congruence |].
  destruct (MAX_DOCUMENT_SIZE <? len (trim D)); [discriminate |].
  destruct (len (trim D) <=? MAX_CHUNK_SIZE) eqn:E.
  - right; left. apply Z.leb_le in E. split; [exact E | congruence].
  - right; right. apply Z.leb_gt in E. split; [exact E |].
    eexists; split; [reflexivity |]. cbv zeta in H. congruence.
Qed.

Lemma arrayLength_app {A : Type} (l k : list A) :
  arrayLength (l ++ k) = arrayLength l + arrayLength k.
Proof. unfold arrayLength. rewrite length_app. lia. Qed.

Lemma map_index_setTotal (n : Z) (cs : list chunk) :
  map index (map (setTotal n) cs) = map index cs.
Proof. rewrite map_map. reflexivity. Qed.

Lemma indexed_push (cs : list chunk) (c : chunk) :
  indexed cs -> index c = arrayLength cs -> indexed (cs ++ [c]).
Proof.
  unfold indexed, arrayLength. intros H Hc.
  rewrite map_app, length_app, seq_app, map_app, H. simpl. rewrite Hc.
  reflexivity.
Qed.

Lemma step_indexed (st : loopState) (para : jsstring) :
  indexed (chunks st) -> indexed (chunks (step st para)).
Proof.
  intros H. unfold step.
  destruct (_ && _); simpl; [| exact H].
  apply indexed_push; [exact H | reflexivity].
Qed.

Lemma indexed_bounds (cs : list chunk) :
  indexed cs -> Forall (fun c => 0 <= index c < arrayLength cs) cs.
Proof.
  unfold indexed, arrayLength. intros H.
  apply List.Forall_forall. intros c Hc.
  apply (in_map index) in Hc. rewrite H in Hc.
  apply in_map_iff in Hc. destruct Hc as (i & Hi & Hin).
  apply in_seq in Hin. lia.
Qed.

(** C5.  In every batch the chunker returns, each chunk's [total] is the
    number of chunks, and the [index] fields read 0, 1, ..., total-1 in
    order; so [index < total] for every chunk. *)
Theorem chunkContent_index_total (D : jsstring) (cs : list chunk) :
  chunkContent D = Returned cs ->
  Forall (fun c => total c = arrayLength cs) cs
  /\ map index cs = map Z.of_nat (seq 0 (length cs))
  /\ Forall (fun c => 0 <= index c < total c) cs.
Proof.
  intros H.
  assert (Hmain : Forall (fun c => total c = arrayLength cs) cs /\ indexed cs).
  { apply chunkContent_returned in H.
    destruct H as [-> | [[_ ->] | [_ (st & Hst & ->)]]].
    - split; [constructor | reflexivity].
    - split; [repeat constructor | reflexivity].
    - set (all := chunks st ++ finalChunk st).
      assert (Hall : indexed all).
      { assert (Hch : indexed (chunks st)).
        { rewrite Hst.
          apply (fold_left_invariant (fun s => indexed (chunks s))
                   (fun _ => True)).
          - intros s a Hs _. apply step_indexed, Hs.
          - apply Forall_True.
          - reflexivity. }
        unfold all, finalChunk. destruct (0 <? len (currentChunk st)).
        - apply indexed_push; [exact Hch | reflexivity].
        - rewrite app_nil_r. exact Hch. }
      split.
      + apply List.Forall_forall. intros c Hc. apply in_map_iff in Hc.
        destruct Hc as (c0 & <- & _). unfold arrayLength.
        rewrite length_map. reflexivity.
      + unfold indexed. rewrite map_index_setTotal, length_map. exact Hall. }
  destruct Hmain as [Ht Hi]. split; [exact Ht |]. split; [exact Hi |].
  pose proof (indexed_bounds cs Hi) as Hb.
  rewrite List.Forall_forall in Ht, Hb |- *. intros c Hc.
  rewrite (Ht c Hc). apply Hb, Hc.
Qed.

Lemma chunkContent_index_total_witness :
  exists cs,
    chunkContent twoParagraphs = Returned cs
    /\ map index cs = [0; 1] /\ map total cs = [2; 2].
Proof.
  eexists. split; [vm_compute; reflexivity |].
  split; [| reflexivity].
  match goal with
  | |- map index ?cs = _ =>
      assert (H : chunkContent twoParagraphs = Returned cs)
        by (vm_compute; reflexivity);
      destruct (chunkContent_index_total twoParagraphs cs H) as (_ & Hi & _);
      rewrite Hi; reflexivity
  end.
Defined.

Ltac by_evaluation :=
  match goal with
  | |- ~ ?P => apply (bool_decide_eq_false_1 P); vm_compute; reflexivity
  | |- ?P => apply (bool_decide_unpack P); vm_compute; exact I
  end.

Lemma sliceLast_length (n : nat) (s : jsstring) :
  len (sliceLast n s) = Z.min (Z.of_nat n) (len s).
Proof. unfold sliceLast, len. rewrite length_drop. lia. Qed.

Lemma blankLine_length : len blankLine = 2.
Proof. reflexivity. Qed.

Lemma step_sizeInvariant (st : loopState) (para : jsstring) :
  sizeInvariant st -> len para <= MAX_CHUNK_SIZE ->
  sizeInvariant (step st para).
Proof.
  intros (Hall & Hcur & Hfirst & Hhead) Hp. unfold step.
  destruct ((MAX_CHUNK_SIZE <? _) && _) eqn:E.
  - apply andb_true_iff in E. destruct E as [_ Hne].
    unfold sizeInvariant; cbn [chunks currentChunk]. repeat split.
    + apply Forall_app. split; [exact Hall |]. repeat constructor.
      exact Hcur.
    + rewrite !len_app, sliceLast_length, blankLine_length.
      unfold MAX_CHUNK_SIZE, CHUNK_OVERLAP in *. lia.
    + intros Hnil. destruct (chunks st); discriminate Hnil.
    + intros c Hc. destruct (chunks st) as [| c0 l] eqn:Ec.
      * cbn in Hc. injection Hc as <-. cbn. apply Hfirst. reflexivity.
      * cbn in Hc. apply Hhead. exact Hc.
  - assert (Hpot : len (match currentChunk st with
                        | [] => para
                        | _ :: _ => currentChunk st ++ blankLine ++ para
                        end) <= MAX_CHUNK_SIZE).
    { apply andb_false_iff in E. destruct E as [E | E].
      - apply Z.ltb_ge in E. exact E.
      - apply Z.ltb_ge in E. pose proof (len_nonneg (currentChunk st)).
        assert (Hz : len (currentChunk st) = 0) by lia.
        apply len_zero_nil in Hz. rewrite Hz. exact Hp. }
    unfold sizeInvariant; cbn [chunks currentChunk]. repeat split.
    + exact Hall.
    + unfold MAX_CHUNK_SIZE, CHUNK_OVERLAP in *. lia.
    + intros _. exact Hpot.
    + exact Hhead.
Qed.

(** When every paragraph has at most 3,500 code units, every chunk has at
    most 3,702 (a full chunk, the 200 of overlap and the two of the
    separator), and the first chunk at most 3,500. *)
Lemma chunkContent_size_bound (D : jsstring) (cs : list chunk) :
  chunkContent D = Returned cs ->
  Forall (fun p => len p <= MAX_CHUNK_SIZE) (splitIntoParagraphs (trim D)) ->
  Forall
    (fun c => len (text c) <= MAX_CHUNK_SIZE + CHUNK_OVERLAP + len blankLine)
    cs
  /\ (forall c, head cs = Some c -> len (text c) <= MAX_CHUNK_SIZE).
Proof.
  intros H Hparas. rewrite blankLine_length.
  apply chunkContent_returned in H.
  destruct H as [-> | [[Hle ->] | [_ (st & Hst & ->)]]].
  - split; [constructor | discriminate].
  - split.
    + repeat constructor. cbn. unfold MAX_CHUNK_SIZE, CHUNK_OVERLAP in *. lia.
    + intros c Hc. injection Hc as <-. exact Hle.
  - assert (Hinv : sizeInvariant st).
    { rewrite Hst.
      apply (fold_left_invariant sizeInvariant
               (fun p => len p <= MAX_CHUNK_SIZE)).
      - apply step_sizeInvariant.
      - exact Hparas.
      - unfold sizeInvariant, initialState; cbn.
        repeat split; try constructor; try discriminate;
          unfold MAX_CHUNK_SIZE, CHUNK_OVERLAP; cbn; lia. }
    destruct Hinv as (Hall & Hcur & Hfirst & Hhead).
    set (all := chunks st ++ finalChunk st).
    assert (Hsz : Forall (fun c => len (text c)
                           <= MAX_CHUNK_SIZE + CHUNK_OVERLAP + 2) all
                  /\ (forall c, head all = Some c
                       -> len (text c) <= MAX_CHUNK_SIZE)).
    { unfold all, finalChunk. destruct (0 <? len (currentChunk st)).
      - split.
        + apply Forall_app. split; [exact Hall |]. repeat constructor.
          exact Hcur.
        + intros c Hc. destruct (chunks st) as [| c0 l] eqn:Ec.
          * cbn in Hc. injection Hc as <-. cbn. apply Hfirst. reflexivity.
          * cbn in Hc. apply Hhead. exact Hc.
      - rewrite app_nil_r. split; [exact Hall | exact Hhead]. }
    destruct Hsz as [Hsz1 Hsz2]. split.
    + apply List.Forall_forall. intros c Hc. apply in_map_iff in Hc.
      destruct Hc as (c0 & <- & Hin). cbn.
      rewrite List.Forall_forall in Hsz1. apply Hsz1, Hin.
    + intros c Hc. destruct all as [| c0 l]; [discriminate |].
      cbn in Hc. injection Hc as <-. cbn. apply Hsz2. reflexivity.
Qed.

(** ** The chunker: offsets *)

Lemma linked_snoc (l : list chunk) (x y : chunk) :
  linked (l ++ [x]) -> follows x y -> linked ((l ++ [x]) ++ [y]).
Proof.
  intros Hl Hxy. induction l as [| a l IH].
  - cbn. auto.
  - cbn in Hl |- *. destruct Hl as [Ha Hl]. split; [| apply IH, Hl].
    destruct l; exact Ha.
Qed.

Lemma linked_replace_last (l : list chunk) (x y : chunk) :
  linked (l ++ [x]) -> (forall z, follows z x -> follows z y) ->
  linked (l ++ [y]).
Proof.
  intros Hl Hxy. induction l as [| a l IH].
  - cbn. auto.
  - cbn in Hl |- *. destruct Hl as [Ha Hl]. split; [| apply IH, Hl].
    destruct l; cbn in Ha |- *; [apply Hxy, Ha | exact Ha].
Qed.

Lemma linked_prefix (l k : list chunk) : linked (l ++ k) -> linked l.
Proof.
  induction l as [| a l IH]; [cbn; auto |].
  cbn. intros [Ha Hl]. split; [| apply IH, Hl].
  destruct l; [exact I | exact Ha].
Qed.

Lemma linked_lookup (cs : list chunk) (i : nat) (c c' : chunk) :
  linked cs -> cs !! i = Some c -> cs !! S i = Some c' -> follows c c'.
Proof.
  revert i. induction cs as [| a cs IH]; intros i Hl Hi HSi; [discriminate |].
  destruct Hl as [Ha Hl]. destruct i as [| i].
  - cbn in Hi, HSi. injection Hi as <-. destruct cs; [discriminate |].
    cbn in HSi. injection HSi as <-. exact Ha.
  - cbn in Hi, HSi. exact (IH i Hl Hi HSi).
Qed.

Lemma follows_setTotal (n : Z) (c c' : chunk) :
  follows c c' -> follows (setTotal n c) (setTotal n c').
Proof. intros H. exact H. Qed.

Lemma linked_setTotal (n : Z) (cs : list chunk) :
  linked cs -> linked (map (setTotal n) cs).
Proof.
  induction cs as [| a cs IH]; [auto |].
  cbn. intros [Ha Hl]. split; [| apply IH, Hl].
  destruct cs; [exact I | exact Ha].
Qed.

Lemma linked_last_end (cs : list chunk) (c cl : chunk) :
  linked (c :: cs) -> last (c :: cs) = Some cl -> end_ c <= end_ cl.
Proof.
  revert c. induction cs as [| a cs IH]; intros c Hl Hlast.
  - cbn in Hlast. injection Hlast as <-. lia.
  - destruct Hl as [(_ & Hlt & _) Hl]. rewrite last_cons_cons in Hlast.
    specialize (IH a Hl Hlast). lia.
Qed.

Lemma linked_covers (cs : list chunk) (c0 cl : chunk) :
  linked cs -> head cs = Some c0 -> last cs = Some cl ->
  forall x, start c0 <= x < end_ cl ->
            exists c, In c cs /\ start c <= x < end_ c.
Proof.
  revert c0. induction cs as [| a cs IH]; intros c0 Hl Hh Hlast x Hx;
    [discriminate |].
  cbn in Hh. injection Hh as ->.
  destruct cs as [| b cs].
  - cbn in Hlast. injection Hlast as ->. exists cl.
    split; [left; reflexivity | exact Hx].
  - destruct Hl as [(Hs & _ & _) Hl]. rewrite last_cons_cons in Hlast.
    destruct (Z_lt_ge_dec x (end_ c0)) as [Hin | Hout].
    + exists c0. split; [left; reflexivity | lia].
    + destruct (IH b Hl eq_refl Hlast x) as (c & Hc & Hxc).
      * unfold CHUNK_OVERLAP in Hs. lia.
      * exists c. split; [right; exact Hc | exact Hxc].
Qed.

Lemma linked_starts_from_head (cs : list chunk) (c : chunk) :
  linked (c :: cs) -> Forall spansText (c :: cs) ->
  CHUNK_OVERLAP <= len (text c) ->
  Forall (fun c' => start c <= start c') cs.
Proof.
  revert c. induction cs as [| a cs IH]; intros c Hl Hs Hc; [constructor |].
  destruct Hl as [(Hst & _ & Hlen) Hl].
  pose proof (Forall_inv Hs) as Hsc. apply Forall_inv_tail in Hs.
  unfold spansText in Hsc.
  assert (Hca : start c <= start a) by lia.
  constructor; [exact Hca |].
  specialize (IH a Hl Hs (Hlen Hc)).
  eapply Forall_impl; [exact IH |]. cbn. intros; lia.
Qed.

Lemma linked_startsNonDecreasing (cs : list chunk) :
  linked cs -> Forall spansText cs ->
  (forall c, head cs = Some c -> CHUNK_OVERLAP <= len (text c)) ->
  startsNonDecreasing cs.
Proof.
  induction cs as [| a cs IH]; intros Hl Hs Hh i j ci cj Hij Hi Hj;
    [discriminate |].
  pose proof (linked_starts_from_head cs a Hl Hs (Hh a eq_refl)) as Hfrom.
  destruct i as [| i].
  - cbn in Hi. injection Hi as <-. destruct j as [| j].
    + cbn in Hj. injection Hj as <-. lia.
    + cbn in Hj. rewrite List.Forall_forall in Hfrom. apply Hfrom.
      apply list_elem_of_In. eapply list_elem_of_lookup_2. exact Hj.
  - destruct j as [| j]; [lia |]. cbn in Hi, Hj.
    apply (IH (proj2 Hl) (Forall_inv_tail Hs)) with (i := i) (j := j);
      [| lia | exact Hi | exact Hj].
    intros c Hc. destruct cs as [| b cs]; [discriminate |].
    cbn in Hc. injection Hc as <-.
    destruct Hl as [(_ & _ & Hlen) _]. apply Hlen, Hh. reflexivity.
Qed.

Lemma step_split (st : loopState) (para : jsstring) :
  (MAX_CHUNK_SIZE <? len (currentChunk st ++ blankLine ++ para)) = true ->
  currentChunk st <> [] ->
  step st para =
    {| chunks := chunks st ++ [pending st];
       currentChunk :=
         sliceLast (Z.to_nat CHUNK_OVERLAP) (currentChunk st)
         ++ blankLine ++ para;
       chunkStartIndex :=
         chunkStartIndex st + (len (currentChunk st) - CHUNK_OVERLAP) |}.
Proof.
  intros Hbig Hne. unfold step.
  destruct (currentChunk st) as [| c cur] eqn:Ec; [congruence |].
  rewrite Hbig. unfold pending. rewrite Ec. reflexivity.
Qed.

Lemma step_cases (st : loopState) (para : jsstring) :
  (currentChunk st <> []
   /\ MAX_CHUNK_SIZE < len (currentChunk st) + 2 + len para
   /\ step st para =
        {| chunks := chunks st ++ [pending st];
           currentChunk :=
             sliceLast (Z.to_nat CHUNK_OVERLAP) (currentChunk st)
             ++ blankLine ++ para;
           chunkStartIndex :=
             chunkStartIndex st + (len (currentChunk st) - CHUNK_OVERLAP) |})
  \/ (exists potential,
        len (currentChunk st) <= len potential
        /\ len potential <= len (currentChunk st) + 2 + len para
        /\ step st para =
             {| chunks := chunks st; currentChunk := potential;
                chunkStartIndex := chunkStartIndex st |}).
Proof.
  destruct (currentChunk st) as [| c cur] eqn:Ec.
  - right. exists para. pose proof (len_nonneg para).
    split; [unfold len in *; cbn; lia |].
    split; [unfold len in *; cbn; lia |].
    unfold step. rewrite Ec. change (0 <? len []) with false.
    rewrite andb_false_r. reflexivity.
  - destruct (MAX_CHUNK_SIZE <? len (currentChunk st ++ blankLine ++ para))
      eqn:Hbig.
    + left. rewrite <- Ec. split; [rewrite Ec; discriminate |]. split.
      * apply Z.ltb_lt in Hbig.
        rewrite !len_app, blankLine_length in Hbig. lia.
      * apply step_split; [exact Hbig | rewrite Ec; discriminate].
    + right. exists (currentChunk st ++ blankLine ++ para).
      rewrite !len_app, blankLine_length. pose proof (len_nonneg para).
      rewrite <- Ec. repeat split; try lia.
      unfold step. rewrite Ec. rewrite <- Ec. rewrite Hbig. reflexivity.
Qed.

Lemma head_snoc_start (l : list chunk) (x y : chunk) :
  start x = start y ->
  (forall c, head (l ++ [x]) = Some c -> start c = 0) ->
  forall c, head (l ++ [y]) = Some c -> start c = 0.
Proof.
  intros Hxy H c Hc. destruct l as [| a l].
  - cbn in Hc. injection Hc as <-. rewrite <- Hxy. apply H. reflexivity.
  - apply H. exact Hc.
Qed.

Lemma step_rangeInvariant (st : loopState) (para : jsstring) :
  rangeInvariant st -> rangeInvariant (step st para).
Proof.
  intros (Hl & Hs & Hh).
  destruct (step_cases st para) as [(Hne & Hbig & ->) | (pot & Hge & _ & ->)];
    unfold rangeInvariant; cbn [chunks].
  - set (st' := {| chunks := chunks st ++ [pending st];
                   currentChunk := _; chunkStartIndex := _ |}).
    assert (Hlen : len (currentChunk st') =
                   Z.min CHUNK_OVERLAP (len (currentChunk st)) + 2 + len para).
    { unfold st'; cbn [currentChunk].
      rewrite !len_app, sliceLast_length, blankLine_length.
      unfold CHUNK_OVERLAP at 1. rewrite Z2Nat.id by lia.
      unfold CHUNK_OVERLAP. lia. }
    pose proof (len_nonneg para) as Hp.
    repeat split.
    + apply linked_snoc; [exact Hl |].
      unfold follows, pending; cbn [start end_ text chunkStartIndex].
      fold (currentChunk st'). rewrite Hlen.
      unfold st'; cbn [chunkStartIndex].
      unfold MAX_CHUNK_SIZE, CHUNK_OVERLAP in *. lia.
    + apply Forall_app. split; [exact Hs |]. repeat constructor.
      unfold spansText, pending; cbn [start end_ text]. lia.
    + intros c Hc. apply Hh. rewrite <- app_assoc in Hc.
      destruct (chunks st); exact Hc.
  - set (st' := {| chunks := chunks st; currentChunk := pot;
                   chunkStartIndex := chunkStartIndex st |}).
    repeat split.
    + apply (linked_replace_last _ (pending st)); [exact Hl |].
      intros z (Hz1 & Hz2 & Hz3).
      unfold follows, pending in *; cbn [start end_ text] in *.
      unfold st'; cbn [chunkStartIndex currentChunk]. lia.
    + apply Forall_app. apply Forall_app in Hs. destruct Hs as [Hs _].
      split; [exact Hs |]. repeat constructor.
      unfold spansText, pending; cbn [start end_ text]. lia.
    + apply (head_snoc_start _ (pending st)); [reflexivity | exact Hh].
Qed.

Lemma fold_rangeInvariant (ps : list jsstring) :
  rangeInvariant (fold_left step ps initialState).
Proof.
  apply (fold_left_invariant rangeInvariant (fun _ => True)).
  - intros st a Hst _. apply step_rangeInvariant, Hst.
  - apply Forall_True.
  - unfold rangeInvariant, initialState, pending, spansText; cbn.
    repeat split; try repeat constructor.
    intros c Hc. injection Hc as <-. reflexivity.
Qed.

(** *** The last end stays inside the document *)

Lemma step_end_bound (st : loopState) (para : jsstring) :
  end_ (pending (step st para)) <= end_ (pending st) + (len para + 2).
Proof.
  destruct (step_cases st para) as [(_ & _ & ->) | (pot & _ & Hle & ->)];
    unfold pending; cbn [end_ chunkStartIndex currentChunk].
  - rewrite !len_app, sliceLast_length, blankLine_length.
    unfold CHUNK_OVERLAP. lia.
  - lia.
Qed.

Lemma fold_end_bound (ps : list jsstring) (st : loopState) :
  end_ (pending (fold_left step ps st)) <= end_ (pending st) + paddedLength ps.
Proof.
  revert st. induction ps as [| p ps IH]; intros st;
    cbn [fold_left paddedLength]; [lia |].
  specialize (IH (step st p)). pose proof (step_end_bound st p). lia.
Qed.

Lemma loop_end_bound (ps : list jsstring) :
  end_ (pending (fold_left step ps initialState))
  <= Z.max 0 (paddedLength ps - 2).
Proof.
  destruct ps as [| p ps]; [vm_compute; discriminate |].
  cbn [fold_left paddedLength].
  pose proof (fold_end_bound ps (step initialState p)) as H.
  assert (E : end_ (pending (step initialState p)) = len p).
  { unfold step. cbn [currentChunk initialState].
    change (0 <? len []) with false. rewrite andb_false_r. cbn. lia. }
  pose proof (len_nonneg p). lia.
Qed.

Lemma runLength_le (p : N -> bool) (s : jsstring) :
  (runLength p s <= length s)%nat.
Proof.
  induction s as [| c s IH]; cbn; [lia |]. destruct (p c); lia.
Qed.

Lemma paragraphBreak_bounds (s : jsstring) (n : nat) :
  paragraphBreak s = Some n -> (2 <= n <= length s)%nat.
Proof.
  unfold paragraphBreak. intros H.
  repeat match type of H with
         | match ?x with _ => _ end = _ => destruct x; try discriminate H
         end;
    injection H as <-; cbn [length];
    match goal with
    | |- context [ runLength ?p ?l ] => pose proof (runLength_le p l)
    end; lia.
Qed.

Section SplitLength.
Variable matchAt : jsstring -> option nat.
Hypothesis matchAt_bounds :
  forall s n, matchAt s = Some n -> (2 <= n <= length s)%nat.

Lemma splitScan_paddedLength (s : jsstring) :
  forall (skip : nat) (piece : jsstring),
    (skip <= length s)%nat ->
    paddedLength (splitScan matchAt skip piece s)
    <= len piece + len s - Z.of_nat skip + 2.
Proof.
  induction s as [| c s IH]; intros skip piece Hskip.
  - cbn. unfold len. rewrite length_reverse. cbn in *. lia.
  - cbn [splitScan]. destruct skip as [| k].
    + destruct (matchAt (c :: s)) as [[| k] |] eqn:Em.
      * specialize (IH O (c :: piece)). unfold len in *. cbn in *. lia.
      * apply matchAt_bounds in Em. cbn [length] in Em.
        cbn [paddedLength]. specialize (IH k []).
        unfold len in *. rewrite length_reverse. cbn in *. lia.
      * specialize (IH O (c :: piece)). unfold len in *. cbn in *. lia.
    + specialize (IH k piece). unfold len in *. cbn in *. lia.
Qed.

Lemma split_paddedLength (s : jsstring) :
  paddedLength (split matchAt s) <= len s + 2.
Proof.
  unfold split. pose proof (splitScan_paddedLength s O []) as H.
  cbn in H. unfold len in *. cbn in H. lia.
Qed.
End SplitLength.

Lemma paddedLength_nonneg (ps : list jsstring) : 0 <= paddedLength ps.
Proof.
  induction ps as [| p ps IH]; cbn; [lia |]. pose proof (len_nonneg p). lia.
Qed.

Lemma paddedLength_trim (ps : list jsstring) :
  paddedLength (map trim ps) <= paddedLength ps.
Proof.
  induction ps as [| p ps IH]; cbn; [lia |]. pose proof (trim_length p). lia.
Qed.

Lemma paddedLength_filter (f : jsstring -> bool) (ps : list jsstring) :
  paddedLength (List.filter f ps) <= paddedLength ps.
Proof.
  induction ps as [| p ps IH]; cbn; [lia |]. pose proof (len_nonneg p).
  destruct (f p); cbn; lia.
Qed.

Lemma splitIntoParagraphs_paddedLength (s : jsstring) :
  paddedLength (splitIntoParagraphs s) <= len s + 2.
Proof.
  unfold splitIntoParagraphs.
  pose proof (paddedLength_filter (fun p => 0 <? len p)
                (map trim (split paragraphBreak s))).
  pose proof (paddedLength_trim (split paragraphBreak s)).
  pose proof (split_paddedLength paragraphBreak paragraphBreak_bounds s).
  lia.
Qed.

Lemma linked_all_ends (l : list chunk) (x : chunk) :
  linked (l ++ [x]) -> Forall (fun c => end_ c <= end_ x) (l ++ [x]).
Proof.
  induction l as [| a l IH]; intros Hl.
  - repeat constructor. lia.
  - constructor.
    + apply (linked_last_end (l ++ [x]) a x Hl).
      change (a :: l ++ [x]) with ((a :: l) ++ [x]). apply last_snoc.
    + apply IH. exact (proj2 Hl).
Qed.

Lemma head_map_setTotal (n : Z) (l : list chunk) (c : chunk) :
  head (map (setTotal n) l) = Some c ->
  exists c0, head l = Some c0 /\ c = setTotal n c0.
Proof.
  destruct l as [| a l]; [discriminate |]. cbn. intros H.
  injection H as <-. exists a. auto.
Qed.

Lemma last_map_setTotal (n : Z) (l : list chunk) (c : chunk) :
  last (map (setTotal n) l) = Some c ->
  exists c0, last l = Some c0 /\ c = setTotal n c0.
Proof.
  induction l as [| a l IH]; [discriminate |].
  destruct l as [| b l].
  - cbn. intros H. injection H as <-. exists a. auto.
  - cbn [map]. rewrite !last_cons_cons. exact IH.
Qed.

(** What the offsets of a linked batch that starts at 0 and ends by [bound]
    satisfy. *)
Lemma linked_ranges (cs : list chunk) (bound : Z) :
  linked cs -> Forall spansText cs ->
  (forall c, head cs = Some c -> start c = 0) ->
  (forall c, last cs = Some c -> end_ c <= bound) ->
  (forall c, head cs = Some c -> start c = 0)
  /\ Forall (fun c => end_ c - start c = len (text c)) cs
  /\ (forall (i : nat) c c',
        cs !! i = Some c -> cs !! S i = Some c' ->
        start c' = end_ c - CHUNK_OVERLAP /\ end_ c < end_ c')
  /\ (forall c, last cs = Some c -> covers cs (end_ c) /\ end_ c <= bound)
  /\ (forall c, head cs = Some c -> CHUNK_OVERLAP <= len (text c) ->
       startsNonDecreasing cs).
Proof.
  intros Hl Hs Hh Hb. split; [exact Hh |]. split; [exact Hs |].
  split; [| split].
  - intros i c c' Hi HSi.
    destruct (linked_lookup cs i c c' Hl Hi HSi) as (H1 & H2 & _). auto.
  - intros c Hc. split; [| apply Hb, Hc].
    intros x Hx. destruct cs as [| c0 cs']; [discriminate |].
    apply (linked_covers (c0 :: cs') c0 c Hl eq_refl Hc).
    rewrite (Hh c0 eq_refl). exact Hx.
  - intros c Hc Hlen. apply linked_startsNonDecreasing; [exact Hl | exact Hs |].
    intros c' Hc'. rewrite Hc in Hc'. injection Hc' as <-. exact Hlen.
Qed.

(** How the ranges of a returned batch follow one another, as the loop
    computes them: each start is the end before it less 200, whatever the
    length of the chunk before. *)
Lemma chunkContent_linked_ranges (D : jsstring) (cs : list chunk) :
  chunkContent D = Returned cs ->
  (forall c, head cs = Some c -> start c = 0)
  /\ Forall (fun c => end_ c - start c = len (text c)) cs
  /\ (forall (i : nat) c c',
        cs !! i = Some c -> cs !! S i = Some c' ->
        start c' = end_ c - CHUNK_OVERLAP /\ end_ c < end_ c')
  /\ (forall c, last cs = Some c ->
       covers cs (end_ c) /\ end_ c <= len (trim D))
  /\ (forall c, head cs = Some c -> CHUNK_OVERLAP <= len (text c) ->
       startsNonDecreasing cs).
Proof.
  intros H. apply chunkContent_returned in H.
  destruct H as [-> | [[_ ->] | [_ (st & Hst & ->)]]].
  - apply linked_ranges; try discriminate; constructor.
  - apply linked_ranges.
    + cbn. auto.
    + repeat constructor. unfold spansText; cbn. lia.
    + intros c Hc. injection Hc as <-. reflexivity.
    + intros c Hc. injection Hc as <-. cbn. lia.
  - set (n := arrayLength (chunks st ++ finalChunk st)).
    pose proof (fold_rangeInvariant (splitIntoParagraphs (trim D))) as Hinv.
    rewrite <- Hst in Hinv. destruct Hinv as (Hl & Hs & Hh).
    assert (Hend : end_ (pending st) <= len (trim D)).
    { pose proof (loop_end_bound (splitIntoParagraphs (trim D))) as Hb.
      rewrite <- Hst in Hb.
      pose proof (splitIntoParagraphs_paddedLength (trim D)).
      pose proof (len_nonneg (trim D)). lia. }
    pose proof (linked_all_ends _ _ Hl) as Hends.
    assert (Hall : linked (chunks st ++ finalChunk st)
                   /\ Forall spansText (chunks st ++ finalChunk st)
                   /\ (forall c, head (chunks st ++ finalChunk st) = Some c
                        -> start c = 0)
                   /\ Forall (fun c => end_ c <= end_ (pending st))
                        (chunks st ++ finalChunk st)).
    { unfold finalChunk. fold (pending st).
      destruct (0 <? len (currentChunk st)).
      - auto.
      - rewrite app_nil_r. split; [exact (linked_prefix _ _ Hl) |].
        apply Forall_app in Hs. apply Forall_app in Hends.
        split; [apply Hs |]. split; [| apply Hends].
        intros c Hc. apply Hh. destruct (chunks st); [discriminate | exact Hc]. }
    destruct Hall as (Hl' & Hs' & Hh' & He').
    apply linked_ranges.
    + apply linked_setTotal, Hl'.
    + apply List.Forall_forall. intros c Hc. apply in_map_iff in Hc.
      destruct Hc as (c0 & <- & Hin).
      rewrite List.Forall_forall in Hs'. exact (Hs' c0 Hin).
    + intros c Hc. apply head_map_setTotal in Hc.
      destruct Hc as (c0 & Hc0 & ->). exact (Hh' c0 Hc0).
    + intros c Hc. apply last_map_setTotal in Hc.
      destruct Hc as (c0 & Hc0 & ->). cbn [setTotal end_].
      rewrite List.Forall_forall in He'.
      assert (Hin : In c0 (chunks st ++ finalChunk st)).
      { apply list_elem_of_In. apply last_Some_elem_of, Hc0. }
      specialize (He' c0 Hin). cbn beta in He'. lia.
Qed.

(** ** The fallback merge of the key points *)

Lemma filter_filter_and {A : Type} (f g : A -> bool) (l : list A) :
  List.filter f (List.filter g l) = List.filter (fun x => g x && f x) l.
Proof.
  induction l as [| a l IH]; [reflexivity |]. cbn.
  destruct (g a); cbn; [destruct (f a) |]; rewrite IH; reflexivity.
Qed.

Lemma filter_all {A : Type} (f : A -> bool) (l : list A) :
  Forall (fun x => f x = true) l -> List.filter f l = l.
Proof.
  induction 1 as [| a l Ha _ IH]; [reflexivity |].
  cbn. rewrite Ha, IH. reflexivity.
Qed.

Lemma filter_none {A : Type} (f : A -> bool) (l : list A) :
  Forall (fun x => f x = false) l -> List.filter f l = [].
Proof.
  induction 1 as [| a l Ha _ IH]; [reflexivity |].
  cbn. rewrite Ha, IH. reflexivity.
Qed.

Lemma Forall_filter {A : Type} (P : A -> Prop) (f : A -> bool) (l : list A) :
  Forall P l -> Forall P (List.filter f l).
Proof.
  induction 1 as [| a l Ha _ IH]; [constructor |].
  cbn. destruct (f a); [constructor |]; assumption.
Qed.

Section Dedup.
Variable toLowerCase : jsstring -> jsstring.

(** What the loop has collected after the points [l], from any state. *)
Lemma visit_fold (l : list keyPoint) (st : dedupState) :
  uniquePoints (fold_left (visit toLowerCase) l st) =
    uniquePoints st
    ++ List.filter
         (fun kp => negb (bool_decide (normalized toLowerCase kp ∈ seen st)))
         (keepFirstPerKey toLowerCase l).
Proof.
  revert st. induction l as [| kp l IH]; intros st.
  - cbn. rewrite app_nil_r. reflexivity.
  - cbn [fold_left KeyPoints.keepFirstPerKey List.filter].
    rewrite IH.
    destruct (decide (normalized toLowerCase kp ∈ seen st)) as [Hin | Hout].
    + assert (Ev : visit toLowerCase st kp = st).
      { unfold KeyPoints.visit. rewrite decide_True by exact Hin.
        reflexivity. }
      rewrite Ev, (bool_decide_eq_true_2 _ Hin). cbn [negb].
      f_equal. rewrite filter_filter_and. apply filter_ext.
      intros other.
      destruct (bool_decide_reflect
                  (normalized toLowerCase other = normalized toLowerCase kp))
        as [E | _].
      * rewrite E, (bool_decide_eq_true_2 _ Hin). reflexivity.
      * reflexivity.
    + assert (Ev : visit toLowerCase st kp =
                     {| uniquePoints := uniquePoints st ++ [kp];
                        seen := {[ normalized toLowerCase kp ]} ∪ seen st |}).
      { unfold KeyPoints.visit. rewrite decide_False by exact Hout.
        reflexivity. }
      rewrite Ev, (bool_decide_eq_false_2 _ Hout).
      cbn [negb uniquePoints seen].
      rewrite <- app_assoc. cbn [app]. do 2 f_equal.
      rewrite filter_filter_and. apply filter_ext.
      intros other.
      destruct (bool_decide_reflect
                  (normalized toLowerCase other = normalized toLowerCase kp))
        as [E | NE].
      * cbn. rewrite bool_decide_eq_true_2; [reflexivity |].
        rewrite E. apply elem_of_union. left. apply elem_of_singleton.
        reflexivity.
      * cbn. apply f_equal. apply bool_decide_ext.
        rewrite elem_of_union, elem_of_singleton. tauto.
Qed.

(** The loop keeps exactly the first occurrence per key. *)
Lemma deduplicateSimple_unfold (l : list keyPoint) :
  deduplicateSimple toLowerCase l =
    take 10
      (sort compareImportance (keepFirstPerKey toLowerCase l)).
Proof.
  unfold deduplicateSimple. rewrite visit_fold. cbn [uniquePoints seen app].
  rewrite filter_all; [reflexivity |].
  apply List.Forall_forall. intros kp _.
  rewrite bool_decide_eq_false_2; [reflexivity | apply not_elem_of_empty].
Qed.

Lemma keepFirstPerKey_Forall (P : keyPoint -> Prop) (l : list keyPoint) :
  Forall P l -> Forall P (keepFirstPerKey toLowerCase l).
Proof.
  induction 1 as [| kp l Hkp _ IH]; [constructor |].
  cbn. constructor; [exact Hkp | apply Forall_filter, IH].
Qed.
End Dedup.

Section SortFacts.
Context {A : Type} (cmp : A -> A -> Z).

Lemma insertSorted_past (x : A) (l k : list A) :
  Forall (fun y => 0 < cmp x y) l ->
  insertSorted cmp x (l ++ k) = l ++ insertSorted cmp x k.
Proof.
  induction 1 as [| y l Hy _ IH]; [reflexivity |].
  cbn. destruct (cmp x y <=? 0) eqn:E; [apply Z.leb_le in E; lia |].
  rewrite IH. reflexivity.
Qed.

Lemma insertSorted_front (x : A) (l : list A) :
  (forall y, head l = Some y -> cmp x y <= 0) ->
  insertSorted cmp x l = x :: l.
Proof.
  destruct l as [| y l]; [reflexivity |]. intros H. cbn.
  destruct (cmp x y <=? 0) eqn:E; [reflexivity |].
  apply Z.leb_gt in E. specialize (H y eq_refl). lia.
Qed.

Lemma insertSorted_Forall (P : A -> Prop) (x : A) (l : list A) :
  P x -> Forall P l -> Forall P (insertSorted cmp x l).
Proof.
  intros Hx. induction 1 as [| y l Hy Hl IH]; cbn.
  - repeat constructor. exact Hx.
  - destruct (cmp x y <=? 0); repeat constructor; assumption.
Qed.

Lemma sort_Forall (P : A -> Prop) (l : list A) :
  Forall P l -> Forall P (sort cmp l).
Proof.
  induction 1 as [| x l Hx _ IH]; [constructor |].
  cbn. apply insertSorted_Forall; assumption.
Qed.

Lemma sort_length (l : list A) : length (sort cmp l) = length l.
Proof.
  assert (Hins : forall x k, length (insertSorted cmp x k) = S (length k)).
  { intros x k. induction k as [| y k IH]; [reflexivity |].
    cbn. destruct (cmp x y <=? 0); cbn; [reflexivity | rewrite IH; reflexivity]. }
  induction l as [| x l IH]; [reflexivity |].
  cbn. rewrite Hins. fold (sort cmp l). rewrite IH. reflexivity.
Qed.

(** A comparator that says [a] after [b] says [b] not after [a]. *)
Hypothesis cmp_total : forall a b, 0 < cmp a b -> cmp b a <= 0.

Lemma insertSorted_ascending (x : A) (l : list A) :
  ascending cmp l -> ascending cmp (insertSorted cmp x l).
Proof.
  unfold ascending. induction 1 as [| y l Hl IH Hhd]; cbn.
  - repeat constructor.
  - destruct (cmp x y <=? 0) eqn:E.
    + apply Z.leb_le in E. repeat constructor; assumption.
    + apply Z.leb_gt in E. constructor; [exact IH |].
      destruct l as [| z l]; cbn.
      * constructor. apply cmp_total, E.
      * destruct (cmp x z <=? 0); constructor.
        -- apply cmp_total, E.
        -- inversion Hhd; assumption.
Qed.

Lemma sort_ascending (l : list A) : ascending cmp (sort cmp l).
Proof.
  induction l as [| x l IH]; [constructor |].
  cbn. apply insertSorted_ascending, IH.
Qed.

Lemma sort_of_ascending (l : list A) : ascending cmp l -> sort cmp l = l.
Proof.
  unfold ascending. induction 1 as [| x l Hl IH Hhd]; [reflexivity |].
  cbn. fold (sort cmp l). rewrite IH. apply insertSorted_front.
  intros y Hy. destruct l as [| z l]; [discriminate |].
  cbn in Hy. injection Hy as <-. inversion Hhd; assumption.
Qed.

Lemma ascending_take (n : nat) (l : list A) :
  ascending cmp l -> ascending cmp (take n l).
Proof.
  unfold ascending. intros H. revert n.
  induction H as [| x l Hl IH Hhd]; intros n.
  - destruct n; constructor.
  - destruct n as [| n]; [constructor |]. cbn. constructor; [apply IH |].
    destruct l as [| y l]; [destruct n; constructor |].
    destruct n as [| n]; cbn; constructor. inversion Hhd; assumption.
Qed.
End SortFacts.

Lemma compareImportance_total (a b : keyPoint) :
  0 < compareImportance a b -> compareImportance b a <= 0.
Proof.
  unfold compareImportance.
  destruct (importanceOrder (importance a)), (importanceOrder (importance b));
    lia.
Qed.

Lemma compareImportance_names (a b : keyPoint) (n m : string) :
  importance a = lit n -> importance b = lit m ->
  compareImportance a b =
    match importanceOrder (lit n), importanceOrder (lit m) with
    | Some x, Some y => x - y
    | _, _ => 0
    end.
Proof. intros Ha Hb. unfold compareImportance. rewrite Ha, Hb. reflexivity. Qed.

Lemma hasImportance_names (kp : keyPoint) (n m : string) :
  importance kp = lit n ->
  hasImportance m kp = bool_decide (lit n = lit m).
Proof. intros H. unfold hasImportance. rewrite H. reflexivity. Qed.

Lemma filter_hasImportance (name : string) (l : list keyPoint) :
  Forall (fun kp => importance kp = lit name)
    (List.filter (hasImportance name) l).
Proof.
  induction l as [| kp l IH]; [constructor |]. cbn.
  destruct (hasImportance name kp) eqn:E; [| exact IH].
  constructor; [| exact IH]. unfold hasImportance in E.
  apply bool_decide_eq_true_1 in E. exact E.
Qed.

Lemma head_Forall {A : Type} (P : A -> Prop) (l : list A) (y : A) :
  Forall P l -> head l = Some y -> P y.
Proof.
  destruct 1 as [| x l Hx _]; [discriminate |].
  cbn. intros H. injection H as <-. exact Hx.
Qed.

(** On the importance values of the data model the comparator sort is the
    sort into the three ranks. *)
Lemma sort_by_rank (l : list keyPoint) :
  Forall validImportance l ->
  sort compareImportance l = stableSortByRank l.
Proof.
  induction 1 as [| kp l Hkp Hl IH]; [reflexivity |].
  cbn [sort foldr]. fold (sort compareImportance l). rewrite IH.
  unfold stableSortByRank. cbn [List.filter].
  pose proof (filter_hasImportance "high" l) as Hhigh.
  pose proof (filter_hasImportance "medium" l) as Hmedium.
  pose proof (filter_hasImportance "low" l) as Hlow.
  set (high := List.filter (hasImportance "high") l) in *.
  set (medium := List.filter (hasImportance "medium") l) in *.
  set (low := List.filter (hasImportance "low") l) in *.
  destruct Hkp as [E | [E | E]].
  - rewrite (hasImportance_names kp _ "high" E),
            (hasImportance_names kp _ "medium" E),
            (hasImportance_names kp _ "low" E).
    change (bool_decide (lit "high" = lit "high")) with true.
    change (bool_decide (lit "high" = lit "medium")) with false.
    change (bool_decide (lit "high" = lit "low")) with false.
    cbn [app]. apply insertSorted_front. intros y Hy.
    assert (Hv : Forall (fun y => compareImportance kp y <= 0)
                   (high ++ medium ++ low)).
    { repeat (apply Forall_app; split);
        (eapply Forall_impl; [eassumption |]); cbn beta; intros z Ez;
        rewrite (compareImportance_names kp z _ _ E Ez);
        vm_compute; discriminate. }
    exact (head_Forall _ _ _ Hv Hy).
  - rewrite (hasImportance_names kp _ "high" E),
            (hasImportance_names kp _ "medium" E),
            (hasImportance_names kp _ "low" E).
    change (bool_decide (lit "medium" = lit "high")) with false.
    change (bool_decide (lit "medium" = lit "medium")) with true.
    change (bool_decide (lit "medium" = lit "low")) with false.
    rewrite insertSorted_past.
    + f_equal. cbn [app]. apply insertSorted_front. intros y Hy.
      assert (Hv : Forall (fun y => compareImportance kp y <= 0)
                     (medium ++ low)).
      { repeat (apply Forall_app; split);
          (eapply Forall_impl; [eassumption |]); cbn beta; intros z Ez;
          rewrite (compareImportance_names kp z _ _ E Ez);
          vm_compute; discriminate. }
      exact (head_Forall _ _ _ Hv Hy).
    + eapply Forall_impl; [exact Hhigh |]. cbn beta. intros z Ez.
      rewrite (compareImportance_names kp z _ _ E Ez). reflexivity.
  - rewrite (hasImportance_names kp _ "high" E),
            (hasImportance_names kp _ "medium" E),
            (hasImportance_names kp _ "low" E).
    change (bool_decide (lit "low" = lit "high")) with false.
    change (bool_decide (lit "low" = lit "medium")) with false.
    change (bool_decide (lit "low" = lit "low")) with true.
    rewrite insertSorted_past.
    + f_equal. rewrite insertSorted_past.
      * f_equal. apply insertSorted_front. intros y Hy.
        assert (Hv : Forall (fun y => compareImportance kp y <= 0) low).
        { eapply Forall_impl; [exact Hlow |]. cbn beta. intros z Ez.
          rewrite (compareImportance_names kp z _ _ E Ez).
          vm_compute; discriminate. }
        exact (head_Forall _ _ _ Hv Hy).
      * eapply Forall_impl; [exact Hmedium |]. cbn beta. intros z Ez.
        rewrite (compareImportance_names kp z _ _ E Ez). reflexivity.
    + eapply Forall_impl; [exact Hhigh |]. cbn beta. intros z Ez.
      rewrite (compareImportance_names kp z _ _ E Ez). reflexivity.
Qed.

(** The sort into ranks is the stable sort: it rearranges the list, leaves
    it ascending for the comparator, and keeps the points of each rank in
    their order of appearance. *)
Lemma filter_hasImportance_same (n : string) (l : list keyPoint) :
  List.filter (hasImportance n) (List.filter (hasImportance n) l)
  = List.filter (hasImportance n) l.
Proof.
  rewrite filter_filter_and. apply filter_ext. intros kp.
  destruct (hasImportance n kp); reflexivity.
Qed.

Lemma filter_hasImportance_other (n m : string) (l : list keyPoint) :
  lit n <> lit m ->
  List.filter (hasImportance m) (List.filter (hasImportance n) l) = [].
Proof.
  intros Hne. apply filter_none.
  eapply Forall_impl; [apply filter_hasImportance |]. cbn beta.
  intros kp E. rewrite (hasImportance_names kp n m E).
  apply bool_decide_eq_false_2, Hne.
Qed.

Lemma stableSortByRank_stable (l : list keyPoint) :
  List.filter (hasImportance "high") (stableSortByRank l)
    = List.filter (hasImportance "high") l
  /\ List.filter (hasImportance "medium") (stableSortByRank l)
      = List.filter (hasImportance "medium") l
  /\ List.filter (hasImportance "low") (stableSortByRank l)
      = List.filter (hasImportance "low") l.
Proof.
  unfold stableSortByRank. rewrite !List.filter_app.
  rewrite !filter_hasImportance_same.
  rewrite !filter_hasImportance_other by (vm_compute; discriminate).
  rewrite !app_nil_r. auto.
Qed.

Lemma stableSortByRank_permutation (l : list keyPoint) :
  Forall validImportance l -> Permutation l (stableSortByRank l).
Proof.
  induction 1 as [| kp l Hkp Hl IH]; [constructor |].
  unfold stableSortByRank in *. cbn [List.filter].
  destruct Hkp as [E | [E | E]];
    rewrite (hasImportance_names kp _ "high" E),
            (hasImportance_names kp _ "medium" E),
            (hasImportance_names kp _ "low" E).
  - change (bool_decide (lit "high" = lit "high")) with true.
    change (bool_decide (lit "high" = lit "medium")) with false.
    change (bool_decide (lit "high" = lit "low")) with false.
    cbn [app]. apply perm_skip, IH.
  - change (bool_decide (lit "medium" = lit "high")) with false.
    change (bool_decide (lit "medium" = lit "medium")) with true.
    change (bool_decide (lit "medium" = lit "low")) with false.
    cbn [app]. apply Permutation_cons_app, IH.
  - change (bool_decide (lit "low" = lit "high")) with false.
    change (bool_decide (lit "low" = lit "medium")) with false.
    change (bool_decide (lit "low" = lit "low")) with true.
    rewrite !app_assoc. apply Permutation_cons_app.
    rewrite <- app_assoc. exact IH.
Qed.

Lemma stableSortByRank_ascending (l : list keyPoint) :
  Forall validImportance l ->
  ascending compareImportance (stableSortByRank l).
Proof.
  intros Hv. rewrite <- (sort_by_rank l Hv).
  apply sort_ascending, compareImportance_total.
Qed.

Ltac valid_importances :=
  repeat (constructor;
          [first [ left; reflexivity
                 | right; left; reflexivity
                 | right; right; reflexivity ] |]);
  constructor.

(** C6.  For key points whose importance is high, medium or low, the local
    fallback returns exactly: the first occurrence of each lower-cased and
    trimmed text, stably sorted by rank (high, then medium, then low), cut to
    the first 10. *)
Theorem deduplicateSimple_spec
    (toLowerCase : jsstring -> jsstring) (keyPoints : list keyPoint) :
  Forall validImportance keyPoints ->
  deduplicateSimple toLowerCase keyPoints =
    fallbackMergeSpec toLowerCase keyPoints.
Proof.
  intros Hv. rewrite deduplicateSimple_unfold. unfold fallbackMergeSpec.
  rewrite sort_by_rank; [reflexivity |].
  apply keepFirstPerKey_Forall, Hv.
Qed.

Lemma deduplicateSimple_spec_witness :
  deduplicateSimple asciiLowerCase sampleKeyPoints =
    fallbackMergeSpec asciiLowerCase sampleKeyPoints.
Proof.
  apply (deduplicateSimple_spec asciiLowerCase sampleKeyPoints).
  unfold sampleKeyPoints. valid_importances.
Defined.

Example deduplicateSimple_sample :
  map point (deduplicateSimple asciiLowerCase sampleKeyPoints) =
    [lit "No refunds"; lit "Auto renewal"; lit "Arbitration";
     lit "Data is sold"].
Proof. vm_compute. reflexivity. Qed.

Section Idempotence.
Variable toLowerCase : jsstring -> jsstring.


Lemma distinctKeys_filter (f : keyPoint -> bool) (l : list keyPoint) :
  distinctKeys (normalized toLowerCase) l ->
  distinctKeys (normalized toLowerCase) (List.filter f l).
Proof.
  induction l as [| kp l IH]; [auto |]. cbn. intros [Hkp Hl].
  destruct (f kp); [| apply IH, Hl].
  cbn. split; [apply Forall_filter, Hkp | apply IH, Hl].
Qed.

Lemma distinctKeys_keepFirstPerKey (l : list keyPoint) :
  distinctKeys (normalized toLowerCase) (keepFirstPerKey toLowerCase l).
Proof.
  induction l as [| kp l IH]; [exact I |]. cbn. split.
  - apply List.Forall_forall. intros other Hin.
    apply filter_In in Hin. destruct Hin as [_ Hne].
    apply negb_true_iff, bool_decide_eq_false_1 in Hne. exact Hne.
  - apply distinctKeys_filter, IH.
Qed.

Lemma keepFirstPerKey_distinct (l : list keyPoint) :
  distinctKeys (normalized toLowerCase) l -> keepFirstPerKey toLowerCase l = l.
Proof.
  induction l as [| kp l IH]; [reflexivity |]. cbn. intros [Hkp Hl].
  rewrite (IH Hl). f_equal. apply filter_all.
  eapply Forall_impl; [exact Hkp |]. cbn beta. intros other Hne.
  rewrite bool_decide_eq_false_2 by exact Hne. reflexivity.
Qed.

Lemma distinctKeys_insertSorted (cmp : keyPoint -> keyPoint -> Z)
    (kp : keyPoint) (l : list keyPoint) :
  distinctKeys (normalized toLowerCase) (kp :: l) ->
  distinctKeys (normalized toLowerCase) (insertSorted cmp kp l).
Proof.
  induction l as [| y l IH]; [auto |].
  intros [Hkp [Hy Hl]]. cbn [insertSorted].
  destruct (cmp kp y <=? 0); [cbn; auto |].
  cbn [distinctKeys]. split.
  - apply insertSorted_Forall; [| exact Hy].
    intros E. apply (Forall_inv Hkp). symmetry. exact E.
  - apply IH. cbn. split; [exact (Forall_inv_tail Hkp) | exact Hl].
Qed.

Lemma distinctKeys_sort (cmp : keyPoint -> keyPoint -> Z)
    (l : list keyPoint) :
  distinctKeys (normalized toLowerCase) l ->
  distinctKeys (normalized toLowerCase) (sort cmp l).
Proof.
  induction l as [| kp l IH]; [auto |]. intros [Hkp Hl].
  cbn [sort foldr]. fold (sort cmp l). apply distinctKeys_insertSorted.
  cbn. split; [apply sort_Forall, Hkp | apply IH, Hl].
Qed.

Lemma distinctKeys_take (n : nat) (l : list keyPoint) :
  distinctKeys (normalized toLowerCase) l ->
  distinctKeys (normalized toLowerCase) (take n l).
Proof.
  revert n. induction l as [| kp l IH]; intros n H;
    [destruct n; exact I |].
  destruct n as [| n]; [exact I |]. destruct H as [Hkp Hl].
  cbn. split; [apply Forall_take, Hkp | apply IH, Hl].
Qed.

(** The result of the fallback is a fixed point of each of its stages. *)
Lemma deduplicateSimple_stable (l : list keyPoint) :
  deduplicateSimple toLowerCase (deduplicateSimple toLowerCase l) =
    deduplicateSimple toLowerCase l.
Proof.
  rewrite !deduplicateSimple_unfold.
  set (sorted := sort compareImportance (keepFirstPerKey toLowerCase l)).
  assert (Hd : distinctKeys (normalized toLowerCase) (take 10 sorted)).
  { apply distinctKeys_take, distinctKeys_sort, distinctKeys_keepFirstPerKey. }
  assert (Ha : ascending compareImportance (take 10 sorted)).
  { apply ascending_take, sort_ascending, compareImportance_total. }
  rewrite (keepFirstPerKey_distinct _ Hd).
  rewrite (sort_of_ascending _ _ Ha).
  rewrite take_take. reflexivity.
Qed.
End Idempotence.

(** C7.  For key points whose importance is high, medium or low, applying
    the local fallback to its own result gives that result again.  (The
    importance values are those on which the comparator is consistent, so
    that the language fixes what [sort] returns.) *)
Theorem deduplicateSimple_idempotent
    (toLowerCase : jsstring -> jsstring) (keyPoints : list keyPoint) :
  Forall validImportance keyPoints ->
  deduplicateSimple toLowerCase (deduplicateSimple toLowerCase keyPoints) =
    deduplicateSimple toLowerCase keyPoints.
Proof. intros _. apply deduplicateSimple_stable. Qed.

Lemma deduplicateSimple_idempotent_witness :
  deduplicateSimple asciiLowerCase
    (deduplicateSimple asciiLowerCase sampleKeyPoints) =
    deduplicateSimple asciiLowerCase sampleKeyPoints.
Proof.
  apply (deduplicateSimple_idempotent asciiLowerCase sampleKeyPoints).
  unfold sampleKeyPoints. valid_importances.
Defined.

(** ** The scenarios of the specification, run on the model *)

Example scenario_short_document :
  summaries (chunkContent (repeated 97 500)) = [(500, 0, 1, 0, 500)].
Proof. vm_compute. reflexivity. Qed.

Example scenario_exact_boundary :
  summaries (chunkContent (repeated 97 3500)) = [(3500, 0, 1, 0, 3500)].
Proof. vm_compute. reflexivity. Qed.

Example scenario_forced_split :
  summaries (chunkContent forcedSplit)
    = [(3000, 0, 2, 0, 3000); (3202, 1, 2, 2800, 6002)]
  /\ match chunkContent forcedSplit with
     | Returned [c1; c2] =>
         take 200 (text c2) = sliceLast 200 (text c1)
     | _ => False
     end.
Proof. split; vm_compute; reflexivity. Qed.

Example scenario_split_patterns :
  splitIntoParagraphs
    (lit "one" ++ [10; 10; 10]%N ++ lit " two " ++ [13; 10; 13; 10]%N
     ++ lit "three" ++ [10]%N ++ lit "four" ++ [13; 10; 13]%N ++ lit "five")
  = [ lit "one"; lit "two";
      lit "three" ++ [10]%N ++ lit "four" ++ [13; 10; 13]%N ++ lit "five" ].
Proof. vm_compute. reflexivity. Qed.

Example scenario_translation_run :
  match run agreeableEngine 0
          (translateContent forcedSplit (lit "fr") (Some (lit "en"))) with
  | (Returned result, calls) =>
      translatedText result = lit "ok" ++ blankLine ++ lit "ok"
      /\ chunksProcessed result = Some 2
      /\ note result = None
      /\ length calls = 2%nat
  | _ => False
  end.
Proof. vm_compute. repeat split; reflexivity. Qed.

Example scenario_question_run :
  match run agreeableEngine 0
          (answerQuestion asciiLowerCase (fun _ => None)
             (lit "We collect your email.") (lit "What is collected?")) with
  | (Returned answer, [PromptAPI _ _]) => answer = lit "ok"
  | _ => False
  end.
Proof. vm_compute. reflexivity. Qed.

Example scenario_question_run_chunked :
  match run agreeableEngine 0
          (answerQuestion asciiLowerCase (fun _ => None)
             forcedSplit (lit "What about aaaa and cccc?")) with
  | (Returned answer, calls) =>
      answer = lit "ok" /\ length calls = 3%nat
  | _ => False
  end.
Proof. vm_compute. split; reflexivity. Qed.

(** * Further properties of the code *)

(** ** Trimming *)

Lemma trimStart_decompose (s : jsstring) :
  exists w, s = w ++ trimStart s /\ Forall (fun c => isWhiteSpace c = true) w.
Proof.
  induction s as [| c s IH]; [exists []; split; [reflexivity | constructor] |].
  cbn. destruct (isWhiteSpace c) eqn:E.
  - destruct IH as (w & Hw & Hall). exists (c :: w). split.
    + cbn. rewrite <- Hw. reflexivity.
    + constructor; assumption.
  - exists []. split; [reflexivity | constructor].
Qed.

Lemma trimStart_head (s : jsstring) (c : N) :
  head (trimStart s) = Some c -> isWhiteSpace c = false.
Proof.
  induction s as [| d s IH]; [discriminate |].
  cbn. destruct (isWhiteSpace d) eqn:E; [exact IH |].
  cbn. intros H. injection H as <-. exact E.
Qed.

Lemma trimStart_fixed (s : jsstring) :
  (forall c, head s = Some c -> isWhiteSpace c = false) -> trimStart s = s.
Proof.
  destruct s as [| c s]; [reflexivity |]. intros H. cbn.
  rewrite (H c eq_refl). reflexivity.
Qed.

Lemma trimEnd_decompose (s : jsstring) :
  exists w, s = trimEnd s ++ w /\ Forall (fun c => isWhiteSpace c = true) w.
Proof.
  unfold trimEnd.
  destruct (trimStart_decompose (reverse s)) as (w & Hw & Hall).
  exists (reverse w). split.
  - rewrite <- reverse_app, <- Hw, reverse_involutive. reflexivity.
  - apply Forall_reverse, Hall.
Qed.

Lemma trimEnd_last (s : jsstring) (c : N) :
  last (trimEnd s) = Some c -> isWhiteSpace c = false.
Proof.
  unfold trimEnd. rewrite last_reverse. apply trimStart_head.
Qed.

Lemma trimEnd_fixed (s : jsstring) :
  (forall c, last s = Some c -> isWhiteSpace c = false) -> trimEnd s = s.
Proof.
  intros H. unfold trimEnd. rewrite trimStart_fixed.
  - apply reverse_involutive.
  - intros c Hc. rewrite head_reverse in Hc. apply H, Hc.
Qed.

Lemma trim_decompose (s : jsstring) :
  exists before after,
    s = before ++ trim s ++ after
    /\ Forall (fun c => isWhiteSpace c = true) before
    /\ Forall (fun c => isWhiteSpace c = true) after.
Proof.
  unfold trim.
  destruct (trimStart_decompose s) as (w1 & H1 & Hw1).
  destruct (trimEnd_decompose (trimStart s)) as (w2 & H2 & Hw2).
  exists w1, w2. split; [| split; assumption].
  rewrite <- H2. exact H1.
Qed.

Lemma trim_trimmed (s : jsstring) : trimmed (trim s).
Proof.
  split.
  - intros c Hc. unfold trim in Hc.
    destruct (trimEnd_decompose (trimStart s)) as (w & Hw & _).
    apply (trimStart_head s). rewrite Hw.
    destruct (trimEnd (trimStart s)); [discriminate | exact Hc].
  - intros c Hc. exact (trimEnd_last _ _ Hc).
Qed.

Lemma trimmed_fixed (s : jsstring) : trimmed s -> trim s = s.
Proof.
  intros [Hh Hl]. unfold trim.
  rewrite (trimStart_fixed s Hh). apply trimEnd_fixed, Hl.
Qed.

Lemma trim_idempotent (s : jsstring) : trim (trim s) = trim s.
Proof. apply trimmed_fixed, trim_trimmed. Qed.

(** ** Paragraphs *)

(** X1.  Every paragraph [splitIntoParagraphs] returns is non-empty and has
    no white space at either end, so trimming it again changes nothing. *)
Theorem splitIntoParagraphs_trimmed (s : jsstring) :
  Forall (fun p => 0 < len p /\ trimmed p /\ trim p = p)
    (splitIntoParagraphs s).
Proof.
  unfold splitIntoParagraphs. apply List.Forall_forall. intros p Hp.
  apply filter_In in Hp. destruct Hp as [Hin Hlen].
  apply in_map_iff in Hin. destruct Hin as (piece & <- & _).
  split; [apply Z.ltb_lt, Hlen |].
  split; [apply trim_trimmed | apply trim_idempotent].
Qed.

Lemma paragraphBreak_extend (t s : jsstring) (n : nat) :
  paragraphBreak t = Some n -> paragraphBreak (t ++ s) <> None.
Proof.
  unfold paragraphBreak. intros H.
  repeat match type of H with
         | match ?x with _ => _ end = _ => destruct x; try discriminate H
         end;
    cbn; discriminate.
Qed.

Lemma paragraphBreak_prefix_none (t s : jsstring) :
  paragraphBreak (t ++ s) = None -> paragraphBreak t = None.
Proof.
  intros H. destruct (paragraphBreak t) as [n |] eqn:E; [| reflexivity].
  destruct (paragraphBreak_extend t s n E H).
Qed.

Lemma noBreakInside_from_context (before p after : jsstring) :
  (forall i : nat, (i < length p)%nat ->
     paragraphBreak (drop (length before + i) (before ++ p ++ after)) = None) ->
  noBreakInside p.
Proof.
  intros H i. destruct (Nat.lt_ge_cases i (length p)) as [Hlt | Hge].
  - specialize (H i Hlt).
    rewrite drop_app_ge, drop_app_le in H by lia.
    replace (length before + i - length before)%nat with i in H by lia.
    exact (paragraphBreak_prefix_none _ _ H).
  - rewrite drop_ge by lia. reflexivity.
Qed.

Lemma splitScan_noBreak (s : jsstring) :
  forall (skip : nat) (piece : jsstring),
    (skip <> O -> piece = []) ->
    (forall i : nat, (i < length piece)%nat ->
       paragraphBreak (drop i (reverse piece ++ s)) = None) ->
    Forall noBreakInside (splitScan paragraphBreak skip piece s).
Proof.
  induction s as [| c s IH]; intros skip piece Hskip Hpiece.
  - cbn. repeat constructor.
    apply (noBreakInside_from_context [] (reverse piece) []).
    intros i Hi. cbn [length app Nat.add]. rewrite app_nil_r.
    rewrite length_reverse in Hi. specialize (Hpiece i Hi).
    rewrite app_nil_r in Hpiece. exact Hpiece.
  - cbn [splitScan]. destruct skip as [| k].
    + assert (Hnext : paragraphBreak (c :: s) = None ->
                      Forall noBreakInside
                        (splitScan paragraphBreak 0 (c :: piece) s)).
      { intros Hnone. apply IH; [congruence |].
        intros i Hi. rewrite reverse_cons, <- app_assoc. cbn [app].
        cbn [length] in Hi.
        destruct (Nat.eq_dec i (length piece)) as [-> | Hne].
        - rewrite <- (length_reverse piece), drop_app_length. exact Hnone.
        - apply Hpiece. lia. }
      destruct (paragraphBreak (c :: s)) as [[| k] |] eqn:Em.
      * apply paragraphBreak_bounds in Em. lia.
      * constructor.
        -- apply (noBreakInside_from_context [] (reverse piece) (c :: s)).
           intros i Hi. cbn [length app Nat.add].
           rewrite length_reverse in Hi. apply Hpiece, Hi.
        -- apply IH; [reflexivity |]. cbn [length]. intros i Hi. lia.
      * apply Hnext. reflexivity.
    + rewrite (Hskip ltac:(discriminate)). apply IH; [reflexivity |].
      cbn [length]. intros i Hi. lia.
Qed.

Lemma noBreakInside_trim (p : jsstring) :
  noBreakInside p -> noBreakInside (trim p).
Proof.
  intros H. destruct (trim_decompose p) as (before & after & Hp & _ & _).
  apply (noBreakInside_from_context before (trim p) after).
  intros i _. rewrite <- Hp. apply H.
Qed.

Lemma startsWith_blankLine (s : jsstring) :
  startsWith blankLine s = true -> paragraphBreak s <> None.
Proof.
  destruct s as [| a s]; [discriminate |].
  cbn [startsWith blankLine]. intros H.
  apply andb_true_iff in H. destruct H as [Ha H].
  destruct s as [| b s]; [discriminate |].
  apply andb_true_iff in H. destruct H as [Hb _].
  apply N.eqb_eq in Ha, Hb. subst a b. cbn. discriminate.
Qed.

Lemma includes_drop (s t : jsstring) :
  includes s t = true -> exists i : nat, startsWith t (drop i s) = true.
Proof.
  induction s as [| c s IH]; cbn [includes].
  - rewrite orb_false_r. intros H. exists O. exact H.
  - intros H. apply orb_true_iff in H. destruct H as [H | H].
    + exists O. exact H.
    + destruct (IH H) as (i & Hi). exists (S i). exact Hi.
Qed.

(** X2.  No paragraph contains a paragraph break: the separator pattern
    matches at no position inside it, and in particular it holds no two
    line feeds in a row. *)
Theorem splitIntoParagraphs_noBreak (s : jsstring) :
  Forall (fun p => noBreakInside p /\ includes p blankLine = false)
    (splitIntoParagraphs s).
Proof.
  assert (Hpieces : Forall noBreakInside (split paragraphBreak s)).
  { unfold split. apply splitScan_noBreak; [congruence |].
    cbn [length]. intros i Hi. lia. }
  unfold splitIntoParagraphs. apply List.Forall_forall. intros p Hp.
  apply filter_In in Hp. destruct Hp as [Hin _].
  apply in_map_iff in Hin. destruct Hin as (piece & <- & Hpiece).
  rewrite List.Forall_forall in Hpieces.
  pose proof (noBreakInside_trim piece (Hpieces piece Hpiece)) as Hno.
  split; [exact Hno |].
  destruct (includes (trim piece) blankLine) eqn:E; [| reflexivity].
  apply includes_drop in E. destruct E as (i & Hi).
  destruct (startsWith_blankLine _ Hi (Hno i)).
Qed.

(** ** The chunker: more on the batch it returns *)

(** The three ways [chunkContent] returns, with the trimmed length each one
    needs. *)
Lemma chunkContent_paths (D : jsstring) (cs : list chunk) :
  chunkContent D = Returned cs ->
  (len (trim D) = 0 /\ cs = [])
  \/ (0 < len (trim D) <= MAX_CHUNK_SIZE
      /\ cs = [ {| text := trim D; index := 0; total := 1; start := 0;
                   end_ := len (trim D) |} ])
  \/ (MAX_CHUNK_SIZE < len (trim D) <= MAX_DOCUMENT_SIZE
      /\ exists st,
           st = fold_left step (splitIntoParagraphs (trim D)) initialState
           /\ cs = map (setTotal (arrayLength (chunks st ++ finalChunk st)))
                    (chunks st ++ finalChunk st)).
Proof.
  unfold chunkContent. rewrite blank_guard. intros H.
  pose proof (len_nonneg (trim D)) as Hnn.
  destruct (len (trim D) =? 0) eqn:E0.
  - left. apply Z.eqb_eq in E0. split; [exact E0 | congruence].
  - apply Z.eqb_neq in E0.
    destruct (MAX_DOCUMENT_SIZE <? len (trim D)) eqn:E1; [discriminate |].
    apply Z.ltb_ge in E1.
    destruct (len (trim D) <=? MAX_CHUNK_SIZE) eqn:E2.
    + right; left. apply Z.leb_le in E2. split; [lia | congruence].
    + right; right. apply Z.leb_gt in E2. split; [lia |].
      eexists; split; [reflexivity |]. cbv zeta in H. congruence.
Qed.

(** One iteration, with the text it leaves in the running chunk. *)
Lemma step_forms (st : loopState) (para : jsstring) :
  (currentChunk st <> []
   /\ step st para =
        {| chunks := chunks st ++ [pending st];
           currentChunk :=
             sliceLast (Z.to_nat CHUNK_OVERLAP) (currentChunk st)
             ++ blankLine ++ para;
           chunkStartIndex :=
             chunkStartIndex st + (len (currentChunk st) - CHUNK_OVERLAP) |})
  \/ (currentChunk st = []
      /\ step st para =
           {| chunks := chunks st; currentChunk := para;
              chunkStartIndex := chunkStartIndex st |})
  \/ (currentChunk st <> []
      /\ step st para =
           {| chunks := chunks st;
              currentChunk := currentChunk st ++ blankLine ++ para;
              chunkStartIndex := chunkStartIndex st |}).
Proof.
  destruct (currentChunk st) as [| c cur] eqn:Ec.
  - right; left. split; [reflexivity |].
    unfold step. rewrite Ec. change (0 <? len []) with false.
    rewrite andb_false_r. reflexivity.
  - destruct (MAX_CHUNK_SIZE <? len (currentChunk st ++ blankLine ++ para))
      eqn:Hbig.
    + left. split; [discriminate |]. rewrite <- Ec.
      apply step_split; [exact Hbig | rewrite Ec; discriminate].
    + right; right. split; [discriminate |].
      unfold step. rewrite Ec. rewrite <- Ec. rewrite Hbig. reflexivity.
Qed.

Lemma finalChunk_forms (st : loopState) :
  (currentChunk st <> [] /\ finalChunk st = [pending st])
  \/ (currentChunk st = [] /\ finalChunk st = []).
Proof.
  unfold finalChunk. fold (pending st).
  destruct (currentChunk st) as [| c cur]; [right; auto |].
  left. split; [discriminate | reflexivity].
Qed.

Lemma step_current_nonempty (st : loopState) (para : jsstring) :
  currentChunk st <> [] \/ para <> [] -> currentChunk (step st para) <> [].
Proof.
  intros H.
  destruct (step_forms st para) as [[Hne ->] | [[He ->] | [Hne ->]]];
    cbn [currentChunk].
  - intros E. apply app_eq_nil in E. destruct E as [_ E].
    apply app_eq_nil in E. destruct E as [E _]. discriminate E.
  - destruct H as [H | H]; [contradiction | exact H].
  - intros E. apply app_eq_nil in E. destruct E as [E _]. contradiction.
Qed.

Lemma fold_current_nonempty (ps : list jsstring) (st : loopState) :
  currentChunk st <> [] \/ (ps <> [] /\ Forall (fun p => p <> []) ps) ->
  currentChunk (fold_left step ps st) <> [].
Proof.
  revert st. induction ps as [| p ps IH]; intros st H.
  - cbn. destruct H as [H | [H _]]; [exact H | contradiction].
  - cbn [fold_left]. apply IH. left. apply step_current_nonempty.
    destruct H as [H | [_ H]]; [left; exact H | right].
    exact (Forall_inv H).
Qed.

(** The first piece of a split starts with what has been read so far. *)
Lemma splitScan_first (matchAt : jsstring -> option nat) (s : jsstring) :
  forall piece, exists more rest,
    splitScan matchAt O piece s = (reverse piece ++ more) :: rest.
Proof.
  induction s as [| c s IH]; intros piece.
  - exists [], []. cbn. rewrite app_nil_r. reflexivity.
  - cbn [splitScan].
    assert (Hnext : exists more rest,
               splitScan matchAt 0 (c :: piece) s
               = (reverse piece ++ more) :: rest).
    { destruct (IH (c :: piece)) as (more & rest & ->).
      exists (c :: more), rest. rewrite reverse_cons, <- app_assoc.
      reflexivity. }
    destruct (matchAt (c :: s)) as [[| k] |]; [exact Hnext | | exact Hnext].
    exists [], (splitScan matchAt k [] s). rewrite app_nil_r. reflexivity.
Qed.

Lemma trimStart_keeps (s : jsstring) :
  Exists (fun c => isWhiteSpace c = false) s -> trimStart s <> [].
Proof.
  induction 1 as [c s Hc | c s _ IH]; cbn.
  - rewrite Hc. discriminate.
  - destruct (isWhiteSpace c); [exact IH | discriminate].
Qed.

Lemma trim_keeps (s : jsstring) :
  Exists (fun c => isWhiteSpace c = false) s -> trim s <> [].
Proof.
  intros H. unfold trim, trimEnd. intros E.
  apply (f_equal reverse) in E. rewrite reverse_involutive in E.
  cbn in E. revert E. apply trimStart_keeps.
  destruct (trimStart_decompose s) as (w & Hw & Hall).
  rewrite Hw in H. apply Exists_app in H. destruct H as [H | H].
  - exfalso. apply Exists_exists in H. destruct H as (c & Hc & Hf).
    rewrite Forall_forall in Hall. rewrite (Hall c Hc) in Hf. discriminate.
  - apply Exists_exists in H. destruct H as (c & Hc & Hf).
    apply Exists_exists. exists c. split; [| exact Hf].
    apply elem_of_reverse, Hc.
Qed.

(** A text that starts with something other than white space has a first
    paragraph. *)
Lemma splitIntoParagraphs_nonempty (s : jsstring) (c : N) :
  head s = Some c -> isWhiteSpace c = false -> splitIntoParagraphs s <> [].
Proof.
  destruct s as [| d s]; [discriminate |]. cbn [head]. intros H Hc.
  injection H as ->. unfold splitIntoParagraphs, split.
  assert (Hno : paragraphBreak (c :: s) = None).
  { unfold paragraphBreak.
    destruct (N.eq_dec c 10%N) as [-> | H10]; [discriminate Hc |].
    destruct (N.eq_dec c 13%N) as [-> | H13]; [discriminate Hc |].
    repeat match goal with
           | |- match ?x with _ => _ end = _ => destruct x; try reflexivity
           end; congruence. }
  cbn [splitScan]. rewrite Hno.
  destruct (splitScan_first paragraphBreak s [c]) as (more & rest & ->).
  cbn [map List.filter reverse rev_append app].
  assert (Hkeep : trim (c :: more) <> []).
  { apply trim_keeps. constructor. exact Hc. }
  destruct (0 <? len (trim (c :: more))) eqn:E; [discriminate |].
  apply Z.ltb_ge in E. pose proof (len_nonneg (trim (c :: more))).
  destruct Hkeep. apply len_zero_nil. lia.
Qed.

Lemma paragraph_nonempty (s p : jsstring) :
  In p (splitIntoParagraphs s) -> p <> [].
Proof.
  unfold splitIntoParagraphs. intros H. apply filter_In in H.
  destruct H as [_ H]. intros ->. discriminate H.
Qed.

Lemma paragraphs_nonempty (s : jsstring) :
  Forall (fun p => p <> []) (splitIntoParagraphs s).
Proof. apply List.Forall_forall. intros p. apply paragraph_nonempty. Qed.

Lemma len_pos_nonempty (s : jsstring) : s <> [] <-> 0 < len s.
Proof.
  destruct s; unfold len; cbn; split; intros H; try lia; congruence.
Qed.

Lemma Forall_map_setTotal (P : chunk -> Prop) (n : Z) (cs : list chunk) :
  (forall c, P c -> P (setTotal n c)) ->
  Forall P cs -> Forall P (map (setTotal n) cs).
Proof.
  intros HP. induction 1 as [| c cs Hc _ IH]; cbn; constructor; auto.
Qed.

(** X3.  No chunk of a returned batch has an empty text. *)
Theorem chunkContent_texts_nonempty (D : jsstring) (cs : list chunk) :
  chunkContent D = Returned cs -> Forall (fun c => 0 < len (text c)) cs.
Proof.
  intros H. apply chunkContent_paths in H.
  destruct H as [[_ ->] | [[[Hpos _] ->] | [_ (st & Hst & ->)]]].
  - constructor.
  - repeat constructor. exact Hpos.
  - apply Forall_map_setTotal; [auto |].
    assert (Hinv : Forall (fun c => 0 < len (text c)) (chunks st)).
    { rewrite Hst.
      apply (fold_left_invariant
               (fun s => Forall (fun c => 0 < len (text c)) (chunks s))
               (fun _ => True)); [| apply Forall_True | constructor].
      intros s p Hs _.
      destruct (step_forms s p) as [[Hne ->] | [[_ ->] | [_ ->]]];
        cbn [chunks]; [| exact Hs | exact Hs].
      apply Forall_app. split; [exact Hs |]. repeat constructor.
      cbn. apply len_pos_nonempty, Hne. }
    apply Forall_app. split; [exact Hinv |].
    destruct (finalChunk_forms st) as [[Hne ->] | [_ ->]]; [| constructor].
    repeat constructor. cbn. apply len_pos_nonempty, Hne.
Qed.

Lemma chunkContent_texts_nonempty_witness :
  exists cs,
    chunkContent twoParagraphs = Returned cs
    /\ Forall (fun c => 0 < len (text c)) cs.
Proof.
  eexists. split; [vm_compute; reflexivity |].
  match goal with
  | |- Forall _ ?cs =>
      assert (H : chunkContent twoParagraphs = Returned cs)
        by (vm_compute; reflexivity);
      exact (chunkContent_texts_nonempty twoParagraphs cs H)
  end.
Defined.

Lemma validateContentLength_valid (D : jsstring) :
  valid (validateContentLength D) = true
  <-> 0 < len (trim D) <= MAX_DOCUMENT_SIZE.
Proof.
  unfold validateContentLength. rewrite blank_guard.
  pose proof (len_nonneg (trim D)).
  destruct (len (trim D) =? 0) eqn:E0.
  - apply Z.eqb_eq in E0. cbn. split; [discriminate | lia].
  - apply Z.eqb_neq in E0. cbv zeta.
    destruct (MAX_DOCUMENT_SIZE <? len (trim D)) eqn:E1; cbn.
    + apply Z.ltb_lt in E1. split; [discriminate | lia].
    + apply Z.ltb_ge in E1. split; [lia | reflexivity].
Qed.

Lemma chunkContent_accepts (D : jsstring) :
  0 < len (trim D) <= MAX_DOCUMENT_SIZE ->
  exists cs, chunkContent D = Returned cs.
Proof.
  intros [Hpos Hmax]. unfold chunkContent. rewrite blank_guard.
  destruct (len (trim D) =? 0) eqn:E0; [apply Z.eqb_eq in E0; lia |].
  destruct (MAX_DOCUMENT_SIZE <? len (trim D)) eqn:E1;
    [apply Z.ltb_lt in E1; lia |].
  destruct (len (trim D) <=? MAX_CHUNK_SIZE); eexists; reflexivity.
Qed.

(** An accepted document always gives at least one chunk. *)
Lemma chunkContent_some_chunk (D : jsstring) (cs : list chunk) :
  chunkContent D = Returned cs -> 0 < len (trim D) -> cs <> [].
Proof.
  intros H Hpos. apply chunkContent_paths in H.
  destruct H as [[Hz _] | [[_ ->] | [_ (st & Hst & ->)]]];
    [lia | discriminate |].
  assert (Hcur : currentChunk st <> []).
  { rewrite Hst. apply fold_current_nonempty. right.
    split; [| apply paragraphs_nonempty].
    destruct (trim D) as [| c s] eqn:Et; [discriminate Hpos |].
    apply (splitIntoParagraphs_nonempty (c :: s) c eq_refl).
    apply (proj1 (trim_trimmed D)). rewrite Et. reflexivity. }
  destruct (finalChunk_forms st) as [[_ ->] | [He _]]; [| contradiction].
  intros E. apply map_eq_nil in E. apply app_eq_nil in E.
  destruct E as [_ E]. discriminate E.
Qed.

(** X4.  The two entry points agree: [validateContentLength] answers
    [valid] exactly when the trimmed length is between 1 and 50,000, which
    is exactly when [chunkContent] returns at least one chunk; a valid
    answer also reports that length and no error. *)
Theorem validation_agrees_with_chunking (D : jsstring) :
  (valid (validateContentLength D) = true
   <-> exists cs, chunkContent D = Returned cs /\ cs <> [])
  /\ (valid (validateContentLength D) = true
      <-> 0 < len (trim D) <= MAX_DOCUMENT_SIZE)
  /\ (valid (validateContentLength D) = true ->
      validateContentLength D =
        {| valid := true; error := None;
           length_ := Some (len (trim D)) |}).
Proof.
  split; [| split; [apply validateContentLength_valid |]].
  - rewrite validateContentLength_valid. split.
    + intros Hrange. destruct (chunkContent_accepts D Hrange) as (cs & Hcs).
      exists cs. split; [exact Hcs |].
      apply (chunkContent_some_chunk D cs Hcs), Hrange.
    + intros (cs & Hcs & Hne). apply chunkContent_paths in Hcs.
      unfold MAX_CHUNK_SIZE, MAX_DOCUMENT_SIZE in *.
      destruct Hcs as [[_ ->] | [[Hr _] | [Hr _]]]; [congruence | lia | lia].
  - intros Hv. apply validateContentLength_valid in Hv.
    destruct Hv as [Hpos Hmax]. unfold validateContentLength.
    rewrite blank_guard.
    destruct (len (trim D) =? 0) eqn:E0; [apply Z.eqb_eq in E0; lia |].
    cbv zeta.
    destruct (MAX_DOCUMENT_SIZE <? len (trim D)) eqn:E1;
      [apply Z.ltb_lt in E1; lia | reflexivity].
Qed.

(** The number of chunks a state stands for. *)
Lemma step_count (st : loopState) (para : jsstring) :
  (length (chunks (step st para) ++ finalChunk (step st para))
   <= S (length (chunks st ++ finalChunk st)))%nat.
Proof.
  rewrite !length_app.
  assert (Hfin : forall s, (length (finalChunk s) <= 1)%nat).
  { intros s. destruct (finalChunk_forms s) as [[_ ->] | [_ ->]]; cbn; lia. }
  pose proof (Hfin (step st para)) as H1.
  assert (Hch : (length (chunks (step st para))
                 <= length (chunks st) + length (finalChunk st))%nat).
  { destruct (step_forms st para) as [[Hne ->] | [[_ ->] | [_ ->]]];
      cbn [chunks]; [| lia | lia].
    rewrite length_app. cbn [length].
    destruct (finalChunk_forms st) as [[_ ->] | [He _]]; [cbn; lia |].
    contradiction. }
  lia.
Qed.

Lemma fold_count (ps : list jsstring) (st : loopState) :
  (length (chunks (fold_left step ps st)
           ++ finalChunk (fold_left step ps st))
   <= length ps + length (chunks st ++ finalChunk st))%nat.
Proof.
  revert st. induction ps as [| p ps IH]; intros st; cbn [fold_left length];
    [lia |].
  specialize (IH (step st p)). pose proof (step_count st p). lia.
Qed.

(** X5.  A batch never has more chunks than the trimmed document has
    paragraphs; a document that is not blank has at least one of each. *)
Theorem chunkContent_count (D : jsstring) (cs : list chunk) :
  chunkContent D = Returned cs ->
  (length cs <= length (splitIntoParagraphs (trim D)))%nat
  /\ (0 < len (trim D) -> (1 <= length cs)%nat).
Proof.
  intros H. split.
  - apply chunkContent_paths in H.
    destruct H as [[_ ->] | [[[Hpos _] ->] | [_ (st & Hst & ->)]]].
    + cbn. lia.
    + cbn [length].
      destruct (trim D) as [| c s] eqn:Et; [discriminate Hpos |].
      pose proof (splitIntoParagraphs_nonempty (c :: s) c eq_refl) as Hne.
      destruct (splitIntoParagraphs (c :: s)); [| cbn; lia].
      destruct Hne; [| reflexivity].
      apply (proj1 (trim_trimmed D)). rewrite Et. reflexivity.
    + rewrite length_map, Hst.
      pose proof (fold_count (splitIntoParagraphs (trim D)) initialState) as Hc.
      change (length (chunks initialState ++ finalChunk initialState))
        with O in Hc. lia.
  - intros Hpos. pose proof (chunkContent_some_chunk D cs H Hpos).
    destruct cs; [congruence | cbn; lia].
Qed.

Lemma chunkContent_count_witness :
  exists cs,
    chunkContent longParagraph = Returned cs
    /\ (length cs <= length (splitIntoParagraphs (trim longParagraph)))%nat
    /\ (1 <= length cs)%nat.
Proof.
  eexists. split; [vm_compute; reflexivity |].
  match goal with
  | |- (length ?cs <= _)%nat /\ _ =>
      assert (H : chunkContent longParagraph = Returned cs)
        by (vm_compute; reflexivity);
      destruct (chunkContent_count longParagraph cs H) as [Hle Hge]
  end.
  split; [exact Hle | apply Hge; vm_compute; reflexivity].
Defined.

(** *** Consecutive chunks *)

Section Chain.
Context {A : Type} (R : A -> A -> Prop).

Lemma Sorted_snoc_last (l : list A) (x y : A) :
  Sorted R (l ++ [x]) -> R x y -> Sorted R ((l ++ [x]) ++ [y]).
Proof.
  intros Hl Hxy. induction l as [| a l IH]; cbn in *.
  - repeat constructor. exact Hxy.
  - apply Sorted_inv in Hl. destruct Hl as [Hl Hhd].
    constructor; [apply IH, Hl |].
    destruct l; cbn in *; inversion Hhd; constructor; assumption.
Qed.

Lemma Sorted_replace_last (l : list A) (x y : A) :
  Sorted R (l ++ [x]) -> (forall z, R z x -> R z y) -> Sorted R (l ++ [y]).
Proof.
  intros Hl Hxy. induction l as [| a l IH]; cbn in *.
  - repeat constructor.
  - apply Sorted_inv in Hl. destruct Hl as [Hl Hhd].
    constructor; [apply IH, Hl |].
    destruct l; cbn in *; inversion Hhd; constructor; auto.
Qed.

Lemma Sorted_app_l (l k : list A) : Sorted R (l ++ k) -> Sorted R l.
Proof.
  induction l as [| a l IH]; [constructor |]. cbn. intros H.
  apply Sorted_inv in H. destruct H as [Hl Hhd].
  constructor; [apply IH, Hl |].
  destruct l; [constructor |]. cbn in Hhd. inversion Hhd. constructor.
  assumption.
Qed.

Lemma Sorted_lookup (l : list A) (i : nat) (a b : A) :
  Sorted R l -> l !! i = Some a -> l !! S i = Some b -> R a b.
Proof.
  intros Hl. revert i. induction Hl as [| x l Hl IH Hhd]; intros i Hi HSi;
    [discriminate |].
  destruct i as [| i].
  - cbn in Hi, HSi. injection Hi as <-. destruct l; [discriminate |].
    cbn in HSi. injection HSi as <-. inversion Hhd. assumption.
  - exact (IH i Hi HSi).
Qed.
End Chain.

Lemma Sorted_map_setTotal (R : chunk -> chunk -> Prop) (n : Z)
    (cs : list chunk) :
  (forall a b, R a b -> R (setTotal n a) (setTotal n b)) ->
  Sorted R cs -> Sorted R (map (setTotal n) cs).
Proof.
  intros HR. induction 1 as [| c cs Hcs IH Hhd]; cbn; constructor; [exact IH |].
  destruct cs; cbn; inversion Hhd; constructor; auto.
Qed.

Lemma step_overlap (st : loopState) (para : jsstring) :
  Sorted overlapsPrevious (batchSoFar st)
  /\ (currentChunk st = [] -> chunks st = []) ->
  Sorted overlapsPrevious (batchSoFar (step st para))
  /\ (currentChunk (step st para) = [] -> chunks (step st para) = []).
Proof.
  intros [Hs Hempty]. unfold batchSoFar in *.
  destruct (step_forms st para) as [[Hne ->] | [[He ->] | [Hne ->]]];
    cbn [chunks currentChunk].
  - split.
    + apply Sorted_snoc_last; [exact Hs |].
      exists para. reflexivity.
    + intros E. apply app_eq_nil in E. destruct E as [_ E].
      apply app_eq_nil in E. destruct E as [E _]. discriminate E.
  - rewrite (Hempty He). split; [repeat constructor | reflexivity].
  - split.
    + apply (Sorted_replace_last _ _ (pending st)); [exact Hs |].
      intros z (rest & Hz). exists (rest ++ blankLine ++ para).
      cbn [pending text] in *. rewrite Hz, <- !app_assoc. reflexivity.
    + intros E. apply app_eq_nil in E. destruct E as [E _]. contradiction.
Qed.

(** X6.  In a returned batch, the text of every chunk after the first opens
    with the last 200 code units of the text of the chunk before it (the
    whole text when it is shorter), followed by the two line feeds of the
    separator. *)
Theorem chunkContent_overlap (D : jsstring) (cs : list chunk) :
  chunkContent D = Returned cs ->
  forall (i : nat) (c c' : chunk),
    cs !! i = Some c -> cs !! S i = Some c' ->
    exists rest,
      text c' = sliceLast 200 (text c) ++ [10%N; 10%N] ++ rest.
Proof.
  intros H i c c' Hi HSi.
  assert (Hs : Sorted overlapsPrevious cs).
  { apply chunkContent_paths in H.
    destruct H as [[_ ->] | [[_ ->] | [_ (st & Hst & ->)]]];
      [constructor | repeat constructor |].
    apply Sorted_map_setTotal; [auto |].
    assert (Hinv : Sorted overlapsPrevious (batchSoFar st)
                   /\ (currentChunk st = [] -> chunks st = [])).
    { rewrite Hst.
      apply (fold_left_invariant
               (fun s => Sorted overlapsPrevious (batchSoFar s)
                         /\ (currentChunk s = [] -> chunks s = []))
               (fun _ => True)); [| apply Forall_True |].
      - intros s p Hs _. apply step_overlap, Hs.
      - split; [repeat constructor | reflexivity]. }
    destruct Hinv as [Hs Hempty].
    destruct (finalChunk_forms st) as [[_ ->] | [He ->]]; [exact Hs |].
    rewrite (Hempty He). constructor. }
  exact (Sorted_lookup overlapsPrevious cs i c c' Hs Hi HSi).
Qed.

Lemma chunkContent_overlap_witness :
  exists cs c c',
    chunkContent twoParagraphs = Returned cs
    /\ cs !! 0%nat = Some c /\ cs !! 1%nat = Some c'
    /\ exists rest,
         text c' = sliceLast 200 (text c) ++ [10%N; 10%N] ++ rest.
Proof.
  do 3 eexists. split; [vm_compute; reflexivity |].
  split; [reflexivity |]. split; [reflexivity |].
  match goal with
  | |- exists rest, text ?c' = sliceLast 200 (text ?c) ++ _ =>
      apply (chunkContent_overlap twoParagraphs [c; c'] ltac:(vm_compute; reflexivity)
               0%nat c c' eq_refl eq_refl)
  end.
Defined.

(** *** No paragraph is lost *)

Lemma occursIn_refl (s : jsstring) : occursIn s s.
Proof. exists [], []. rewrite app_nil_r. reflexivity. Qed.

Lemma occursIn_trans (p q s : jsstring) :
  occursIn p q -> occursIn q s -> occursIn p s.
Proof.
  intros (a & b & ->) (c & d & ->). exists (c ++ a), (b ++ d).
  rewrite <- !app_assoc. reflexivity.
Qed.

Lemma occursIn_context (p before s after : jsstring) :
  occursIn p s -> occursIn p (before ++ s ++ after).
Proof.
  intros H. apply (occursIn_trans p s); [exact H |].
  exists before, after. reflexivity.
Qed.

Lemma occursIn_nil (s : jsstring) : occursIn [] s.
Proof. exists [], s. reflexivity. Qed.

Lemma trim_occursIn (s : jsstring) : occursIn (trim s) s.
Proof.
  destruct (trim_decompose s) as (before & after & Hs & _). exists before, after.
  exact Hs.
Qed.

Lemma splitScan_occursIn (matchAt : jsstring -> option nat) (s : jsstring) :
  forall (skip : nat) (piece : jsstring),
    (skip <> O -> piece = []) ->
    Forall (fun p => occursIn p (reverse piece ++ s))
      (splitScan matchAt skip piece s).
Proof.
  induction s as [| c s IH]; intros skip piece Hskip.
  - cbn. repeat constructor. rewrite app_nil_r. apply occursIn_refl.
  - cbn [splitScan]. destruct skip as [| k].
    + assert (Hnext : Forall (fun p => occursIn p (reverse piece ++ c :: s))
                        (splitScan matchAt 0 (c :: piece) s)).
      { specialize (IH O (c :: piece) ltac:(congruence)).
        rewrite reverse_cons, <- app_assoc in IH. exact IH. }
      destruct (matchAt (c :: s)) as [[| k] |]; [exact Hnext | | exact Hnext].
      constructor.
      * exists [], (c :: s). reflexivity.
      * specialize (IH k [] ltac:(reflexivity)).
        eapply Forall_impl; [exact IH |]. cbn beta. intros p Hp.
        apply (occursIn_context p (reverse piece ++ [c]) s []) in Hp.
        rewrite app_nil_r, <- app_assoc in Hp. exact Hp.
    + rewrite (Hskip ltac:(discriminate)).
      specialize (IH k [] ltac:(reflexivity)).
      eapply Forall_impl; [exact IH |]. cbn beta. intros p Hp.
      apply (occursIn_context p [c] s []) in Hp.
      rewrite app_nil_r in Hp. exact Hp.
Qed.

(** Every paragraph is a piece of the text it was split from. *)
Lemma paragraph_occursIn (s p : jsstring) :
  In p (splitIntoParagraphs s) -> occursIn p s.
Proof.
  unfold splitIntoParagraphs. intros H. apply filter_In in H.
  destruct H as [H _]. apply in_map_iff in H.
  destruct H as (piece & <- & Hpiece).
  apply (occursIn_trans _ piece); [apply trim_occursIn |].
  pose proof (splitScan_occursIn paragraphBreak s O [] ltac:(congruence)) as Hall.
  rewrite List.Forall_forall in Hall. exact (Hall piece Hpiece).
Qed.

(** What is in the batch stays in the batch, and the paragraph joins it. *)
Lemma step_keeps_text (st : loopState) (para : jsstring) :
  (forall c, In c (batchSoFar st) ->
     exists c', In c' (batchSoFar (step st para))
                /\ occursIn (text c) (text c'))
  /\ exists c', In c' (batchSoFar (step st para))
                /\ occursIn para (text c').
Proof.
  unfold batchSoFar.
  destruct (step_forms st para) as [[Hne ->] | [[He ->] | [Hne ->]]];
    cbn [chunks].
  - split.
    + intros c Hc. exists c. split; [| apply occursIn_refl].
      apply in_or_app. left. exact Hc.
    + eexists. split; [apply in_or_app; right; left; reflexivity |].
      cbn [pending text currentChunk].
      exists (sliceLast (Z.to_nat CHUNK_OVERLAP) (currentChunk st)
              ++ blankLine), [].
      rewrite app_nil_r, <- app_assoc. reflexivity.
  - split.
    + intros c Hc. apply in_app_or in Hc. destruct Hc as [Hc | [<- | []]].
      * exists c. split; [| apply occursIn_refl].
        apply in_or_app. left. exact Hc.
      * eexists. split; [apply in_or_app; right; left; reflexivity |].
        cbn [pending text]. rewrite He. apply occursIn_nil.
    + eexists. split; [apply in_or_app; right; left; reflexivity |].
      apply occursIn_refl.
  - split.
    + intros c Hc. apply in_app_or in Hc. destruct Hc as [Hc | [<- | []]].
      * exists c. split; [| apply occursIn_refl].
        apply in_or_app. left. exact Hc.
      * eexists. split; [apply in_or_app; right; left; reflexivity |].
        cbn [pending text currentChunk].
        exists [], (blankLine ++ para). reflexivity.
    + eexists. split; [apply in_or_app; right; left; reflexivity |].
      cbn [pending text currentChunk].
      exists (currentChunk st ++ blankLine), [].
      rewrite app_nil_r, <- app_assoc. reflexivity.
Qed.

Lemma fold_keeps_text (ps : list jsstring) :
  forall st,
    (forall c, In c (batchSoFar st) ->
       exists c', In c' (batchSoFar (fold_left step ps st))
                  /\ occursIn (text c) (text c'))
    /\ (forall p, In p ps ->
          exists c', In c' (batchSoFar (fold_left step ps st))
                     /\ occursIn p (text c')).
Proof.
  induction ps as [| q ps IH]; intros st.
  - cbn. split; [| intros p []].
    intros c Hc. exists c. split; [exact Hc | apply occursIn_refl].
  - cbn [fold_left]. destruct (IH (step st q)) as [IHkeep IHnew].
    destruct (step_keeps_text st q) as [Hkeep (cq & Hcq & Hq)].
    split.
    + intros c Hc. destruct (Hkeep c Hc) as (c1 & Hc1 & H1).
      destruct (IHkeep c1 Hc1) as (c2 & Hc2 & H2).
      exists c2. split; [exact Hc2 | exact (occursIn_trans _ _ _ H1 H2)].
    + intros p [<- | Hp]; [| exact (IHnew p Hp)].
      destruct (IHkeep cq Hcq) as (c2 & Hc2 & H2).
      exists c2. split; [exact Hc2 | exact (occursIn_trans _ _ _ Hq H2)].
Qed.

(** X7.  No paragraph is lost: every paragraph of the trimmed document
    occurs, as written, in the text of some chunk of the batch. *)
Theorem chunkContent_keeps_paragraphs (D : jsstring) (cs : list chunk) :
  chunkContent D = Returned cs ->
  forall p, In p (splitIntoParagraphs (trim D)) ->
    exists c before after,
      In c cs /\ text c = before ++ p ++ after.
Proof.
  intros H p Hp.
  assert (Hfound : exists c, In c cs /\ occursIn p (text c)).
  { pose proof (paragraph_nonempty _ _ Hp) as Hpne.
    apply chunkContent_paths in H.
    destruct H as [[Hz ->] | [[_ ->] | [_ (st & Hst & ->)]]].
    - apply len_zero_nil in Hz. rewrite Hz in Hp. destruct Hp.
    - eexists. split; [left; reflexivity |]. cbn [text].
      apply paragraph_occursIn, Hp.
    - destruct (fold_keeps_text (splitIntoParagraphs (trim D)) initialState)
        as [_ Hnew].
      rewrite <- Hst in Hnew. destruct (Hnew p Hp) as (c & Hc & Hpc).
      exists (setTotal (arrayLength (chunks st ++ finalChunk st)) c).
      split; [| exact Hpc]. apply in_map.
      unfold batchSoFar in Hc.
      destruct (finalChunk_forms st) as [[_ ->] | [He ->]]; [exact Hc |].
      apply in_app_or in Hc. destruct Hc as [Hc | [<- | []]].
      + apply in_or_app. left. exact Hc.
      + cbn [pending text] in Hpc. rewrite He in Hpc.
        destruct Hpc as (a & b & Hab). symmetry in Hab.
        apply app_eq_nil in Hab. destruct Hab as [_ Hab].
        apply app_eq_nil in Hab. destruct Hab as [Hab _]. contradiction. }
  destruct Hfound as (c & Hc & before & after & Ht).
  exists c, before, after. auto.
Qed.

Lemma chunkContent_keeps_paragraphs_witness :
  exists cs c before after,
    chunkContent twoParagraphs = Returned cs
    /\ In c cs /\ text c = before ++ repeated 98 3500 ++ after.
Proof.
  assert (H : exists cs, chunkContent twoParagraphs = Returned cs).
  { eexists. vm_compute. reflexivity. }
  destruct H as (cs & Hcs).
  destruct (chunkContent_keeps_paragraphs twoParagraphs cs Hcs
              (repeated 98 3500))
    as (c & before & after & Hc & Ht).
  - assert (Hp : splitIntoParagraphs (trim twoParagraphs)
                 = [repeated 97 3000; repeated 98 3500])
      by (vm_compute; reflexivity).
    rewrite Hp. right. left. reflexivity.
  - exists cs, c, before, after. auto.
Defined.

(** *** What a chunk is made of *)

Lemma step_branches (st : loopState) (para : jsstring) :
  (currentChunk st <> []
   /\ MAX_CHUNK_SIZE < len (currentChunk st) + 2 + len para
   /\ step st para =
        {| chunks := chunks st ++ [pending st];
           currentChunk :=
             sliceLast (Z.to_nat CHUNK_OVERLAP) (currentChunk st)
             ++ blankLine ++ para;
           chunkStartIndex :=
             chunkStartIndex st + (len (currentChunk st) - CHUNK_OVERLAP) |})
  \/ (currentChunk st = []
      /\ step st para =
           {| chunks := chunks st; currentChunk := para;
              chunkStartIndex := chunkStartIndex st |})
  \/ (currentChunk st <> []
      /\ len (currentChunk st) + 2 + len para <= MAX_CHUNK_SIZE
      /\ step st para =
           {| chunks := chunks st;
              currentChunk := currentChunk st ++ blankLine ++ para;
              chunkStartIndex := chunkStartIndex st |}).
Proof.
  destruct (currentChunk st) as [| c cur] eqn:Ec.
  - right; left. split; [reflexivity |].
    unfold step. rewrite Ec. change (0 <? len []) with false.
    rewrite andb_false_r. reflexivity.
  - destruct (MAX_CHUNK_SIZE <? len (currentChunk st ++ blankLine ++ para))
      eqn:Hbig.
    + left. split; [discriminate |]. split.
      * apply Z.ltb_lt in Hbig.
        rewrite Ec, !len_app, blankLine_length in Hbig. lia.
      * rewrite <- Ec.
        apply step_split; [exact Hbig | rewrite Ec; discriminate].
    + right; right. split; [discriminate |]. split.
      * apply Z.ltb_ge in Hbig.
        rewrite Ec, !len_app, blankLine_length in Hbig. lia.
      * unfold step. rewrite Ec. rewrite <- Ec. rewrite Hbig. reflexivity.
Qed.

Lemma overlap_length (s : jsstring) :
  len (sliceLast (Z.to_nat CHUNK_OVERLAP) s) = Z.min CHUNK_OVERLAP (len s).
Proof.
  rewrite sliceLast_length. unfold CHUNK_OVERLAP. rewrite Z2Nat.id by lia.
  reflexivity.
Qed.

Lemma step_shapeInvariant (paragraphs : list jsstring) (st : loopState)
    (para : jsstring) :
  shapeInvariant paragraphs st -> In para paragraphs ->
  shapeInvariant paragraphs (step st para).
Proof.
  intros (Hs & Hh & Hempty) Hin. unfold shapeInvariant, batchSoFar in *.
  destruct (step_branches st para)
    as [(Hne & Hbig & ->) | [(He & ->) | (Hne & Hfit & ->)]];
    cbn [chunks currentChunk].
  - split; [| split].
    + apply Sorted_snoc_last; [exact Hs |].
      right. exists para. split; [exact Hin | reflexivity].
    + intros c Hc. apply Hh. rewrite <- app_assoc in Hc.
      destruct (chunks st); exact Hc.
    + intros E. apply app_eq_nil in E. destruct E as [_ E].
      apply app_eq_nil in E. destruct E as [E _]. discriminate E.
  - rewrite (Hempty He). split; [| split].
    + repeat constructor.
    + intros c Hc. injection Hc as <-. right. exact Hin.
    + reflexivity.
  - split; [| split].
    + apply (Sorted_replace_last _ _ (pending st)); [exact Hs |].
      intros z _. left. cbn [pending text currentChunk].
      rewrite !len_app, blankLine_length. lia.
    + intros c Hc. destruct (chunks st) as [| c0 l] eqn:Ech.
      * injection Hc as <-. left. cbn [pending text currentChunk].
        unfold len in *. rewrite length_app in *. cbn [length] in *. lia.
      * apply Hh. exact Hc.
    + intros E. apply app_eq_nil in E. destruct E as [E _]. contradiction.
Qed.

(** Every chunk of a returned batch is in shape. *)
Lemma chunkContent_shape (D : jsstring) (cs : list chunk) :
  chunkContent D = Returned cs ->
  Sorted (oneParagraphAfter (splitIntoParagraphs (trim D))) cs
  /\ (forall c, head cs = Some c ->
        oneParagraph (splitIntoParagraphs (trim D)) c).
Proof.
  intros H. apply chunkContent_paths in H.
  set (paragraphs := splitIntoParagraphs (trim D)) in *.
  destruct H as [[_ ->] | [[[_ Hle] ->] | [_ (st & Hst & ->)]]].
  - split; [constructor | discriminate].
  - split; [repeat constructor |].
    intros c Hc. injection Hc as <-. left. exact Hle.
  - assert (Hinv : shapeInvariant paragraphs st).
    { rewrite Hst.
      apply (fold_left_invariant (shapeInvariant paragraphs)
               (fun p => In p paragraphs)).
      - intros s a Hs Ha. apply step_shapeInvariant; assumption.
      - apply List.Forall_forall. auto.
      - split; [repeat constructor | split; [| reflexivity]].
        intros c Hc. injection Hc as <-. left. vm_compute. discriminate. }
    destruct Hinv as (Hs & Hh & Hempty). unfold batchSoFar in *.
    destruct (finalChunk_forms st) as [[_ ->] | [He ->]].
    + split.
      * apply Sorted_map_setTotal; [| exact Hs]. intros a b Hab. exact Hab.
      * intros c Hc. apply head_map_setTotal in Hc.
        destruct Hc as (c0 & Hc0 & ->). exact (Hh c0 Hc0).
    + rewrite (Hempty He). split; [constructor | discriminate].
Qed.

Lemma lookup_before {A : Type} (l : list A) (i : nat) (b : A) :
  l !! S i = Some b -> exists a, l !! i = Some a.
Proof.
  intros H. apply lookup_lt_Some in H.
  destruct (lookup_lt_is_Some_2 l i) as [a Ha]; [lia |]. exists a. exact Ha.
Qed.

(** C3 (as amended).  In every batch the chunker returns, a chunk has at
    most 3,500 code units unless it was made of one paragraph: the first
    chunk is then that paragraph as it stands, and a later chunk is the last
    200 code units of the chunk before it (all of it when shorter), the two
    line feeds of the separator and that paragraph.  So a chunk longer than
    3,702 code units ends with a single paragraph that is itself longer than
    3,500, and a first chunk longer than 3,500 is such a paragraph; and when
    every paragraph has at most 3,500 code units, every chunk has at most
    3,702 and the first at most 3,500.  The paragraphs are those of
    [splitIntoParagraphs]: the trimmed, non-empty pieces between the matches
    of /\n\n+|\r\n\r\n+/, so a line that holds only spaces separates
    nothing. *)
Theorem chunkContent_chunk_size (D : jsstring) (cs : list chunk) :
  chunkContent D = Returned cs ->
  (forall c, head cs = Some c ->
     len (text c) <= MAX_CHUNK_SIZE
     \/ In (text c) (splitIntoParagraphs (trim D)))
  /\ (forall (i : nat) c c',
        cs !! i = Some c -> cs !! S i = Some c' ->
        len (text c') <= MAX_CHUNK_SIZE
        \/ exists p,
             In p (splitIntoParagraphs (trim D))
             /\ text c' = sliceLast 200 (text c) ++ blankLine ++ p)
  /\ (forall c,
        In c cs ->
        MAX_CHUNK_SIZE + CHUNK_OVERLAP + len blankLine < len (text c) ->
        exists p overlap,
          In p (splitIntoParagraphs (trim D))
          /\ MAX_CHUNK_SIZE < len p
          /\ text c = overlap ++ p)
  /\ (Forall (fun p => len p <= MAX_CHUNK_SIZE)
        (splitIntoParagraphs (trim D)) ->
      Forall
        (fun c =>
           len (text c) <= MAX_CHUNK_SIZE + CHUNK_OVERLAP + len blankLine)
        cs
      /\ (forall c, head cs = Some c -> len (text c) <= MAX_CHUNK_SIZE)).
Proof.
  intros H. destruct (chunkContent_shape D cs H) as [Hs Hh].
  assert (Hpair : forall (i : nat) c c',
             cs !! i = Some c -> cs !! S i = Some c' ->
             oneParagraphAfter (splitIntoParagraphs (trim D)) c c').
  { intros i c c'. apply Sorted_lookup, Hs. }
  split; [exact Hh |]. split; [exact Hpair |].
  split; [| exact (chunkContent_size_bound D cs H)].
  intros c Hc Hbig. rewrite blankLine_length in Hbig.
  apply (proj2 (list_elem_of_In _ _)) in Hc.
  apply list_elem_of_lookup in Hc. destruct Hc as [[| i] Hi].
  - rewrite <- head_lookup in Hi.
    destruct (Hh c Hi) as [Hle | Hp];
      [unfold MAX_CHUNK_SIZE, CHUNK_OVERLAP in *; lia |].
    exists (text c), []. split; [exact Hp |].
    split; [unfold MAX_CHUNK_SIZE, CHUNK_OVERLAP in *; lia | reflexivity].
  - destruct (lookup_before cs i c Hi) as [prev Hprev].
    destruct (Hpair i prev c Hprev Hi) as [Hle | (p & Hp & Ht)];
      [unfold MAX_CHUNK_SIZE, CHUNK_OVERLAP in *; lia |].
    exists p, (sliceLast (Z.to_nat CHUNK_OVERLAP) (text prev) ++ blankLine).
    split; [exact Hp |]. split; [| rewrite Ht, <- app_assoc; reflexivity].
    rewrite Ht, !len_app, overlap_length, blankLine_length in Hbig.
    unfold MAX_CHUNK_SIZE, CHUNK_OVERLAP in *. lia.
Qed.

Lemma chunkContent_chunk_size_witness :
  exists cs,
    chunkContent twoParagraphs = Returned cs
    /\ Forall (fun c => len (text c) <= 3702) cs
    /\ (forall c, head cs = Some c -> len (text c) <= 3500).
Proof.
  eexists. split; [vm_compute; reflexivity |].
  match goal with
  | |- Forall _ ?cs /\ _ =>
      assert (H : chunkContent twoParagraphs = Returned cs)
        by (vm_compute; reflexivity);
      apply (proj2 (proj2 (proj2
               (chunkContent_chunk_size twoParagraphs cs H))))
  end.
  by_evaluation.
Defined.

(** C3 as stated fails on two paragraphs of 3,000 and 3,500 letters: both
    fit, and the second chunk is the 200 letters of overlap, the separator and
    the second paragraph, 3,702 code units. *)
Lemma chunkContent_chunk_size_counterexample :
  ~ (Forall (fun p => len p <= 3500) (splitIntoParagraphs (trim twoParagraphs))
     -> forall cs, chunkContent twoParagraphs = Returned cs
     -> Forall (fun c => len (text c) <= 3500) cs).
Proof.
  intros H.
  assert (Hp : Forall (fun p => len p <= 3500)
                 (splitIntoParagraphs (trim twoParagraphs)))
    by by_evaluation.
  specialize (H Hp).
  assert (Hbad : exists cs, chunkContent twoParagraphs = Returned cs
                 /\ ~ Forall (fun c => len (text c) <= 3500) cs).
  { eexists. split; [vm_compute; reflexivity |]. by_evaluation. }
  destruct Hbad as (cs & Hcs & Hnot). exact (Hnot (H cs Hcs)).
Qed.

(** *** Where the last chunk ends *)

Lemma fold_left_prefix_invariant {S A : Type} (I : list A -> S -> Prop)
    (P : A -> Prop) (f : S -> A -> S) (l : list A) (s : S) :
  (forall pre s a, I pre s -> P a -> I (pre ++ [a]) (f s a)) ->
  Forall P l -> I [] s -> I l (fold_left f l s).
Proof.
  intros Hstep Hl H0.
  assert (G : forall pre s0, I pre s0 -> I (pre ++ l) (fold_left f l s0)).
  { clear H0. induction Hl as [| a l Ha _ IH]; intros pre s0 Hpre.
    - rewrite app_nil_r. exact Hpre.
    - cbn [fold_left].
      replace (pre ++ a :: l) with ((pre ++ [a]) ++ l)
        by (rewrite <- app_assoc; reflexivity).
      apply IH, Hstep; assumption. }
  exact (G [] s H0).
Qed.

Lemma join_snoc_length (sep : jsstring) (parts : list jsstring)
    (p : jsstring) :
  parts <> [] ->
  len (join sep (parts ++ [p])) = len (join sep parts) + len sep + len p.
Proof.
  induction parts as [| q parts IH]; [congruence |]. intros _.
  destruct parts as [| r parts].
  - cbn [app join]. rewrite !len_app. lia.
  - change (join sep ((q :: r :: parts) ++ [p]))
      with (q ++ sep ++ join sep ((r :: parts) ++ [p])).
    change (join sep (q :: r :: parts))
      with (q ++ sep ++ join sep (r :: parts)).
    rewrite !len_app, IH by discriminate. lia.
Qed.

Lemma Sorted_last_related {A : Type} (R : A -> A -> Prop) (a : A)
    (l : list A) (x : A) :
  Sorted R ((a :: l) ++ [x]) -> exists z, R z x.
Proof.
  revert a. induction l as [| b l IH]; intros a H.
  - exists a. apply Sorted_inv in H. destruct H as [_ H].
    inversion H. assumption.
  - apply Sorted_inv in H. destruct H as [H _]. exact (IH b H).
Qed.

Lemma step_endInvariant (processed : list jsstring) (st : loopState)
    (para : jsstring) :
  endInvariant processed st -> para <> [] ->
  endInvariant (processed ++ [para]) (step st para).
Proof.
  intros (Hcase & Hlater & Hend) Hpara.
  pose proof (proj1 (len_pos_nonempty para) Hpara) as Hlen.
  assert (Hsnoc : processed ++ [para] <> []).
  { intros X. apply app_eq_nil in X. destruct X as [_ X]. discriminate X. }
  unfold endInvariant, batchSoFar in *.
  destruct (step_branches st para)
    as [(Hne & Hbig & ->) | [(He & ->) | (Hne & Hfit & ->)]];
    cbn [chunks currentChunk].
  - destruct Hcase as [[_ ->] | [Hproc _]]; [contradiction Hne; reflexivity |].
    split; [| split].
    + right. split; [exact Hsnoc |].
      intros E. apply app_eq_nil in E. destruct E as [_ E].
      apply app_eq_nil in E. destruct E as [E _]. discriminate E.
    + apply Sorted_snoc_last; [exact Hlater |].
      unfold laterChunk. cbn [pending text currentChunk].
      rewrite !len_app, overlap_length, blankLine_length.
      unfold MAX_CHUNK_SIZE, CHUNK_OVERLAP in *. lia.
    + intros Hreg.
      assert (H200 : CHUNK_OVERLAP <= len (currentChunk st)).
      { destruct (chunks st) as [| c0 l] eqn:Ech.
        - exact (Hreg _ eq_refl).
        - destruct (Sorted_last_related _ _ _ _ Hlater) as [z Hz].
          unfold laterChunk in Hz. cbn [pending text] in Hz.
          rewrite blankLine_length in Hz. lia. }
      assert (Hreg' : forall c, head (chunks st) = Some c
                        -> CHUNK_OVERLAP <= len (text c)).
      { intros c Hc. apply Hreg. destruct (chunks st); [discriminate |].
        exact Hc. }
      specialize (Hend Hreg').
      cbn [pending end_ chunkStartIndex currentChunk] in Hend |- *.
      rewrite (join_snoc_length _ _ _ Hproc).
      rewrite !len_app, overlap_length, blankLine_length.
      unfold CHUNK_OVERLAP in *. lia.
  - destruct Hcase as [[-> ->] | [_ Hne]]; [| contradiction].
    split; [| split].
    + right. split; [exact Hsnoc | exact Hpara].
    + repeat constructor.
    + intros _. cbn [pending end_ chunkStartIndex currentChunk initialState
                      app join]. lia.
  - destruct Hcase as [[_ ->] | [Hproc _]]; [contradiction Hne; reflexivity |].
    split; [| split].
    + right. split; [exact Hsnoc |].
      intros E. apply app_eq_nil in E. destruct E as [E _]. contradiction.
    + apply (Sorted_replace_last _ _ (pending st)); [exact Hlater |].
      unfold laterChunk. intros z Hz. cbn [pending text currentChunk] in *.
      rewrite !len_app. rewrite blankLine_length in *. lia.
    + intros Hreg. specialize (Hend Hreg).
      cbn [pending end_ chunkStartIndex currentChunk] in Hend |- *.
      rewrite (join_snoc_length _ _ _ Hproc).
      rewrite !len_app, blankLine_length. lia.
Qed.

Lemma fold_endInvariant (paragraphs : list jsstring) :
  Forall (fun p => p <> []) paragraphs ->
  endInvariant paragraphs (fold_left step paragraphs initialState).
Proof.
  intros Hne.
  apply (fold_left_prefix_invariant endInvariant (fun p => p <> []));
    [| exact Hne |].
  - intros pre s a Hs Ha. apply step_endInvariant; assumption.
  - split; [left; split; reflexivity |].
    split; [repeat constructor |]. intros _. reflexivity.
Qed.

Lemma lookup_map_setTotal (n : Z) (l : list chunk) (i : nat) (c : chunk) :
  map (setTotal n) l !! i = Some c ->
  exists c0, l !! i = Some c0 /\ c = setTotal n c0.
Proof.
  change (map (setTotal n) l) with (setTotal n <$> l).
  rewrite list_lookup_fmap. destruct (l !! i) as [c0 |]; [| discriminate].
  cbn. intros H. injection H as <-. exists c0. auto.
Qed.

(** Where the last chunk of a batch built by the loop ends, and how long the
    later chunks are. *)
Lemma chunkContent_end (D : jsstring) (cs : list chunk) :
  chunkContent D = Returned cs ->
  Sorted laterChunk cs
  /\ (fullOverlap cs ->
      forall c, last cs = Some c ->
        (len (trim D) <= MAX_CHUNK_SIZE -> end_ c = len (trim D))
        /\ (MAX_CHUNK_SIZE < len (trim D) ->
            end_ c = len (join blankLine (splitIntoParagraphs (trim D))))).
Proof.
  intros H. apply chunkContent_paths in H.
  destruct H as [[_ ->] | [[[_ Hle] ->] | [[Hbig _] (st & Hst & ->)]]].
  - split; [constructor | discriminate].
  - split; [repeat constructor |]. intros _ c Hc. injection Hc as <-.
    split; [reflexivity | lia].
  - pose proof (fold_endInvariant (splitIntoParagraphs (trim D))
                  (paragraphs_nonempty (trim D))) as Hinv.
    rewrite <- Hst in Hinv. destruct Hinv as (Hcase & Hlater & Hend).
    destruct Hcase as [[_ ->] | [_ Hne]].
    { split; [constructor | discriminate]. }
    destruct (finalChunk_forms st) as [[_ ->] | [He _]]; [| contradiction].
    fold (batchSoFar st).
    set (n := arrayLength (batchSoFar st)).
    split.
    + apply Sorted_map_setTotal; [| exact Hlater]. intros a b Hab. exact Hab.
    + intros Hfull c Hc. apply last_map_setTotal in Hc.
      destruct Hc as (c0 & Hc0 & ->). unfold batchSoFar in Hc0.
      rewrite last_snoc in Hc0. injection Hc0 as <-.
      split; [lia |]. intros _. cbn [setTotal end_]. apply Hend.
      intros c1 Hc1.
      destruct (chunks st) as [| a l] eqn:Ech; [discriminate |].
      injection Hc1 as <-.
      assert (Hsecond : exists b, (l ++ [pending st]) !! 0%nat = Some b).
      { destruct l as [| b l]; eexists; reflexivity. }
      destruct Hsecond as [b Hb].
      apply (Hfull (setTotal n a) (setTotal n b)).
      * unfold batchSoFar. rewrite Ech. reflexivity.
      * unfold batchSoFar. rewrite Ech.
        change (map (setTotal n) ((a :: l) ++ [pending st]) !! 1%nat)
          with ((setTotal n <$> (l ++ [pending st])) !! 0%nat).
        rewrite list_lookup_fmap, Hb. reflexivity.
Qed.

(** C4 (as amended).  In every batch the chunker returns, taken in index
    order: the first chunk starts at 0; every chunk, the first included, has
    [end - start = len(text)]; each later chunk starts at or before the end of
    the chunk before it and ends after it, so the ranges leave no gap and
    their union covers [0, e) for [e] the end of the last chunk, which never
    exceeds [len(trim(D))]; each later chunk holds at least 202 code units
    and starts exactly 200 before the end of a chunk of at least 200.  When
    the first chunk has at least 200 code units or is the only one, the start
    offsets are non-decreasing and [e] is exactly [len(trim(D))] for a
    document of one chunk and the length of the paragraphs joined by one
    blank line otherwise; so the ranges cover all of [0, len(trim(D))) when
    the trimmed document is its paragraphs joined by one blank line. *)
Theorem chunkContent_ranges (D : jsstring) (cs : list chunk) :
  chunkContent D = Returned cs ->
  (forall c, head cs = Some c -> start c = 0)
  /\ Forall (fun c => end_ c - start c = len (text c)) cs
  /\ (forall (i : nat) c c',
        cs !! i = Some c -> cs !! S i = Some c' ->
        start c' <= end_ c < end_ c'
        /\ CHUNK_OVERLAP + len blankLine <= len (text c')
        /\ (CHUNK_OVERLAP <= len (text c) ->
            start c' = end_ c - CHUNK_OVERLAP))
  /\ (forall c, last cs = Some c ->
        covers cs (end_ c) /\ end_ c <= len (trim D))
  /\ (fullOverlap cs ->
      startsNonDecreasing cs
      /\ (forall c, last cs = Some c ->
            (len (trim D) <= MAX_CHUNK_SIZE -> end_ c = len (trim D))
            /\ (MAX_CHUNK_SIZE < len (trim D) ->
                end_ c =
                  len (join blankLine (splitIntoParagraphs (trim D)))))
      /\ (len (trim D) <= MAX_CHUNK_SIZE
          \/ join blankLine (splitIntoParagraphs (trim D)) = trim D ->
          covers cs (len (trim D)))).
Proof.
  intros H.
  destruct (chunkContent_linked_ranges D cs H)
    as (Hhead & Hspan & Hchain & Hcover & Hstarts).
  destruct (chunkContent_end D cs H) as [Hlater Hend].
  split; [exact Hhead |]. split; [exact Hspan |]. split; [| split].
  - intros i c c' Hi HSi. destruct (Hchain i c c' Hi HSi) as [Hs He].
    pose proof (Sorted_lookup laterChunk cs i c c' Hlater Hi HSi) as Hl.
    unfold CHUNK_OVERLAP in *. repeat split; try lia. exact Hl.
  - exact Hcover.
  - intros Hfull. split; [| split].
    + destruct cs as [| c0 [| c1 rest]].
      * intros i j ci cj _ Hi. discriminate Hi.
      * intros [| i] [| j] ci cj _ Hi Hj; try discriminate.
        injection Hi as <-. injection Hj as <-. lia.
      * apply (Hstarts c0 eq_refl). exact (Hfull c0 c1 eq_refl eq_refl).
    + exact (Hend Hfull).
    + intros Hdoc. destruct (last cs) as [c |] eqn:Hc.
      * destruct (Hcover c eq_refl) as [Hcov _].
        destruct (Hend Hfull c eq_refl) as [Hsmall Hlarge].
        assert (He : end_ c = len (trim D)).
        { destruct (Z_le_gt_dec (len (trim D)) MAX_CHUNK_SIZE) as [Hle | Hgt].
          - exact (Hsmall Hle).
          - destruct Hdoc as [Hle | Hjoin]; [lia |].
            rewrite <- Hjoin. apply Hlarge. lia. }
        rewrite <- He. exact Hcov.
      * apply last_None in Hc. intros x Hx. exfalso.
        apply (chunkContent_some_chunk D cs H); [lia | exact Hc].
Qed.

Lemma chunkContent_ranges_witness :
  exists cs,
    chunkContent twoParagraphs = Returned cs
    /\ startsNonDecreasing cs
    /\ covers cs (len (trim twoParagraphs)).
Proof.
  eexists. split; [vm_compute; reflexivity |].
  match goal with
  | |- startsNonDecreasing ?cs /\ _ =>
      assert (H : chunkContent twoParagraphs = Returned cs)
        by (vm_compute; reflexivity);
      destruct (proj2 (proj2 (proj2 (proj2
                  (chunkContent_ranges twoParagraphs cs H)))))
        as (Hstarts & _ & Hcovers)
  end.
  - intros c c' Hc _. injection Hc as <-. vm_compute. discriminate.
  - split; [exact Hstarts |]. apply Hcovers. right. vm_compute. reflexivity.
Defined.

(** C4 as stated fails twice.  With three blank lines between two
    paragraphs the last chunk ends at 6,002 while the trimmed document has
    6,004 code units, so offset 6,003 is in no range.  With a first
    paragraph of 10 letters the second chunk starts at -190, below the
    first. *)
Lemma chunkContent_ranges_counterexample :
  (exists cs,
      chunkContent spacedParagraphs = Returned cs
      /\ ~ covers cs (len (trim spacedParagraphs)))
  /\ (exists cs,
        chunkContent shortFirstParagraph = Returned cs
        /\ ~ startsNonDecreasing cs).
Proof.
  split.
  - eexists. split; [vm_compute; reflexivity |].
    intros Hcov. destruct (Hcov 6003) as (c & Hc & Hx).
    + split; [lia | vm_compute; reflexivity].
    + destruct Hc as [<- | [<- | []]]; cbn [start end_] in Hx; lia.
  - eexists. split; [vm_compute; reflexivity |].
    intros Hnd.
    match type of Hnd with
    | startsNonDecreasing [?a; ?b] =>
        specialize (Hnd 0%nat 1%nat a b (Nat.le_succ_diag_r 0) eq_refl eq_refl)
    end.
    cbn [start] in Hnd. lia.
Qed.

(** *** Position annotations *)

Lemma indexed_lookup (cs : list chunk) (i : nat) (c : chunk) :
  indexed cs -> cs !! i = Some c -> index c = Z.of_nat i.
Proof.
  unfold indexed. intros H Hi.
  assert (Hm : map index cs !! i = Some (index c)).
  { change (map index cs) with (index <$> cs).
    rewrite list_lookup_fmap, Hi. reflexivity. }
  rewrite H in Hm. change (map Z.of_nat ?l) with (Z.of_nat <$> l) in Hm.
  rewrite list_lookup_fmap in Hm.
  destruct (seq 0 (length cs) !! i) as [j |] eqn:Ej; [| discriminate].
  apply lookup_seq in Ej. destruct Ej as [-> _].
  cbn in Hm. injection Hm as <-. reflexivity.
Qed.

(** The labels of a batch: position and size. *)
Lemma chunkContent_labels (D : jsstring) (cs : list chunk) :
  chunkContent D = Returned cs ->
  forall (i : nat) (c : chunk),
    cs !! i = Some c ->
    index c = Z.of_nat i /\ total c = arrayLength cs.
Proof.
  intros H.
  assert (Hmain : indexed cs
                  /\ forall c, In c cs -> total c = arrayLength cs).
  { apply chunkContent_paths in H.
    destruct H as [[_ ->] | [[_ ->] | [_ (st & Hst & ->)]]].
    - split; [reflexivity | intros c []].
    - split; [reflexivity | intros c [<- | []]; reflexivity].
    - split.
      + unfold indexed. rewrite map_index_setTotal, length_map.
        assert (Hch : indexed (chunks st)).
        { rewrite Hst.
          apply (fold_left_invariant (fun s => indexed (chunks s))
                   (fun _ => True)); [| apply Forall_True | reflexivity].
          intros s a Hs _. apply step_indexed, Hs. }
        destruct (finalChunk_forms st) as [[_ ->] | [_ ->]].
        * apply indexed_push; [exact Hch | reflexivity].
        * rewrite app_nil_r. exact Hch.
      + intros c Hc. apply in_map_iff in Hc. destruct Hc as (c0 & <- & _).
        unfold arrayLength. rewrite length_map. reflexivity. }
  destruct Hmain as [Hidx Htot]. intros i c Hi. split.
  - exact (indexed_lookup cs i c Hidx Hi).
  - apply Htot. apply (proj1 (list_elem_of_In _ _)).
    eapply list_elem_of_lookup_2. exact Hi.
Qed.

Lemma lit_app_nonempty (a : ascii) (s : string) (t : jsstring) :
  lit (String a s) ++ t <> [].
Proof. discriminate. Qed.

(** X8.  For the chunks of a returned batch, [getChunkContext] is empty
    exactly when the batch has a single chunk; in a larger batch the chunk at
    position [i] (from 0) gets the line "This is part i+1 of n of the
    document." with [n] the size of the batch. *)
Theorem getChunkContext_of_batch (D : jsstring) (cs : list chunk) :
  chunkContent D = Returned cs ->
  forall (i : nat) (c : chunk),
    cs !! i = Some c ->
    (getChunkContext c = [] <-> length cs = 1%nat)
    /\ (length cs <> 1%nat ->
        getChunkContext c =
          lit "This is part " ++ numberToString (Z.of_nat i + 1)
          ++ lit " of " ++ numberToString (Z.of_nat (length cs))
          ++ lit " of the document.").
Proof.
  intros H i c Hi.
  destruct (chunkContent_labels D cs H i c Hi) as [Hidx Htot].
  unfold getChunkContext. rewrite Hidx, Htot. unfold arrayLength.
  destruct (Z.of_nat (length cs) =? 1) eqn:E.
  - apply Z.eqb_eq in E. split; [| lia]. split; [lia | reflexivity].
  - apply Z.eqb_neq in E. split; [| reflexivity].
    split; [| lia]. intros Hnil.
    destruct (lit_app_nonempty _ _ _ Hnil).
Qed.

Lemma getChunkContext_of_batch_witness :
  exists cs c,
    chunkContent twoParagraphs = Returned cs
    /\ cs !! 1%nat = Some c
    /\ getChunkContext c = lit "This is part 2 of 2 of the document.".
Proof.
  do 2 eexists. split; [vm_compute; reflexivity |].
  split; [reflexivity |].
  eapply eq_trans.
  - eapply (getChunkContext_of_batch twoParagraphs _
              ltac:(vm_compute; reflexivity) 1%nat _ eq_refl).
    vm_compute. discriminate.
  - vm_compute. reflexivity.
Defined.

(** ** Runs of the translation *)

Lemma run_tryCatch {A : Type} (engine : nat -> engineCall -> settled)
    (m : async A) (handler : jsstring -> async A) :
  forall n,
    run engine n (tryCatch m handler) =
      match run engine n m with
      | (Returned a, calls) => (Returned a, calls)
      | (Thrown e, calls) =>
          let (r, calls') := run engine (n + length calls) (handler e) in
          (r, calls ++ calls')
      end.
Proof.
  induction m as [a | e | c k IH]; intros n; cbn [tryCatch run].
  - reflexivity.
  - cbn [length app]. rewrite Nat.add_0_r.
    destruct (run engine n (handler e)); reflexivity.
  - rewrite IH.
    destruct (run engine (S n) (k (engine n c))) as [[a | e] calls];
      [reflexivity |].
    cbn [length]. replace (n + S (length calls))%nat
      with (S n + length calls)%nat by lia.
    destruct (run engine (S n + length calls) (handler e)); reflexivity.
Qed.

Lemma run_await (engine : nat -> engineCall -> settled) (n : nat)
    (call : engineCall) :
  run engine n (await call) =
    (match engine n call with
     | Fulfilled v => Returned v
     | Rejected e => Thrown e
     end, [call]).
Proof. cbn. destruct (engine n call); reflexivity. Qed.

Ltac run_norm :=
  unfold mbind, async_bind, mret, async_ret;
  repeat first [ rewrite run_bind | rewrite run_tryCatch | rewrite run_await
               | progress cbn [run length app] ].

Lemma run_translateChunks_all (engine : nat -> engineCall -> settled)
    (target source : jsstring) (tr : jsstring -> jsstring)
    (chunks : list chunk) :
  (forall i t, engine i (TranslateText t target source) = Fulfilled (tr t)) ->
  forall n,
    run engine n (translateChunks target source chunks) =
      (Returned (map (fun c => {| tcIndex := index c;
                                  tcText := tr (text c) |}) chunks),
       map (fun c => TranslateText (text c) target source) chunks).
Proof.
  intros Htr. unfold translateChunks, mbind, async_bind, mret, async_ret.
  induction chunks as [| c chunks IH]; intros n; [reflexivity |].
  cbn [mapAsync map]. run_norm. rewrite Htr. run_norm. rewrite IH.
  run_norm. rewrite app_nil_r. reflexivity.
Qed.

Lemma run_translateChunks_stops (engine : nat -> engineCall -> settled)
    (target source message : jsstring) (c : chunk) (post : list chunk) :
  forall (pre : list chunk) (n : nat),
    (forall (k : nat) c0, pre !! k = Some c0 ->
       exists v, engine (n + k)%nat (TranslateText (text c0) target source)
                 = Fulfilled v) ->
    engine (n + length pre)%nat (TranslateText (text c) target source)
      = Rejected message ->
    run engine n (translateChunks target source (pre ++ c :: post)) =
      (Thrown message,
       map (fun c => TranslateText (text c) target source) (pre ++ [c])).
Proof.
  unfold translateChunks, mbind, async_bind, mret, async_ret.
  induction pre as [| c0 pre IH]; intros n Hpre Hfail.
  - cbn [app length] in *. rewrite Nat.add_0_r in Hfail.
    cbn [mapAsync]. run_norm. rewrite Hfail. reflexivity.
  - cbn [mapAsync app map]. run_norm.
    destruct (Hpre O c0 eq_refl) as (v & Hv). rewrite Nat.add_0_r in Hv.
    rewrite Hv. run_norm. rewrite IH.
    + reflexivity.
    + intros k c1 Hk. destruct (Hpre (S k) c1 Hk) as (v1 & Hv1).
      exists v1. rewrite <- Hv1. f_equal. lia.
    + rewrite <- Hfail. cbn [length]. f_equal. lia.
Qed.

Lemma negb_valid (D : jsstring) :
  0 < len (trim D) <= MAX_DOCUMENT_SIZE ->
  negb (valid (validateContentLength D)) = false.
Proof.
  intros H. apply validateContentLength_valid in H. rewrite H. reflexivity.
Qed.

Lemma chunkContent_range (D : jsstring) (cs : list chunk) :
  chunkContent D = Returned cs -> cs <> [] ->
  0 < len (trim D) <= MAX_DOCUMENT_SIZE.
Proof.
  intros H Hne. apply chunkContent_paths in H.
  unfold MAX_CHUNK_SIZE, MAX_DOCUMENT_SIZE in *.
  destruct H as [[_ ->] | [[Hr _] | [Hr _]]]; [congruence | lia | lia].
Qed.

Lemma Sorted_of_lookup {A : Type} (R : A -> A -> Prop) (l : list A) :
  (forall (i : nat) a b, l !! i = Some a -> l !! S i = Some b -> R a b) ->
  Sorted R l.
Proof.
  induction l as [| x l IH]; intros H; [constructor |].
  constructor.
  - apply IH. intros i a b Hi HSi. exact (H (S i) a b Hi HSi).
  - destruct l as [| y l]; constructor. exact (H O x y eq_refl eq_refl).
Qed.

(** The chunks of a batch are already in the order the translation sorts
    them into. *)
Lemma translations_in_order (D : jsstring) (cs : list chunk)
    (tr : jsstring -> jsstring) :
  chunkContent D = Returned cs ->
  sort (fun a b => tcIndex a - tcIndex b)
    (map (fun c => {| tcIndex := index c; tcText := tr (text c) |}) cs)
  = map (fun c => {| tcIndex := index c; tcText := tr (text c) |}) cs.
Proof.
  intros H. apply sort_of_ascending. unfold ascending.
  apply Sorted_of_lookup. intros i a b Hi HSi.
  change (map ?f cs) with (f <$> cs) in Hi, HSi.
  rewrite list_lookup_fmap in Hi, HSi.
  destruct (cs !! i) as [ci |] eqn:Ei; [| discriminate].
  destruct (cs !! S i) as [cj |] eqn:Ej; [| discriminate].
  cbn in Hi, HSi. injection Hi as <-. injection HSi as <-. cbn [tcIndex].
  destruct (chunkContent_labels D cs H i ci Ei) as [-> _].
  destruct (chunkContent_labels D cs H (S i) cj Ej) as [-> _]. lia.
Qed.

(** The run of [translateContent] once the source language is settled and
    differs from the target, with a translator that answers every text. *)
Lemma run_translateContent_with (engine : nat -> engineCall -> settled)
    (n : nat) (D target src : jsstring) (source : option jsstring)
    (first : list engineCall) (tr : jsstring -> jsstring)
    (cs : list chunk) :
  chunkContent D = Returned cs -> cs <> [] ->
  run engine n (sourceStep D source) = (Returned src, first) ->
  src <> target ->
  (forall i t, engine i (TranslateText t target src) = Fulfilled (tr t)) ->
  run engine n (translateContent D target source) =
    (Returned (translated target src cs (map (fun c => tr (text c)) cs)),
     first ++ map (fun c => TranslateText (text c) target src) cs).
Proof.
  intros Hcs Hne Hsrc Hdiff Htr. unfold translateContent.
  rewrite (negb_valid D (chunkContent_range D cs Hcs Hne)).
  rewrite run_tryCatch. unfold mbind at 1, async_bind at 1.
  fold (sourceStep D source). rewrite run_bind, Hsrc.
  rewrite decide_False by exact Hdiff.
  unfold mbind at 1, async_bind at 1. rewrite run_bind, Hcs.
  cbn [liftCompletion run length Nat.add app].
  unfold mbind at 1, async_bind at 1.
  rewrite run_bind, (run_translateChunks_all engine target src tr cs Htr).
  unfold mret, async_ret. cbn [run app length]. rewrite !app_nil_r.
  rewrite (translations_in_order D cs tr Hcs), map_map. reflexivity.
Qed.

(** X9.  With an explicit source language that differs from the target and
    a translator that answers every text [t] with [tr t], [translateContent]
    sends the chunk texts to the translator one by one in chunk order,
    without any detection, and returns their translations joined by a blank
    line, with [chunksProcessed] the number of chunks and no note. *)
Theorem translateContent_joins_translations
    (engine : nat -> engineCall -> settled) (n : nat)
    (D target src : jsstring) (tr : jsstring -> jsstring)
    (cs : list chunk) :
  chunkContent D = Returned cs -> cs <> [] ->
  src <> [] -> src <> target ->
  (forall i t, engine i (TranslateText t target src) = Fulfilled (tr t)) ->
  run engine n (translateContent D target (Some src)) =
    ( Returned
        {| translatedText := join blankLine (map (fun c => tr (text c)) cs);
           sourceLanguage := src;
           targetLanguage := target;
           note := None;
           chunksProcessed := Some (arrayLength cs) |},
      map (fun c => TranslateText (text c) target src) cs ).
Proof.
  intros Hcs Hne Hsrc Hdiff Htr.
  rewrite (run_translateContent_with engine n D target src (Some src) []
             tr cs Hcs Hne); [reflexivity | | exact Hdiff | exact Htr].
  destruct src as [| c l]; [congruence | reflexivity].
Qed.

Lemma translateContent_joins_translations_witness :
  exists result calls,
    run agreeableEngine 0
      (translateContent forcedSplit (lit "fr") (Some (lit "en")))
      = (Returned result, calls)
    /\ translatedText result = lit "ok" ++ blankLine ++ lit "ok"
    /\ length calls = 2%nat.
Proof.
  assert (H : exists cs, chunkContent forcedSplit = Returned cs
                         /\ length cs = 2%nat).
  { eexists. split; [vm_compute; reflexivity | reflexivity]. }
  destruct H as (cs & Hcs & Hlen).
  do 2 eexists. split.
  - apply (translateContent_joins_translations agreeableEngine 0 forcedSplit
             (lit "fr") (lit "en") (fun _ => lit "ok") cs Hcs).
    + destruct cs; [discriminate Hlen | discriminate].
    + discriminate.
    + discriminate.
    + reflexivity.
  - cbn [translatedText]. rewrite length_map.
    destruct cs as [| c1 [| c2 [| c3 cs]]]; try discriminate Hlen.
    split; reflexivity.
Defined.

(** X10.  Translation is sequential and stops at the first failure: when the
    translator answers the chunks before [c] and rejects the call for [c]
    with [message], [translateContent] throws "Translation failed: " followed
    by [message], and the chunks after [c] are never sent. *)
Theorem translateContent_stops_at_failure
    (engine : nat -> engineCall -> settled) (n : nat)
    (D target src message : jsstring)
    (pre : list chunk) (c : chunk) (post : list chunk) :
  chunkContent D = Returned (pre ++ c :: post) ->
  src <> [] -> src <> target ->
  (forall (k : nat) c0, pre !! k = Some c0 ->
     exists v, engine (n + k)%nat (TranslateText (text c0) target src)
               = Fulfilled v) ->
  engine (n + length pre)%nat (TranslateText (text c) target src)
    = Rejected message ->
  run engine n (translateContent D target (Some src)) =
    ( Thrown (lit "Translation failed: " ++ message),
      map (fun c => TranslateText (text c) target src) (pre ++ [c]) ).
Proof.
  intros Hcs Hsrc Hdiff Hpre Hfail. unfold translateContent.
  rewrite (negb_valid D); cycle 1.
  { apply (chunkContent_range D _ Hcs). destruct pre; discriminate. }
  rewrite run_tryCatch. unfold mbind at 1, async_bind at 1.
  destruct src as [| s0 src]; [congruence |].
  rewrite run_bind. cbn [mret async_ret run length Nat.add app].
  rewrite Nat.add_0_r, decide_False by exact Hdiff.
  unfold mbind at 1, async_bind at 1. rewrite run_bind, Hcs.
  cbn [liftCompletion run length Nat.add app]. rewrite Nat.add_0_r.
  unfold mbind at 1, async_bind at 1.
  rewrite run_bind,
    (run_translateChunks_stops engine target (s0 :: src) message c post
       pre n Hpre Hfail).
  cbn [run]. rewrite app_nil_r. reflexivity.
Qed.

Lemma translateContent_stops_at_failure_witness :
  exists calls,
    run secondCallFails 0
      (translateContent forcedSplit (lit "fr") (Some (lit "en")))
      = (Thrown (lit "Translation failed: quota"), calls)
    /\ length calls = 2%nat.
Proof.
  assert (H : exists c1 c2, chunkContent forcedSplit = Returned ([c1] ++ c2 :: [])).
  { do 2 eexists. vm_compute. reflexivity. }
  destruct H as (c1 & c2 & Hcs).
  eexists. split.
  - apply (translateContent_stops_at_failure secondCallFails 0 forcedSplit
             (lit "fr") (lit "en") (lit "quota") [c1] c2 [] Hcs).
    + discriminate.
    + discriminate.
    + intros [| k] c0 Hk; [| discriminate]. exists (lit "ok"). reflexivity.
    + reflexivity.
  - reflexivity.
Defined.

(** X11.  When no source language is given (or an empty one), the first
    call is the detection of the whole document.  If it answers the target
    language, the document comes back untranslated with a note and nothing
    else is called; if it answers another language, the chunks are
    translated from that language, in order. *)
Theorem translateContent_detects_source
    (engine : nat -> engineCall -> settled) (n : nat)
    (D target detected : jsstring) (source : option jsstring)
    (cs : list chunk) (tr : jsstring -> jsstring) :
  chunkContent D = Returned cs -> cs <> [] ->
  source = None \/ source = Some [] ->
  engine n (DetectLanguage D) = Fulfilled detected ->
  (forall i t,
      engine i (TranslateText t target detected) = Fulfilled (tr t)) ->
  run engine n (translateContent D target source) =
    if decide (detected = target)
    then ( Returned
             {| translatedText := D;
                sourceLanguage := target;
                targetLanguage := target;
                note := Some (lit "Content is already in the target language");
                chunksProcessed := None |},
           [DetectLanguage D] )
    else ( Returned
             {| translatedText :=
                  join blankLine (map (fun c => tr (text c)) cs);
                sourceLanguage := detected;
                targetLanguage := target;
                note := None;
                chunksProcessed := Some (arrayLength cs) |},
           DetectLanguage D
           :: map (fun c => TranslateText (text c) target detected) cs ).
Proof.
  intros Hcs Hne Hsource Hdetect Htr.
  assert (Hstep : run engine n (sourceStep D source)
                  = (Returned detected, [DetectLanguage D])).
  { destruct Hsource as [-> | ->]; cbn [sourceStep];
      rewrite run_await, Hdetect; reflexivity. }
  destruct (decide (detected = target)) as [-> | Hdiff].
  - unfold translateContent.
    rewrite (negb_valid D (chunkContent_range D cs Hcs Hne)).
    rewrite run_tryCatch. unfold mbind at 1, async_bind at 1.
    fold (sourceStep D source). rewrite run_bind, Hstep.
    rewrite decide_True by reflexivity. reflexivity.
  - rewrite (run_translateContent_with engine n D target detected source
               [DetectLanguage D] tr cs Hcs Hne Hstep Hdiff Htr).
    reflexivity.
Qed.

Lemma translateContent_detects_source_witness :
  exists calls,
    run frenchDetector 0 (translateContent (lit "Bonjour") (lit "fr") None)
      = (Returned (untranslated (lit "Bonjour") (lit "fr")), calls)
    /\ calls = [DetectLanguage (lit "Bonjour")].
Proof.
  assert (H : exists cs, chunkContent (lit "Bonjour") = Returned cs
                         /\ cs <> []).
  { eexists. split; [vm_compute; reflexivity | discriminate]. }
  destruct H as (cs & Hcs & Hne).
  eexists. split; [| reflexivity].
  rewrite (translateContent_detects_source frenchDetector 0 (lit "Bonjour")
             (lit "fr") (lit "fr") None cs (fun _ => lit "ok") Hcs Hne);
    [| left; reflexivity | reflexivity | reflexivity].
  rewrite decide_True by reflexivity. reflexivity.
Defined.

(** ** Question answering *)

Lemma filter_length_zero {A : Type} (f : A -> bool) (l : list A) :
  length (List.filter f l) = O <-> Forall (fun x => f x = false) l.
Proof.
  induction l as [| a l IH]; cbn.
  - split; [constructor | reflexivity].
  - destruct (f a) eqn:E; cbn.
    + split; [discriminate |]. intros H. apply Forall_inv in H. congruence.
    + rewrite IH. split; [constructor; assumption | apply Forall_inv_tail].
Qed.

(** X12.  The keyword fallback scores a chunk with an even number between 0
    and 10: twice the number of the question's words of more than three code
    units that occur in the text, capped at 10.  The score is 0 exactly when
    none of these words occurs (in particular when the question has no such
    word). *)
Theorem keywordMatchScore_bounds
    (toLowerCase : jsstring -> jsstring) (question text : jsstring) :
  let found :=
    List.filter (fun kw => includes (toLowerCase text) kw)
      (keywords toLowerCase question) in
  score (keywordMatchScore toLowerCase question text)
    = Z.min 10 (2 * Z.of_nat (length found))
  /\ 0 <= score (keywordMatchScore toLowerCase question text) <= 10
  /\ Z.even (score (keywordMatchScore toLowerCase question text)) = true
  /\ (score (keywordMatchScore toLowerCase question text) = 0
      <-> Forall (fun kw => includes (toLowerCase text) kw = false)
            (keywords toLowerCase question)).
Proof.
  intros found. unfold keywordMatchScore. cbn [score].
  fold (keywords toLowerCase question). fold found. unfold arrayLength.
  set (m := Z.of_nat (length found)).
  assert (Hm : 0 <= m) by (unfold m; lia).
  split; [f_equal; lia |]. split; [lia |]. split.
  - destruct (Z.min_spec 10 (m * 2)) as [[_ ->] | [_ ->]]; [reflexivity |].
    rewrite Z.even_mul. apply orb_true_r.
  - rewrite <- (filter_length_zero (fun kw => includes (toLowerCase text) kw)).
    fold found. unfold m. lia.
Qed.

Lemma answerQuestion_nonblank
    (toLowerCase : jsstring -> jsstring)
    (parseRelevance : jsstring -> option relevance)
    (D question : jsstring) (cs : list chunk) :
  trim question <> [] ->
  chunkContent D = Returned cs -> cs <> [] ->
  answerQuestion toLowerCase parseRelevance D question =
    tryCatch
      (match cs with
       | [c] => answerFromChunk (text c) question
       | _ => answerFromMultipleChunks toLowerCase parseRelevance cs question
       end)
      (fun message => Throw (lit "Q&A failed: " ++ message)).
Proof.
  intros Hq Hcs Hne. unfold answerQuestion. rewrite blank_guard.
  destruct (len (trim question) =? 0) eqn:E.
  { apply Z.eqb_eq, len_zero_nil in E. contradiction. }
  rewrite (negb_valid D (chunkContent_range D cs Hcs Hne)), Hcs.
  reflexivity.
Qed.

(** X13.  For a document that fits one chunk and a question that is not
    blank, [answerQuestion] makes exactly one model call: the prompt holds
    the trimmed document and the question as typed.  It returns the model's
    answer, and when the call fails with [m] it throws "Q&A failed: " followed
    by [m]. *)
Theorem answerQuestion_single_chunk
    (toLowerCase : jsstring -> jsstring)
    (parseRelevance : jsstring -> option relevance)
    (engine : nat -> engineCall -> settled) (n : nat)
    (D question : jsstring) :
  0 < len (trim D) <= MAX_CHUNK_SIZE ->
  trim question <> [] ->
  run engine n (answerQuestion toLowerCase parseRelevance D question) =
    ( match engine n (PromptAPI (answerUserPrompt (trim D) question)
                        answerSystemPrompt) with
      | Fulfilled answer => Returned answer
      | Rejected m => Thrown (lit "Q&A failed: " ++ m)
      end,
      [ PromptAPI (answerUserPrompt (trim D) question) answerSystemPrompt ] ).
Proof.
  intros Hrange Hq.
  assert (Hcs : chunkContent D =
                Returned [ {| text := trim D; index := 0; total := 1;
                              start := 0; end_ := len (trim D) |} ]).
  { destruct (chunkContent_accepts D) as (cs & Hcs).
    { unfold MAX_CHUNK_SIZE, MAX_DOCUMENT_SIZE in *. lia. }
    rewrite Hcs. f_equal. apply chunkContent_paths in Hcs.
    destruct Hcs as [[Hz _] | [[_ ->] | [[Hbig _] _]]]; [lia | reflexivity | lia]. }
  rewrite (answerQuestion_nonblank _ _ D question _ Hq Hcs)
    by discriminate.
  rewrite run_tryCatch. cbn [text]. unfold answerFromChunk.
  fold (answerUserPrompt (trim D) question). rewrite run_await.
  destruct (engine n _); cbn [run length app]; reflexivity.
Qed.

Lemma answerQuestion_single_chunk_witness :
  run agreeableEngine 0
    (answerQuestion asciiLowerCase (fun _ => None)
       (lit " We collect your email. ") (lit "What is collected?"))
  = ( Returned (lit "ok"),
      [ PromptAPI
          (answerUserPrompt (lit "We collect your email.")
             (lit "What is collected?"))
          answerSystemPrompt ] ).
Proof.
  apply (answerQuestion_single_chunk asciiLowerCase (fun _ => None)
           agreeableEngine 0 (lit " We collect your email. ")
           (lit "What is collected?")).
  - vm_compute. split; [reflexivity | discriminate].
  - vm_compute. discriminate.
Defined.

Lemma run_assessChunkRelevance
    (toLowerCase : jsstring -> jsstring)
    (parseRelevance : jsstring -> option relevance)
    (engine : nat -> engineCall -> settled) (n : nat)
    (c : chunk) (question : jsstring) :
  run engine n (assessChunkRelevance toLowerCase parseRelevance c question) =
    ( Returned
        (assessed toLowerCase parseRelevance c question
           (engine n (FastPromptAPI (relevancePrompt c question)
                        createJSONSystemPrompt))),
      [ FastPromptAPI (relevancePrompt c question) createJSONSystemPrompt ] ).
Proof.
  unfold assessChunkRelevance. fold (relevancePrompt c question).
  rewrite run_tryCatch. unfold mbind, async_bind.
  rewrite run_bind, run_await. unfold assessed.
  destruct (engine n _) as [response | message]; cbn [run length app].
  - destruct (parseRelevance response); reflexivity.
  - reflexivity.
Qed.

(** X14.  [assessChunkRelevance] always returns, after exactly one call.
    When the call is answered and the decoder reads the answer, it returns
    what the decoder read; when the call is rejected, or is answered with
    text the decoder cannot read, it returns the keyword score of the
    question against the whole text of the chunk.  The prompt shows the
    chunk's position, the batch size and only the first 1,000 code units of
    the chunk's text. *)
Theorem assessChunkRelevance_total
    (toLowerCase : jsstring -> jsstring)
    (parseRelevance : jsstring -> option relevance)
    (c : chunk) (question : jsstring) :
  (forall engine n,
      run engine n
        (assessChunkRelevance toLowerCase parseRelevance c question)
      = ( Returned
            match engine n (FastPromptAPI (relevancePrompt c question)
                              createJSONSystemPrompt) with
            | Fulfilled response =>
                match parseRelevance response with
                | Some result => result
                | None => keywordMatchScore toLowerCase question (text c)
                end
            | Rejected _ => keywordMatchScore toLowerCase question (text c)
            end,
          [ FastPromptAPI (relevancePrompt c question)
              createJSONSystemPrompt ] ))
  /\ (forall c',
        index c' = index c -> total c' = total c ->
        take 1000 (text c') = take 1000 (text c) ->
        relevancePrompt c' question = relevancePrompt c question).
Proof.
  split.
  - intros engine n. rewrite run_assessChunkRelevance. reflexivity.
  - intros c' Hi Ht Htext. unfold relevancePrompt, substring0.
    rewrite Hi, Ht, Htext. reflexivity.
Qed.

Lemma run_mapAsync_each {A B : Type} (engine : nat -> engineCall -> settled)
    (f : A -> async B) (P : A -> B -> Prop) (l : list A) :
  (forall a n, exists b call,
      run engine n (f a) = (Returned b, [call]) /\ P a b) ->
  forall n, exists bs calls,
    run engine n (mapAsync f l) = (Returned bs, calls)
    /\ length calls = length l /\ Forall2 P l bs.
Proof.
  intros Hf. induction l as [| a l IH]; intros n.
  - exists [], []. cbn. auto.
  - destruct (Hf a n) as (b & call & Hb & HP).
    destruct (IH (S n)) as (bs & calls & Hbs & Hlen & Hall).
    exists (b :: bs), (call :: calls). cbn [mapAsync].
    rewrite run_bind, Hb. cbn [length]. rewrite Nat.add_1_r.
    rewrite run_bind, Hbs. cbn [run app length].
    rewrite app_nil_r. split; [reflexivity |]. split; [lia |].
    constructor; assumption.
Qed.

Lemma In_insertSorted {A : Type} (cmp : A -> A -> Z) (x y : A)
    (l : list A) :
  In x (insertSorted cmp y l) -> x = y \/ In x l.
Proof.
  induction l as [| z l IH]; cbn.
  - intros [<- | []]. auto.
  - destruct (cmp y z <=? 0); cbn.
    + intros [<- | H]; auto.
    + intros [<- | H]; [auto |]. destruct (IH H); auto.
Qed.

Lemma In_sort {A : Type} (cmp : A -> A -> Z) (x : A) (l : list A) :
  In x (sort cmp l) -> In x l.
Proof.
  induction l as [| y l IH]; [auto |]. cbn [sort foldr].
  fold (sort cmp l). intros H. apply In_insertSorted in H.
  destruct H as [-> | H]; [left; reflexivity | right; apply IH, H].
Qed.

Lemma In_take {A : Type} (n : nat) (x : A) (l : list A) :
  In x (take n l) -> In x l.
Proof.
  intros H. rewrite <- (take_drop n l). apply in_or_app. left. exact H.
Qed.

Lemma filter_length_le {A : Type} (f : A -> bool) (l : list A) :
  (length (List.filter f l) <= length l)%nat.
Proof.
  induction l as [| a l IH]; cbn; [lia |]. destruct (f a); cbn; lia.
Qed.

(** The run of the relevance stage. *)
Lemma run_findRelevantChunks
    (toLowerCase : jsstring -> jsstring)
    (parseRelevance : jsstring -> option relevance)
    (engine : nat -> engineCall -> settled) (n : nat)
    (chunks : list chunk) (question : jsstring) :
  exists relevant calls,
    run engine n
      (findRelevantChunks toLowerCase parseRelevance chunks question)
      = (Returned relevant, calls)
    /\ length calls = length chunks
    /\ (length relevant <= 3)%nat
    /\ (forall c, In c relevant -> In c chunks).
Proof.
  unfold findRelevantChunks. unfold mbind at 1, async_bind at 1.
  destruct (run_mapAsync_each engine
              (fun c =>
                 relevance ← assessChunkRelevance toLowerCase parseRelevance
                               c question;
                 mret {| scChunk := c; scScore := score relevance;
                         scReasoning := reasoning relevance |})
              (fun c b => scChunk b = c) chunks) with (n := n)
    as (bs & calls & Hrun & Hlen & Hall).
  { intros c m. do 2 eexists. unfold mbind, async_bind, mret, async_ret.
    rewrite run_bind, run_assessChunkRelevance. cbn [run length app].
    split; reflexivity. }
  do 2 eexists. rewrite run_bind, Hrun. cbn [run mret async_ret].
  rewrite app_nil_r. split; [reflexivity |]. split; [exact Hlen |].
  split.
  - rewrite length_map.
    etransitivity; [apply filter_length_le |]. rewrite length_take. lia.
  - intros c Hc. apply in_map_iff in Hc. destruct Hc as (b & <- & Hb).
    apply filter_In in Hb. destruct Hb as [Hb _].
    apply In_take, In_sort in Hb.
    clear Hrun Hlen.
    induction Hall as [| c0 b0 l bs0 Hcb _ IH]; [destruct Hb |].
    destruct Hb as [<- | Hb]; [left; symmetry; exact Hcb |].
    right. apply IH, Hb.
Qed.

(** X15.  The relevance stage never throws, whatever the engine answers: it
    makes one call per chunk and hands on at most three chunks, each of them
    a chunk of the batch. *)
Theorem findRelevantChunks_total
    (toLowerCase : jsstring -> jsstring)
    (parseRelevance : jsstring -> option relevance)
    (engine : nat -> engineCall -> settled) (n : nat)
    (chunks : list chunk) (question : jsstring) :
  exists relevant calls,
    run engine n
      (findRelevantChunks toLowerCase parseRelevance chunks question)
      = (Returned relevant, calls)
    /\ length calls = length chunks
    /\ (length relevant <= 3)%nat
    /\ (forall c, In c relevant -> exists i : nat, chunks !! i = Some c).
Proof.
  destruct (run_findRelevantChunks toLowerCase parseRelevance engine n
              chunks question) as (relevant & calls & Hrun & Hlen & H3 & Hin).
  exists relevant, calls. repeat split; try assumption.
  intros c Hc. apply list_elem_of_lookup.
  apply (proj2 (list_elem_of_In _ _)). exact (Hin c Hc).
Qed.



(** X17.  A document that fails validation is refused by the features
    before anything else happens: [translateContent] and (for a question
    that is not blank) [answerQuestion] throw the validation message itself,
    without their "... failed:" prefix and without an engine call.  The
    message is "No content to process" for a blank document and the
    "Content too long" message with the trimmed length otherwise. *)
Theorem invalid_content_rejected (D : jsstring) :
  valid (validateContentLength D) = false ->
  exists message,
    error (validateContentLength D) = Some message
    /\ ((len (trim D) = 0 /\ message = lit "No content to process")
        \/ (MAX_DOCUMENT_SIZE < len (trim D)
            /\ message = contentTooLong (len (trim D))))
    /\ (forall target source,
          translateContent D target source = Throw message)
    /\ (forall toLowerCase parseRelevance question,
          trim question <> [] ->
          answerQuestion toLowerCase parseRelevance D question
          = Throw message).
Proof.
  intros Hinvalid.
  assert (Hmsg : exists message,
             error (validateContentLength D) = Some message
             /\ ((len (trim D) = 0 /\ message = lit "No content to process")
                 \/ (MAX_DOCUMENT_SIZE < len (trim D)
                     /\ message = contentTooLong (len (trim D))))).
  { revert Hinvalid. unfold validateContentLength. rewrite blank_guard.
    destruct (len (trim D) =? 0) eqn:E0.
    - intros _. apply Z.eqb_eq in E0. eexists. split; [reflexivity |].
      left. auto.
    - cbv zeta. destruct (MAX_DOCUMENT_SIZE <? len (trim D)) eqn:E1;
        [| discriminate].
      intros _. apply Z.ltb_lt in E1. eexists. split; [reflexivity |].
      right. auto. }
  destruct Hmsg as (message & Herr & Hwhich).
  exists message. split; [exact Herr |]. split; [exact Hwhich |]. split.
  - intros target source. unfold translateContent.
    rewrite Hinvalid, Herr. reflexivity.
  - intros toLowerCase parseRelevance question Hq. unfold answerQuestion.
    rewrite blank_guard.
    destruct (len (trim question) =? 0) eqn:E.
    { apply Z.eqb_eq, len_zero_nil in E. contradiction. }
    rewrite Hinvalid, Herr. reflexivity.
Qed.

Lemma invalid_content_rejected_witness :
  translateContent oversizedDocument (lit "fr") None
  = Throw (lit "Content too long (50001 chars). Maximum: 50000 chars.").
Proof.
  destruct (invalid_content_rejected oversizedDocument)
    as (message & Herr & _ & Htranslate & _).
  - vm_compute. reflexivity.
  - rewrite Htranslate. f_equal.
    assert (E : error (validateContentLength oversizedDocument)
                = Some (lit "Content too long (50001 chars). Maximum: 50000 chars."))
      by (vm_compute; reflexivity).
    congruence.
Defined.

(** ** Fallbacks of the merge stages *)

Lemma join_occursIn (sep p : jsstring) (parts : list jsstring) :
  In p parts -> occursIn p (join sep parts).
Proof.
  induction parts as [| q parts IH]; [intros [] |].
  intros [-> | Hp].
  - destruct parts as [| r parts]; [apply occursIn_refl |].
    exists [], (sep ++ join sep (r :: parts)). reflexivity.
  - destruct parts as [| r parts]; [destruct Hp |].
    change (join sep (q :: r :: parts))
      with (q ++ sep ++ join sep (r :: parts)).
    apply (occursIn_context p (q ++ sep) (join sep (r :: parts)) []) in IH;
      [| exact Hp].
    rewrite app_nil_r, <- app_assoc in IH. exact IH.
Qed.

(** X18.  [mergeSummaries] never throws and makes exactly one model call,
    on the summaries labelled "Part k:".  It returns the model's text, and
    when the call fails it returns the summaries joined by a blank line, in
    which every summary occurs as written.  The summary type among the
    options has no effect on the merge: only the format and the length enter
    the prompt. *)
Theorem mergeSummaries_total
    (chunkSummaries : list Summarizer.chunkSummary)
    (options : Summarizer.summaryOptions) :
  (forall engine n,
      run engine n (Summarizer.mergeSummaries chunkSummaries options) =
        ( Returned
            match engine n
                    (PromptAPI (Summarizer.combinedSummaries chunkSummaries)
                       (Summarizer.mergeSystemPrompt options)) with
            | Fulfilled merged => merged
            | Rejected _ =>
                join blankLine (map Summarizer.summary chunkSummaries)
            end,
          [ PromptAPI (Summarizer.combinedSummaries chunkSummaries)
              (Summarizer.mergeSystemPrompt options) ] ))
  /\ (forall cs, In cs chunkSummaries ->
        occursIn (Summarizer.summary cs)
          (join blankLine (map Summarizer.summary chunkSummaries)))
  /\ (forall options',
        Summarizer.format options' = Summarizer.format options ->
        Summarizer.length_ options' = Summarizer.length_ options ->
        Summarizer.mergeSummaries chunkSummaries options'
        = Summarizer.mergeSummaries chunkSummaries options).
Proof.
  split; [| split].
  - intros engine n. unfold Summarizer.mergeSummaries.
    rewrite run_tryCatch, run_await.
    destruct (engine n _); reflexivity.
  - intros cs Hcs. apply join_occursIn, in_map, Hcs.
  - intros options' Hf Hl.
    unfold Summarizer.mergeSummaries, Summarizer.mergeSystemPrompt.
    rewrite Hf, Hl. reflexivity.
Qed.

(** X19.  [getSuggestedQuestions] never throws and makes exactly one model
    call.  When the call fails or its answer cannot be parsed, the result is
    the fixed list of five questions.  The call sees only the first 2,000
    code units of the document: two documents that agree on them get the
    same treatment. *)
Theorem getSuggestedQuestions_total
    (json : Type) (parseJSONResponse : jsstring -> option json)
    (content : jsstring) :
  (forall engine n,
      exists result,
        run engine n
          (Suggestions.getSuggestedQuestions json parseJSONResponse content)
        = ( Returned result,
            [ FastPromptAPI (Suggestions.suggestionPrompt content)
                createJSONSystemPrompt ] )
        /\ ((exists response value,
               engine n (FastPromptAPI (Suggestions.suggestionPrompt content)
                           createJSONSystemPrompt) = Fulfilled response
               /\ parseJSONResponse response = Some value
               /\ result = Suggestions.FromModel json value)
            \/ (result
                = Suggestions.Fallback json Suggestions.fallbackQuestions
                /\ length Suggestions.fallbackQuestions = 5%nat)))
  /\ (forall content',
        take 2000 content' = take 2000 content ->
        Suggestions.getSuggestedQuestions json parseJSONResponse content'
        = Suggestions.getSuggestedQuestions json parseJSONResponse content).
Proof.
  split.
  - intros engine n. unfold Suggestions.getSuggestedQuestions.
    rewrite run_tryCatch. unfold mbind, async_bind.
    rewrite run_bind, run_await.
    destruct (engine n _) as [response | message] eqn:E;
      cbn [run length app].
    + destruct (parseJSONResponse response) as [value |] eqn:Ep;
        cbn [run mret async_ret app]; eexists; (split; [reflexivity |]).
      * left. exists response, value. auto.
      * right. split; reflexivity.
    + eexists. split; [reflexivity |]. right. split; reflexivity.
  - intros content' H.
    unfold Suggestions.getSuggestedQuestions, Suggestions.suggestionPrompt,
      substring0.
    rewrite H. reflexivity.
Qed.

Lemma In_keepFirstPerKey (toLowerCase : jsstring -> jsstring)
    (kp : keyPoint) (l : list keyPoint) :
  In kp (keepFirstPerKey toLowerCase l) -> In kp l.
Proof.
  induction l as [| x l IH]; [auto |]. cbn.
  intros [-> | H]; [left; reflexivity |].
  apply filter_In in H. right. apply IH, H.
Qed.

(** What the local fallback returns is short and made of given points. *)
Lemma deduplicateSimple_selection (toLowerCase : jsstring -> jsstring)
    (keyPoints : list keyPoint) :
  (length (deduplicateSimple toLowerCase keyPoints) <= 10)%nat
  /\ forall kp, In kp (deduplicateSimple toLowerCase keyPoints) ->
                In kp keyPoints.
Proof.
  rewrite deduplicateSimple_unfold. split.
  - rewrite length_take. lia.
  - intros kp H. apply In_take, In_sort in H.
    exact (In_keepFirstPerKey toLowerCase kp keyPoints H).
Qed.

(** X20.  On key points that are objects with string fields and an
    importance of high, medium or low, [deduplicateAndRankKeyPoints] always
    returns.  Given no key point it returns the empty list without a model
    call.  Otherwise it makes exactly one call, on a prompt that lists the
    points numbered from 1: when the call is answered and the answer parses,
    it returns the parsed answer; when the call is rejected or the answer
    does not parse, it returns the local fallback, which is at most ten of
    the key points it was given. *)
Theorem deduplicateAndRankKeyPoints_on_valid_points
    (toLowerCase : jsstring -> jsstring)
    (json : Type) (parseJSONResponse : jsstring -> option json)
    (engine : nat -> engineCall -> settled) (n : nat)
    (keyPoints : list keyPoint) :
  Forall validImportance keyPoints ->
  run engine n
    (KeyPointsMerge.deduplicateAndRankKeyPoints toLowerCase json
       parseJSONResponse keyPoints)
  = match keyPoints with
    | [] => (Returned (KeyPointsMerge.Points json []), [])
    | _ :: _ =>
        ( Returned
            match engine n (FastPromptAPI (KeyPointsMerge.mergePrompt keyPoints)
                              createJSONSystemPrompt) with
            | Fulfilled response =>
                match parseJSONResponse response with
                | Some value => KeyPointsMerge.FromModel json value
                | None =>
                    KeyPointsMerge.Points json
                      (fallbackMergeSpec toLowerCase keyPoints)
                end
            | Rejected _ =>
                KeyPointsMerge.Points json
                  (fallbackMergeSpec toLowerCase keyPoints)
            end,
          [ FastPromptAPI (KeyPointsMerge.mergePrompt keyPoints)
              createJSONSystemPrompt ] )
    end
  /\ (length (fallbackMergeSpec toLowerCase keyPoints) <= 10)%nat
  /\ (forall kp,
        In kp (fallbackMergeSpec toLowerCase keyPoints) -> In kp keyPoints).
Proof.
  intros Hvalid.
  assert (Hspec : deduplicateSimple toLowerCase keyPoints
                  = fallbackMergeSpec toLowerCase keyPoints).
  { rewrite deduplicateSimple_unfold. unfold fallbackMergeSpec.
    rewrite sort_by_rank; [reflexivity |].
    apply keepFirstPerKey_Forall, Hvalid. }
  split; [| rewrite <- Hspec; apply deduplicateSimple_selection].
  unfold KeyPointsMerge.deduplicateAndRankKeyPoints. rewrite Hspec.
  destruct keyPoints as [| kp0 rest]; [reflexivity |].
  set (keyPoints := kp0 :: rest).
  change (arrayLength keyPoints =? 0) with false. cbv iota.
  rewrite run_tryCatch. unfold mbind, async_bind.
  rewrite run_bind, run_await.
  destruct (engine n _) as [response | message]; cbn [run length app];
    [| reflexivity].
  destruct (parseJSONResponse response); reflexivity.
Qed.

Lemma deduplicateAndRankKeyPoints_on_valid_points_witness :
  run brokenEngine 0
    (KeyPointsMerge.deduplicateAndRankKeyPoints asciiLowerCase unit
       (fun _ => None) sampleKeyPoints)
  = ( Returned
        (KeyPointsMerge.Points unit
           (fallbackMergeSpec asciiLowerCase sampleKeyPoints)),
      [ FastPromptAPI (KeyPointsMerge.mergePrompt sampleKeyPoints)
          createJSONSystemPrompt ] ).
Proof.
  apply (deduplicateAndRankKeyPoints_on_valid_points asciiLowerCase unit
           (fun _ => None) brokenEngine 0 sampleKeyPoints).
  valid_importances.
Defined.
